(** * Hardware debug assistant: the rule-based HDL analyzer of [src/tools.ts]

    A shallow embedding of the three tools of [src/tools.ts]
    ([analyzeVerilogTool], [timingAnalysisTool], [detectCDCIssuesTool]) and
    of their helpers ([extractSignals], [generateSummary]), followed by the
    properties of the specification.  The code analysis handler and the
    design context of [src/agent.ts] and the request router of
    [src/server.ts] follow, with further properties of the code.

    JavaScript strings are sequences of UTF-16 code units; they are modelled
    as lists of [N].  The regular expressions of the source are run by a
    backtracking matcher written in continuation-passing style, the way
    ECMAScript defines pattern matching. *)

From Stdlib Require Import String Ascii.
From Stdlib Require Import List ZArith NArith Lia Bool Arith.
From Stdlib Require Import DecimalString.
From Stdlib Require DecimalPos DecimalN.
From Stdlib Require Import Floats.SpecFloat.
From Stdlib Require Import Sorted.
Import ListNotations.

Set Implicit Arguments.

(** ** JavaScript strings and arrays *)

Module JS.

Definition jsstring := list N.

(** A string literal of the source (ASCII only). *)
Definition str (s : string) : jsstring :=
  map N_of_ascii (list_ascii_of_string s).

Fixpoint streq (a b : jsstring) : bool :=
  match a, b with
  | [], [] => true
  | x :: a', y :: b' => (x =? y)%N && streq a' b'
  | _, _ => false
  end.

(** [String.prototype.startsWith] *)
Fixpoint starts_with (p s : jsstring) : bool :=
  match p, s with
  | [], _ => true
  | x :: p', y :: s' => (x =? y)%N && starts_with p' s'
  | _ :: _, [] => false
  end.

(** [String.prototype.includes] *)
Fixpoint includes (s p : jsstring) : bool :=
  starts_with p s ||
  match s with
  | [] => false
  | _ :: t => includes t p
  end.

(** [Array.prototype.includes] on an array of strings *)
Definition arr_includes (l : list jsstring) (x : jsstring) : bool :=
  existsb (streq x) l.

(** [Array.prototype.includes] on an array of [string | undefined] *)
Definition opt_streq (a b : option jsstring) : bool :=
  match a, b with
  | None, None => true
  | Some x, Some y => streq x y
  | _, _ => false
  end.

(** [String.prototype.split] with a separator of one code unit
    (the source only splits on ['\n']). *)
Fixpoint split_on (c : N) (s : jsstring) : list jsstring :=
  match s with
  | [] => [[]]
  | x :: t =>
      if (x =? c)%N then [] :: split_on c t
      else match split_on c t with
           | l :: ls => (x :: l) :: ls
           | [] => [[x]]
           end
  end.

(** [Array.prototype.findIndex]: the index of the first element satisfying
    [f], or [-1]. *)
Fixpoint findIndex {A} (f : A -> bool) (l : list A) : Z :=
  match l with
  | [] => (-1)%Z
  | x :: t => if f x then 0%Z
              else let i := findIndex f t in
                   if (i <? 0)%Z then (-1)%Z else (i + 1)%Z
  end.

(** [Array.prototype.join] *)
Fixpoint join (sep : jsstring) (l : list jsstring) : jsstring :=
  match l with
  | [] => []
  | [x] => x
  | x :: t => x ++ sep ++ join sep t
  end.

(** White space and line terminators of ECMAScript: what [\s] matches and
    what [trim] strips. *)
Definition is_space (c : N) : bool :=
  ((9 <=? c) && (c <=? 13) || (c =? 32) || (c =? 160) || (c =? 5760)
   || (8192 <=? c) && (c <=? 8202)
   || (c =? 8232) || (c =? 8233) || (c =? 8239) || (c =? 8287)
   || (c =? 12288) || (c =? 65279))%N.

(** [\w]: ASCII letters, digits and underscore *)
Definition is_word (c : N) : bool :=
  ((48 <=? c) && (c <=? 57) || (65 <=? c) && (c <=? 90)
   || (c =? 95) || (97 <=? c) && (c <=? 122))%N.

(** [[a-zA-Z_]] *)
Definition is_ident_start (c : N) : bool :=
  ((65 <=? c) && (c <=? 90) || (c =? 95) || (97 <=? c) && (c <=? 122))%N.

(** [.] (without the [s] flag): anything but a line terminator *)
Definition is_dot (c : N) : bool :=
  negb ((c =? 10) || (c =? 13) || (c =? 8232) || (c =? 8233))%N.

Fixpoint drop_space (s : jsstring) : jsstring :=
  match s with
  | x :: t => if is_space x then drop_space t else s
  | [] => []
  end.

(** [String.prototype.trim] *)
Definition trim (s : jsstring) : jsstring :=
  rev (drop_space (rev (drop_space s))).

(** [Number.prototype.toString] on a non-negative integer such as an array
    length: its decimal digits. *)
Definition dec (n : nat) : jsstring :=
  str (NilZero.string_of_uint (Nat.to_uint n)).

(** What a call either returns or throws. *)
Inductive outcome (A : Type) : Type :=
| Returns (a : A)
| Throws (err : jsstring).
Arguments Throws {A} err.

Definition bind {A B} (m : outcome A) (f : A -> outcome B) : outcome B :=
  match m with
  | Returns a => f a
  | Throws e => Throws e
  end.

Definition TypeError : jsstring := str "TypeError".

End JS.

Import JS.

Notation "x <- m ;; k" := (bind m (fun x => k))
  (at level 61, m at next level, right associativity).

(** ** Regular expressions *)

Module RegExp.

(** The fragment of ECMAScript patterns the source uses.  Quantifiers are
    only ever applied to a single character class ([\s*], [\w+], [.*?]) or,
    for [?], to a one-character class ([[<]?]). *)
Inductive regex : Type :=
| Eps
| Lit (w : jsstring)                    (* a literal run of characters *)
| Cls (p : N -> bool)                   (* one character of a class *)
| Seq (r1 r2 : regex)
| Alt (r1 r2 : regex)                   (* r1|r2, r1 tried first *)
| Star (greedy : bool) (p : N -> bool)  (* p* and p*? *)
| Opt (r : regex)                       (* r?, greedy *)
| Grp (r : regex)                       (* a capturing group *)
| WordB.                                (* \b *)

Definition Plus (p : N -> bool) : regex := Seq (Cls p) (Star true p).

(** A position in the input: the character before it (for [\b]) and the
    rest of the input. *)
Definition is_word_opt (c : option N) : bool :=
  match c with
  | Some x => is_word x
  | None => false
  end.

Fixpoint strip (w : jsstring) (prev : option N) (s : jsstring)
  : option (option N * jsstring) :=
  match w with
  | [] => Some (prev, s)
  | x :: w' =>
      match s with
      | y :: s' => if (x =? y)%N then strip w' (Some y) s' else None
      | [] => None
      end
  end.

Section Matcher.
Variable A : Type.

(** A continuation receives the position reached and the captures so far;
    [None] makes the matcher backtrack. *)
Definition cont := option N -> jsstring -> list jsstring -> option A.

Fixpoint star_greedy (p : N -> bool) (prev : option N) (s : jsstring)
  (k : option N -> jsstring -> option A) : option A :=
  match s with
  | x :: t =>
      if p x then
        match star_greedy p (Some x) t k with
        | Some a => Some a
        | None => k prev s
        end
      else k prev s
  | [] => k prev s
  end.

Fixpoint star_lazy (p : N -> bool) (prev : option N) (s : jsstring)
  (k : option N -> jsstring -> option A) : option A :=
  match k prev s with
  | Some a => Some a
  | None =>
      match s with
      | x :: t => if p x then star_lazy p (Some x) t k else None
      | [] => None
      end
  end.

Fixpoint rmatch (r : regex) (prev : option N) (s : jsstring)
  (caps : list jsstring) (k : cont) : option A :=
  match r with
  | Eps => k prev s caps
  | Lit w =>
      match strip w prev s with
      | Some (prev', s') => k prev' s' caps
      | None => None
      end
  | Cls p =>
      match s with
      | x :: t => if p x then k (Some x) t caps else None
      | [] => None
      end
  | Seq r1 r2 =>
      rmatch r1 prev s caps (fun prev' s' caps' => rmatch r2 prev' s' caps' k)
  | Alt r1 r2 =>
      match rmatch r1 prev s caps k with
      | Some a => Some a
      | None => rmatch r2 prev s caps k
      end
  | Star true p => star_greedy p prev s (fun prev' s' => k prev' s' caps)
  | Star false p => star_lazy p prev s (fun prev' s' => k prev' s' caps)
  | Opt r1 =>
      match rmatch r1 prev s caps k with
      | Some a => Some a
      | None => k prev s caps
      end
  | Grp r1 =>
      rmatch r1 prev s caps
        (fun prev' s' caps' =>
           k prev' s' (caps' ++ [firstn (length s - length s') s]))
  | WordB =>
      if xorb (is_word_opt prev) (is_word_opt (hd_error s))
      then k prev s caps else None
  end.

End Matcher.

(** A successful match: the matched text and the captured groups, group 1
    first.  In every pattern of the source the groups lie outside any
    alternative or optional part, so that each takes part in every match. *)
Record Match : Type := { m_text : jsstring; m_groups : list jsstring }.

(** The pattern matched at the current position only. *)
Definition match_here (r : regex) (prev : option N) (s : jsstring)
  : option Match :=
  rmatch r prev s []
    (fun _ s' caps =>
       Some {| m_text := firstn (length s - length s') s; m_groups := caps |}).

(** [RegExp.prototype.exec] without flags: the leftmost match. *)
Fixpoint search (r : regex) (prev : option N) (s : jsstring) : option Match :=
  match match_here r prev s with
  | Some m => Some m
  | None =>
      match s with
      | [] => None
      | x :: t => search r (Some x) t
      end
  end.

(** [String.prototype.match] with a pattern without the [g] flag. *)
Definition str_match (r : regex) (s : jsstring) : option Match :=
  search r None s.

(** [String.prototype.match] with the [g] flag: all matches, from left to
    right, each search starting where the previous match ended (one
    character further after an empty match).  [skip] counts the characters
    of the previous match still to pass. *)
Fixpoint scan (r : regex) (prev : option N) (s : jsstring) (skip : nat)
  : list Match :=
  match skip with
  | S n =>
      match s with
      | [] => []
      | x :: t => scan r (Some x) t n
      end
  | O =>
      match match_here r prev s with
      | Some m =>
          m :: match s with
               | [] => []
               | x :: t => scan r (Some x) t (length (m_text m) - 1)
               end
      | None =>
          match s with
          | [] => []
          | x :: t => scan r (Some x) t 0
          end
      end
  end.

(** The result is [null] when there is no match. *)
Definition match_all (r : regex) (s : jsstring) : option (list Match) :=
  match scan r None s 0 with
  | [] => None
  | ms => Some ms
  end.

(** [String.prototype.split] with a pattern that has no capturing group
    and no limit.  [cur] is the piece being collected, [skip] the
    characters of the separator still to pass.  A separator match that ends
    where the current piece starts is passed over. *)
Fixpoint split_go (r : regex) (prev : option N) (s : jsstring) (skip : nat)
  (cur : jsstring) : list jsstring :=
  match s with
  | [] => [cur]
  | x :: t =>
      match skip with
      | S n => split_go r (Some x) t n cur
      | O =>
          match match_here r prev s with
          | None => split_go r (Some x) t 0 (cur ++ [x])
          | Some m =>
              match length (m_text m), cur with
              | O, [] => split_go r (Some x) t 0 [x]
              | O, _ :: _ => cur :: split_go r (Some x) t 0 [x]
              | S n, _ => cur :: split_go r (Some x) t n []
              end
          end
      end
  end.

Definition split (r : regex) (s : jsstring) : list jsstring :=
  match s with
  | [] =>
      match match_here r None [] with
      | Some _ => []
      | None => [[]]
      end
  | _ :: _ => split_go r None s 0 []
  end.

(** *** What a match is, without the search order

    [derives r prev s caps prev' s' caps'] holds when [r] can take the
    matcher from the position [(prev, s)] with captures [caps] to the
    position [(prev', s')] with captures [caps']. *)

Inductive star_rel (p : N -> bool)
  : option N -> jsstring -> option N -> jsstring -> Prop :=
| star_stop prev s : star_rel p prev s prev s
| star_more prev x t prev' s' :
    p x = true -> star_rel p (Some x) t prev' s' ->
    star_rel p prev (x :: t) prev' s'.

Fixpoint derives (r : regex) (prev : option N) (s : jsstring)
  (caps : list jsstring) (prev' : option N) (s' : jsstring)
  (caps' : list jsstring) : Prop :=
  match r with
  | Eps => prev' = prev /\ s' = s /\ caps' = caps
  | Lit w => strip w prev s = Some (prev', s') /\ caps' = caps
  | Cls p => exists x, s = x :: s' /\ p x = true /\ prev' = Some x
                       /\ caps' = caps
  | Seq r1 r2 =>
      exists p1 s1 c1,
        derives r1 prev s caps p1 s1 c1 /\ derives r2 p1 s1 c1 prev' s' caps'
  | Alt r1 r2 =>
      derives r1 prev s caps prev' s' caps'
      \/ derives r2 prev s caps prev' s' caps'
  | Star _ p => star_rel p prev s prev' s' /\ caps' = caps
  | Opt r1 =>
      derives r1 prev s caps prev' s' caps'
      \/ (prev' = prev /\ s' = s /\ caps' = caps)
  | Grp r1 =>
      exists c1,
        derives r1 prev s caps prev' s' c1
        /\ caps' = c1 ++ [firstn (length s - length s') s]
  | WordB =>
      xorb (is_word_opt prev) (is_word_opt (hd_error s)) = true
      /\ prev' = prev /\ s' = s /\ caps' = caps
  end.

(** The character before the position reached after the run [run]. *)
Definition prev_after (prev : option N) (run : jsstring) : option N :=
  fold_left (fun _ x => Some x) run prev.

(** The class [p] does not match at the head of [s]. *)
Definition head_fails (p : N -> bool) (s : jsstring) : Prop :=
  match s with
  | [] => True
  | x :: _ => p x = false
  end.

End RegExp.

Import RegExp.

(** ** The tools of [src/tools.ts] *)

Module Tools.

Inductive Severity : Type := error | warning | info.

Definition severity_eqb (a b : Severity) : bool :=
  match a, b with
  | error, error | warning, warning | info, info => true
  | _, _ => false
  end.

(** An element of the [issues] array. *)
Record Issue : Type := {
  type : jsstring;
  severity : Severity;
  line : option Z;
  message : jsstring;
  suggestion : jsstring
}.

Record AnalysisResult : Type := {
  totalIssues : nat;
  issues : list Issue;
  summary : jsstring
}.

(** [z.enum(['verilog', 'vhdl'])] *)
Inductive Language : Type := verilog | vhdl.

Definition seq (l : list regex) : regex := fold_right Seq Eps l.

Definition ws_star : regex := Star true is_space.
Definition ws_plus : regex := Plus is_space.
Definition word_plus : regex := Plus is_word.

(** [/always\s*@\s*\(\s*posedge|negedge/]: the alternation binds weakest,
    its right branch is the bare word [negedge]. *)
Definition re_alwaysFF : regex :=
  Alt (seq [Lit (str "always"); ws_star; Lit (str "@"); ws_star;
            Lit (str "("); ws_star; Lit (str "posedge")])
      (Lit (str "negedge")).

(** [/always\s*@\s*\((.*?)\)/] *)
Definition re_always : regex :=
  seq [Lit (str "always"); ws_star; Lit (str "@"); ws_star; Lit (str "(");
       Grp (Star false is_dot); Lit (str ")")].

(** [/\s+or\s+|\s+,\s+/] *)
Definition re_listsep : regex :=
  Alt (seq [ws_plus; Lit (str "or"); ws_plus])
      (seq [ws_plus; Lit (str ","); ws_plus]).

(** [/(\w+)\s*[<]?=/g] *)
Definition re_assign : regex :=
  seq [Grp word_plus; ws_star; Opt (Cls (N.eqb 60)); Lit (str "=")].

(** [/\s*[<]?=/] *)
Definition re_assign_op : regex :=
  seq [ws_star; Opt (Cls (N.eqb 60)); Lit (str "=")].

(** [/@\s*\(posedge\s+(\w+)\)/g] *)
Definition re_clock : regex :=
  seq [Lit (str "@"); ws_star; Lit (str "(posedge"); ws_plus; Grp word_plus;
       Lit (str ")")].

(** [/posedge\s+(\w+)/] *)
Definition re_posedge : regex :=
  seq [Lit (str "posedge"); ws_plus; Grp word_plus].

(** [/\s+variable\s+/] and [/\s+signal\s+/] *)
Definition re_variable : regex := seq [ws_plus; Lit (str "variable"); ws_plus].
Definition re_signal : regex := seq [ws_plus; Lit (str "signal"); ws_plus].

(** [/\b(I)\b/g], where the group [I] is [[a-zA-Z_]\w*] *)
Definition re_ident : regex :=
  seq [WordB; Grp (Seq (Cls is_ident_start) (Star true is_word)); WordB].

(** A [Set] of strings, in insertion order. *)
Definition set_add (signals : list jsstring) (m : jsstring) : list jsstring :=
  if arr_includes signals m then signals else signals ++ [m].

Definition keywords : list jsstring :=
  [str "always"; str "if"; str "else"; str "case"; str "begin"; str "end";
   str "module"; str "endmodule"].

(** Helper function to extract signal names from Verilog code *)
Definition extractSignals (code : jsstring) : list jsstring :=
  fold_left
    (fun signals line =>
       match match_all re_ident line with
       | Some matches =>
           fold_left
             (fun sg m =>
                if negb (arr_includes keywords (m_text m))
                then set_add sg (m_text m) else sg)
             matches signals
       | None => signals
       end)
    (split_on 10 code) [].

Definition count_sev (s : Severity) (l : list Issue) : nat :=
  length (filter (fun i => severity_eqb (severity i) s) l).

(** Generate summary of issues found *)
Definition generateSummary (l : list Issue) : jsstring :=
  if length l =? 0 then str "No issues found. Code looks good!"
  else
    let errors := count_sev error l in
    let warnings := count_sev warning l in
    let infos := count_sev info l in
    let summary := str "Found " ++ dec (length l) ++ str " issue(s): " in
    let parts :=
      (if 0 <? errors then [dec errors ++ str " error(s)"] else [])
      ++ (if 0 <? warnings then [dec warnings ++ str " warning(s)"] else [])
      ++ (if 0 <? infos then [dec infos ++ str " info"] else []) in
    summary ++ join (str ", ") parts.

(** *** The Verilog rules, in the order of the source *)

Definition latch_issue (ln : Z) : Issue :=
  {| type := str "latch_inference";
     severity := warning;
     line := Some ln;
     message := str "Incomplete if statement may cause latch inference";
     suggestion :=
       str "Add an else clause or default assignment before the if statement" |}.

Definition check_latch (code : jsstring) : list Issue :=
  if includes code (str "if") && negb (includes code (str "else")) then
    let lines := split_on 10 code in
    let ifLine := findIndex (fun l => includes l (str "if")) lines in
    [latch_issue (ifLine + 1)]
  else [].

Definition blocking_issue : Issue :=
  {| type := str "blocking_in_sequential";
     severity := error;
     line := None;
     message := str "Using blocking assignments (=) in sequential always block";
     suggestion := str "Use non-blocking assignments (<=) for sequential logic" |}.

Definition truthy {A} (o : option A) : bool :=
  match o with Some _ => true | None => false end.

Definition check_blocking (code : jsstring) : list Issue :=
  let hasAlwaysFF := str_match re_alwaysFF code in
  let hasBlockingInFF :=
    truthy hasAlwaysFF && includes code (str "=")
    && negb (includes code (str "<=")) in
  if hasBlockingInFF then [blocking_issue] else [].

Definition sensitivity_issue (missing : list jsstring) : Issue :=
  {| type := str "incomplete_sensitivity";
     severity := warning;
     line := None;
     message :=
       str "Potentially incomplete sensitivity list. Missing signals: "
       ++ join (str ", ") missing;
     suggestion :=
       str "Use always @(*) for automatic sensitivity list generation" |}.

(** [alwaysMatch[1]] is read without a guard: were the group undefined,
    [sensitivityList.includes] would throw. *)
Definition check_sensitivity (code : jsstring) : outcome (list Issue) :=
  match str_match re_always code with
  | Some alwaysMatch =>
      match nth_error (m_groups alwaysMatch) 0 with
      | None => Throws TypeError
      | Some sensitivityList =>
          if negb (includes sensitivityList (str "posedge"))
             && negb (includes sensitivityList (str "negedge")) then
            let usedSignals := extractSignals code in
            let listedSignals := split re_listsep sensitivityList in
            let missing :=
              filter (fun s => negb (arr_includes listedSignals s))
                     usedSignals in
            if 0 <? length missing
            then Returns [sensitivity_issue missing]
            else Returns []
          else Returns []
      end
  | None => Returns []
  end.

Definition case_issue : Issue :=
  {| type := str "no_case_default";
     severity := warning;
     line := None;
     message := str "Case statement without default clause";
     suggestion := str "Add a default clause to handle unexpected values" |}.

Definition check_case (code : jsstring) : list Issue :=
  if includes code (str "case") && negb (includes code (str "default"))
  then [case_issue] else [].

(** A [Map<string, number>], in insertion order. *)
Definition counts := list (jsstring * nat).

Fixpoint map_get (m : counts) (key : jsstring) : option nat :=
  match m with
  | [] => None
  | (k, v) :: t => if streq k key then Some v else map_get t key
  end.

Fixpoint map_set (m : counts) (key : jsstring) (v : nat) : counts :=
  match m with
  | [] => [(key, v)]
  | (k, v0) :: t =>
      if streq k key then (k, v) :: t else (k, v0) :: map_set t key v
  end.

(** [x || 0] on [number | undefined] *)
Definition or_zero (o : option nat) : nat :=
  match o with Some n => n | None => 0 end.

Definition multiple_issue (signal : jsstring) : Issue :=
  {| type := str "multiple_assignments";
     severity := error;
     line := None;
     message := str "Signal '" ++ signal ++ str "' assigned multiple times";
     suggestion :=
       str "Ensure each signal is assigned in only one always block or assign statement" |}.

(** [a.split(/\s*[<]?=/)[0].trim()]: [trim] throws when the array is
    empty. *)
Definition assigned_signal (a : jsstring) : outcome jsstring :=
  match split re_assign_op a with
  | [] => Throws TypeError
  | first :: _ => Returns (trim first)
  end.

Fixpoint count_assignments (assignments : list jsstring) (signalCounts : counts)
  : outcome counts :=
  match assignments with
  | [] => Returns signalCounts
  | a :: rest =>
      signal <- assigned_signal a ;;
      count_assignments rest
        (map_set signalCounts signal (or_zero (map_get signalCounts signal) + 1))
  end.

Definition report_multiple (signalCounts : counts) : list Issue :=
  flat_map
    (fun '(signal, count) =>
       if 1 <? count then [multiple_issue signal] else [])
    signalCounts.

Definition check_multiple (code : jsstring) : outcome (list Issue) :=
  match match_all re_assign code with
  | Some assignments =>
      signalCounts <- count_assignments (map m_text assignments) [] ;;
      Returns (report_multiple signalCounts)
  | None => Returns []
  end.

Definition cdc_issue : Issue :=
  {| type := str "clock_domain_crossing";
     severity := warning;
     line := None;
     message := str "Multiple clock domains detected - potential CDC issues";
     suggestion :=
       str "Use proper synchronizers (two-flop) for single-bit CDC, async FIFOs for data" |}.

(** [h.match(/posedge\s+(\w+)/)?.[1]] *)
Definition clock_of (h : jsstring) : option jsstring :=
  match str_match re_posedge h with
  | Some m => nth_error (m_groups m) 0
  | None => None
  end.

(** The elements of [new Set(clocks)] *)
Fixpoint distinct (l : list (option jsstring)) : list (option jsstring) :=
  match l with
  | [] => []
  | x :: t => x :: filter (fun y => negb (opt_streq x y)) (distinct t)
  end.

Definition check_cdc (code : jsstring) : list Issue :=
  match match_all re_clock code with
  | Some hasClock =>
      if 1 <? length hasClock then
        let clocks := map (fun h => clock_of (m_text h)) hasClock in
        if 1 <? length (distinct clocks) then [cdc_issue] else []
      else []
  | None => []
  end.

Definition check_verilog (code : jsstring) : outcome (list Issue) :=
  let issues := check_latch code in
  let issues := issues ++ check_blocking code in
  sens <- check_sensitivity code ;;
  let issues := issues ++ sens in
  let issues := issues ++ check_case code in
  multi <- check_multiple code ;;
  let issues := issues ++ multi in
  Returns (issues ++ check_cdc code).

(** *** The VHDL rules *)

Definition vhdl_latch_issue : Issue :=
  {| type := str "latch_inference";
     severity := warning;
     line := None;
     message :=
       str "Incomplete conditional assignment in process may cause latch";
     suggestion :=
       str "Ensure all signals have default assignments or complete if-else chains" |}.

Definition mixed_issue : Issue :=
  {| type := str "mixed_variable_signal";
     severity := info;
     line := None;
     message := str "Process uses both variables and signals";
     suggestion :=
       str "Variables update immediately, signals update at end of process - ensure correct usage" |}.

Definition check_vhdl (code : jsstring) : list Issue :=
  (if includes code (str "process") && negb (includes code (str "else"))
   then [vhdl_latch_issue] else [])
  ++
  (let hasVariables := str_match re_variable code in
   let hasSignals := str_match re_signal code in
   if truthy hasVariables && truthy hasSignals then [mixed_issue] else []).

(** *** Generic checks for both languages *)

Definition style_issue (n : nat) : Issue :=
  {| type := str "style";
     severity := info;
     line := None;
     message := dec n ++ str " lines exceed 120 characters";
     suggestion := str "Consider breaking long lines for better readability" |}.

Definition check_style (code : jsstring) : list Issue :=
  let lines := split_on 10 code in
  let longLines := filter (fun l => 120 <? length l) lines in
  if 0 <? length longLines then [style_issue (length longLines)] else [].

(** [analyzeVerilogTool.execute] *)
Definition analyze (code : jsstring) (language : Language)
  : outcome AnalysisResult :=
  found <- match language with
           | verilog => check_verilog code
           | vhdl => Returns (check_vhdl code)
           end ;;
  let issues := found ++ check_style code in
  Returns {| totalIssues := length issues;
             issues := issues;
             summary := generateSummary issues |}.

End Tools.

(** ** JavaScript numbers: IEEE 754 binary64 *)

Module Number.

Definition prec : Z := 53.
Definition emax : Z := 1024.

Definition number := spec_float.

(** An integer literal of the source. *)
Definition of_Z (z : Z) : number := binary_normalize prec emax z 0 false.

Definition div (x y : number) : number := SFdiv prec emax x y.

(** [ToBoolean]: [+0], [-0] and [NaN] are falsy. *)
Definition to_boolean (x : number) : bool :=
  match x with
  | S754_zero _ | S754_nan => false
  | S754_infinity _ | S754_finite _ _ _ => true
  end.

Definition digits (n : Z) : jsstring :=
  str (NilZero.string_of_uint (N.to_uint (Z.to_N n))).

(** The integer [n] for which [n / 10^3] is closest to [m * 2^e], the
    larger one of two. *)
Definition nearest_thousandth (m : positive) (e : Z) : Z :=
  if (0 <=? e)%Z then Z.pos m * 2 ^ e * 1000
  else (2 * (Z.pos m * 1000) + 2 ^ (- e)) / (2 * 2 ^ (- e)).

(** [m * 2^e >= 10^21] *)
Definition at_least_1e21 (m : positive) (e : Z) : bool :=
  if (0 <=? e)%Z then (10 ^ 21 <=? Z.pos m * 2 ^ e)%Z
  else (10 ^ 21 * 2 ^ (- e) <=? Z.pos m)%Z.

(** The digits of [n] with a point before the last three. *)
Definition fixed3 (n : Z) : jsstring :=
  let m := digits n in
  let m := repeat 48%N (3 + 1 - length m) ++ m in
  let k := length m in
  firstn (k - 3) m ++ str "." ++ skipn (k - 3) m.

Section ToString.

(** [Number::toString], the shortest decimal that reads back as the same
    number, is part of the language and is not modelled: the tools reach it
    for the frequency echoed in a description and for a period of
    [10^21] or more. *)
Variable toString : number -> jsstring.

(** [Number.prototype.toFixed(3)] *)
Definition toFixed3 (x : number) : jsstring :=
  match x with
  | S754_nan => str "NaN"
  | S754_infinity false => str "Infinity"
  | S754_infinity true => str "-Infinity"
  | S754_zero _ => fixed3 0
  | S754_finite sign m e =>
      (if sign then str "-" else [])
      ++ (if at_least_1e21 m e then toString (S754_finite false m e)
          else fixed3 (nearest_thousandth m e))
  end.

End ToString.

End Number.

(** ** Tool for timing analysis guidance *)

Module Timing.

Import Number.

Inductive ViolationType : Type := setup | hold | both | unknown.

Record Step : Type := {
  step : jsstring;
  description : jsstring;
  commands : option (list jsstring)
}.

Record TimingGuidance : Type := {
  issue : jsstring;
  violationType : ViolationType;
  guidance : list Step;
  generalTips : list jsstring
}.

Definition setup_steps : list Step :=
  [ {| step := str "Identify Critical Path";
       description :=
         str "Run timing analysis to find the longest combinational path";
       commands := Some
         [str "report_timing -from [all_registers] -to [all_registers] -max_paths 10";
          str "report_timing -delay_type max -path_type full_clock"] |};
    {| step := str "Analyze Path Components";
       description :=
         str "Break down the delay into: logic delay, net delay, and cell delay";
       commands := Some [str "report_timing -path full_clock -delay max -nets"] |};
    {| step := str "Optimization Strategies";
       description :=
         str "Consider these approaches to reduce critical path delay";
       commands := Some
         [str "// Add pipeline stages to break up long paths";
          str "// Use faster cells in the critical path";
          str "// Reduce fanout of high-fanout nets";
          str "// Consider multi-cycle path constraints if applicable"] |} ].

Definition hold_steps : list Step :=
  [ {| step := str "Check Hold Violations";
       description :=
         str "Hold violations often indicate clock skew or fast data paths";
       commands := Some
         [str "report_timing -delay_type min"; str "report_clock_skew"] |};
    {| step := str "Hold Fixing";
       description :=
         str "Tools typically fix hold violations automatically, but you can:";
       commands := Some
         [str "// Add delay buffers in the data path";
          str "// Balance clock tree to reduce skew";
          str "// Check for inappropriate multi-cycle paths"] |} ].

Definition tips : list jsstring :=
  [str "Use register-to-register paths for best timing";
   str "Avoid long combinational clouds";
   str "Balance clock tree carefully";
   str "Consider using timing exceptions for known multi-cycle paths";
   str "Use synthesis constraints to guide optimization"].

Section Execute.
Variable toString : number -> jsstring.

Definition period_command (period : number) : jsstring :=
  str "create_clock -period " ++ toFixed3 toString period
  ++ str " [get_ports clk]".

Definition period_step (clockFrequency : number) : Step :=
  let period := div (of_Z 1000) clockFrequency in
  {| step := str "Clock Period Analysis";
     description :=
       str "Target clock period: " ++ toFixed3 toString period
       ++ str " ns at " ++ toString clockFrequency ++ str " MHz";
     commands := Some [period_command period] |}.

(** [timingAnalysisTool.execute]; an absent [violationType] defaults to
    ['unknown'], and [if (clockFrequency)] skips the step for an absent
    frequency and for a falsy one alike. *)
Definition timingAnalysis (issue : jsstring) (clockFrequency : option number)
  (violationType : option ViolationType) : TimingGuidance :=
  let violationType :=
    match violationType with Some v => v | None => unknown end in
  let guidance : list Step := [] in
  let guidance :=
    match violationType with
    | setup | both => guidance ++ setup_steps
    | _ => guidance
    end in
  let guidance :=
    match violationType with
    | hold | both => guidance ++ hold_steps
    | _ => guidance
    end in
  let guidance :=
    match clockFrequency with
    | Some f =>
        if to_boolean f then guidance ++ [period_step f] else guidance
    | None => guidance
    end in
  {| issue := issue;
     violationType := violationType;
     guidance := guidance;
     generalTips := tips |}.

End Execute.

End Timing.

(** ** Tool for detecting clock domain crossing issues *)

Module Cdc.

Inductive SignalType : Type := single_bit | multi_bit | bus | handshake.

Record Recommendation : Type := {
  scenario : jsstring;
  solution : jsstring;
  verilogExample : option jsstring
}.

Record CDCGuidance : Type := {
  description : jsstring;
  signalType : option SignalType;
  recommendations : list Recommendation;
  generalGuidelines : list jsstring;
  toolRecommendations : list jsstring
}.

Definition two_flop_example : jsstring := str "
// Two-flop synchronizer for single-bit signal
reg sync_ff1, sync_ff2;

always @(posedge clk_dest or negedge rst_n) begin
  if (!rst_n) begin
    sync_ff1 <= 1'b0;
    sync_ff2 <= 1'b0;
  end else begin
    sync_ff1 <= signal_from_source_domain;
    sync_ff2 <= sync_ff1;
  end
end

assign synced_signal = sync_ff2;".

Definition gray_code_example : jsstring := str "
// Gray code counter for CDC
function [N-1:0] bin2gray;
  input [N-1:0] bin;
  begin
    bin2gray = bin ^ (bin >> 1);
  end
endfunction

// In source domain
gray_counter <= bin2gray(binary_counter);

// In destination domain (synchronize each bit)
always @(posedge clk_dest) begin
  gray_sync1 <= gray_counter;
  gray_sync2 <= gray_sync1;
end".

Definition bus_handshake_example : jsstring := str "
// Handshake protocol for data bus
// Source domain
always @(posedge clk_src) begin
  if (data_valid && !req) begin
    req <= ~req;  // Toggle request
    data_reg <= data;
  end
end

// Destination domain
always @(posedge clk_dest) begin
  req_sync1 <= req;
  req_sync2 <= req_sync1;
  req_sync3 <= req_sync2;
  
  if (req_sync2 != req_sync3) begin
    // New data available
    data_out <= data_reg;
  end
end".

Definition four_phase_example : jsstring := str "
// Four-phase handshake CDC
// Source domain
always @(posedge clk_src) begin
  if (send_data && !req && ack_synced) begin
    data_reg <= data_in;
    req <= 1'b1;
  end else if (req && ack_synced) begin
    req <= 1'b0;
  end
end

// Sync ack back to source
always @(posedge clk_src) begin
  ack_sync1 <= ack;
  ack_synced <= ack_sync1;
end

// Destination domain
always @(posedge clk_dest) begin
  req_sync1 <= req;
  req_sync2 <= req_sync1;
  
  if (req_sync2 && !ack) begin
    data_out <= data_reg;
    ack <= 1'b1;
  end else if (!req_sync2 && ack) begin
    ack <= 1'b0;
  end
end".

Definition single_bit_recommendations : list Recommendation :=
  [ {| scenario := str "Single-bit CDC crossing";
       solution := str "Use a two-flop synchronizer";
       verilogExample := Some two_flop_example |} ].

Definition bus_recommendations : list Recommendation :=
  [ {| scenario := str "Multi-bit bus crossing";
       solution := str "Use Gray code encoding or handshake protocol";
       verilogExample := Some gray_code_example |};
    {| scenario := str "Data bus with enable signal";
       solution := str "Use toggle-based or handshake protocol";
       verilogExample := Some bus_handshake_example |} ].

Definition handshake_recommendations : list Recommendation :=
  [ {| scenario := str "Handshake-based data transfer";
       solution := str "Four-phase handshake with proper synchronization";
       verilogExample := Some four_phase_example |} ].

Definition guidelines : list jsstring :=
  [str "Never cross multi-bit buses without proper synchronization";
   str "Use gray code for counters and pointers";
   str "Always use at least two flops for synchronization";
   str "Consider metastability recovery time (MTBF)";
   str "Use async FIFOs for high-bandwidth data transfers";
   str "Verify CDC paths with formal tools (Jasper, VC Formal)"].

Definition cdc_tools : list jsstring :=
  [str "Synopsys SpyGlass CDC verification";
   str "Cadence JasperGold CDC";
   str "Real Intent Meridian CDC"].

(** [detectCDCIssuesTool.execute]; [!signalType] holds for an absent
    [signalType] only, every value of the enumeration being a non-empty
    string. *)
Definition detectCDCIssues (description : jsstring)
  (signalType : option SignalType) : CDCGuidance :=
  let recommendations : list Recommendation := [] in
  let recommendations :=
    match signalType with
    | Some single_bit | None => recommendations ++ single_bit_recommendations
    | _ => recommendations
    end in
  let recommendations :=
    match signalType with
    | Some multi_bit | Some bus => recommendations ++ bus_recommendations
    | _ => recommendations
    end in
  let recommendations :=
    match signalType with
    | Some handshake => recommendations ++ handshake_recommendations
    | _ => recommendations
    end in
  {| description := description;
     signalType := signalType;
     recommendations := recommendations;
     generalGuidelines := guidelines;
     toolRecommendations := cdc_tools |}.

End Cdc.

(** ** The properties of the specification, stated on their own *)

Module Spec.

Import Tools.



(** The issues of one kind. *)
Definition of_kind (kind : string) (l : list Issue) : list Issue :=
  filter (fun i => streq (type i) (str kind)) l.

(** Line [k] (counted from 0) is the first line of [code] that contains
    [word]. *)
Definition first_line_with (code word : jsstring) (k : nat) : Prop :=
  (exists l, nth_error (split_on 10 code) k = Some l
             /\ includes l word = true)
  /\ forall j l, j < k -> nth_error (split_on 10 code) j = Some l ->
                 includes l word = false.

(** An assignment-like expression: an identifier, white space, an
    optional [<], and [=]; group 1 is the identifier. *)
Definition assignment_like (m : Match) : Prop :=
  exists W S L,
    m_text m = W ++ S ++ L ++ str "="
    /\ m_groups m = [W]
    /\ W <> []
    /\ Forall (fun x => is_word x = true) W
    /\ Forall (fun x => is_space x = true) S
    /\ (L = [] \/ L = str "<").

(** The targets of the assignment-like expressions of [code], from left to
    right. *)
Definition assignment_targets (code : jsstring) : list jsstring :=
  map (fun m => nth 0 (m_groups m) []) (scan re_assign None code 0).

(** [t] is an assignment-like expression with the target [W]: the
    identifier [W], white space, an optional [<], and [=]. *)
Definition assignment_expr (W t : jsstring) : Prop :=
  exists S L,
    t = W ++ S ++ L ++ str "="
    /\ W <> []
    /\ Forall (fun x => is_word x = true) W
    /\ Forall (fun x => is_space x = true) S
    /\ (L = [] \/ L = str "<").

(** An assignment-like expression stands at the start of [s]. *)
Definition assignment_starts (s : jsstring) : Prop :=
  exists W t rest, assignment_expr W t /\ s = t ++ rest.

(** [targets] are the targets of the assignment-like expressions of a
    text read from left to right: each expression is the first one that
    starts after the end of the one before, and after the last one no
    expression starts. *)
Inductive tokenized : jsstring -> list jsstring -> Prop :=
| tokenized_end (s : jsstring) :
    (forall pre s', s = pre ++ s' -> ~ assignment_starts s') ->
    tokenized s []
| tokenized_next (gap W t rest : jsstring) (targets : list jsstring) :
    (forall pre s', gap = pre ++ s' -> s' <> [] ->
                    ~ assignment_starts (s' ++ t ++ rest)) ->
    assignment_expr W t ->
    tokenized rest targets ->
    tokenized (gap ++ t ++ rest) (W :: targets).

(** A clock header: [@], white space, [(posedge], white space, a signal
    and [)]. *)
Definition clock_text (S S' W : jsstring) : jsstring :=
  str "@" ++ S ++ str "(posedge" ++ S' ++ W ++ str ")".

Definition posedge_header (m : Match) : Prop :=
  exists S S' W,
    m_text m = clock_text S S' W
    /\ m_groups m = [W]
    /\ Forall (fun x => is_space x = true) S
    /\ S' <> [] /\ Forall (fun x => is_space x = true) S'
    /\ W <> [] /\ Forall (fun x => is_word x = true) W.

(** The signals of the clock headers of [code], from left to right. *)
Definition posedge_signals (code : jsstring) : list jsstring :=
  map (fun m => nth 0 (m_groups m) []) (scan re_clock None code 0).

Definition str_eq_dec : forall a b : jsstring, {a = b} + {a <> b} :=
  list_eq_dec N.eq_dec.

(** The four-line example of the specification. *)
Definition example_block : jsstring :=
  str "always @(a or b) begin
  if (a)
    out = b;
end".

(** A source without any block header in which the word [negedge] is part
    of a name. *)
Definition stray_negedge : jsstring :=
  str "assign negedge_seen = prev & ~cur;".

(** The period step is the last step of the guidance. *)
Definition period_step_appended (toString : Number.number -> jsstring)
  (issue : jsstring) (clockFrequency : Number.number)
  (violationType : option Timing.ViolationType) : Prop :=
  exists before,
    Timing.guidance
      (Timing.timingAnalysis toString issue (Some clockFrequency)
                             violationType)
    = before ++ [Timing.period_step toString clockFrequency].

(** The number that a string of decimal digits shows; nothing else is
    read. *)
Definition digit_value (c : N) : option Z :=
  if (48 <=? c)%N && (c <=? 57)%N then Some (Z.of_N c - 48)%Z else None.

Fixpoint read_digits (s : jsstring) (shown : Z) : option Z :=
  match s with
  | [] => Some shown
  | c :: t =>
      match digit_value c with
      | Some d => read_digits t (10 * shown + d)%Z
      | None => None
      end
  end.

(** [numeral] has three decimal places and shows [n / 1000]: one decimal
    digit or more, a point, and three decimal digits. *)
Definition three_decimals (numeral : jsstring) (n : Z) : Prop :=
  exists whole frac,
    numeral = whole ++ str "." ++ frac
    /\ whole <> [] /\ length frac = 3
    /\ read_digits (whole ++ frac) 0 = Some n.

(** [n / 1000] is the multiple of one thousandth nearest to [m * 2^e],
    the larger of two that are as near. *)
Definition nearest_to (m : positive) (e : Z) (n : Z) : Prop :=
  if (0 <=? e)%Z then n = (1000 * (Z.pos m * 2 ^ e))%Z
  else ((2 * n - 1) * 2 ^ (- e) <= 2000 * Z.pos m < (2 * n + 1) * 2 ^ (- e))%Z.

(** [m * 2^e < 10^21] *)
Definition below_1e21 (m : positive) (e : Z) : Prop :=
  if (0 <=? e)%Z then (Z.pos m * 2 ^ e < 10 ^ 21)%Z
  else (Z.pos m < 10 ^ 21 * 2 ^ (- e))%Z.

(** [P] is the period printed with three decimal places: a period whose
    magnitude is below [10^21] is rounded to the nearest thousandth and
    shown with three decimals, after a minus sign when it is negative
    ([-0] shows no sign).  Beyond that there are no three decimals: a
    period of [10^21] or more is printed by [Number::toString], an
    infinite one as [Infinity]. *)
Definition period_printed (toString : Number.number -> jsstring)
  (period : Number.number) (P : jsstring) : Prop :=
  match period with
  | S754_zero _ => three_decimals P 0
  | S754_finite sign m e =>
      (below_1e21 m e ->
       exists n numeral,
         nearest_to m e n /\ three_decimals numeral n
         /\ P = (if sign then str "-" else []) ++ numeral)
      /\ (~ below_1e21 m e ->
          P = (if sign then str "-" else [])
              ++ toString (S754_finite false m e))
  | S754_infinity sign => P = if sign then str "-Infinity" else str "Infinity"
  | S754_nan => False
  end.

(** The strings of a list, each once, in the order of their first
    occurrence. *)
Definition first_occurrences (l : list jsstring) : list jsstring :=
  fold_left
    (fun seen x => if in_dec str_eq_dec x seen then seen else seen ++ [x])
    l [].

(** The strings that occur more than once in a list. *)
Definition repeated (l : list jsstring) : list jsstring :=
  filter (fun x => 1 <? count_occ str_eq_dec l x) (first_occurrences l).

(** The counting loop of the source on the signals themselves. *)
Definition tally (l : list jsstring) (acc : counts) : counts :=
  fold_left (fun m x => map_set m x (or_zero (map_get m x) + 1)) l acc.

(** The map that gives [g k] to every key [k] of [keys]. *)
Definition tabulate (g : jsstring -> nat) (keys : list jsstring) : counts :=
  map (fun k => (k, g k)) keys.

(** There are two different strings in the list. *)
Definition two_distinct (l : list jsstring) : Prop :=
  exists a b, In a l /\ In b l /\ a <> b.

(** Two blocks on two clocks and a third block on the first clock. *)
Definition two_clocks : jsstring :=
  str "always @(posedge clk1) a <= d;
always @(posedge clk2) b <= a;
always @(posedge clk1) c <= b;".

(** Two blocks on one clock. *)
Definition one_clock : jsstring :=
  str "always @(posedge clk) q <= d;
always @(posedge clk) r <= q;".

End Spec.

(** ** The agent of [src/agent.ts] *)

Module Agent.

Import Tools.

(** [analyzeVerilogTool.execute] as [handleCodeAnalysis] calls it: the
    language tag comes from the parsed message and is compared as a
    string, without the check of the tool's parameter schema. *)
Definition execute (code language : jsstring) : outcome AnalysisResult :=
  found <- (if streq language (str "verilog") then check_verilog code
            else if streq language (str "vhdl") then Returns (check_vhdl code)
            else Returns []) ;;
  let issues := found ++ check_style code in
  Returns {| totalIssues := length issues;
             issues := issues;
             summary := generateSummary issues |}.

(** A value of the parsed message.  [webSocketMessage] passes [data.code]
    and [data.language] on as [JSON.parse] gave them, strings or not; an
    absent field is [undefined]. *)
#[warnings="-register-all"]
Inductive Value : Type :=
| JUndefined
| JNull
| JBoolean (b : bool)
| JNumber (x : Number.number)
| JString (s : jsstring)
| JArray (items : list Value)
| JObject (fields : list (jsstring * Value)).

(** The statements the agent sends to its database. *)
Inductive Statement : Type :=
| InsertMessage (role content : jsstring) (timestamp : Z)
| InsertModule (module_name : option jsstring) (timestamp : Z)
| InsertError (error_type : jsstring) (timestamp : Z)
| InsertSnippet (code_snippet : Value) (timestamp : Z)
| DeleteMessages
| DeleteContext.

(** The objects passed to [ws.send], before [JSON.stringify]. *)
Inductive Reply : Type :=
| analysis_result (analysis : AnalysisResult)
| error_reply (message details : jsstring).

Inductive Style : Type := ieee | industry.

(** [DesignContext].  [currentModule] is assigned [moduleMatch[1]], which
    the type checker takes for a string: [None] stands for
    [undefined]. *)
Record DesignContext : Type := {
  currentModule : option jsstring;
  recentErrors : list jsstring;
  codeSnippets : list (jsstring * Z);
  language : Language;
  style : Style
}.

(** The design context set by [initialize] and by [clearHistory]. *)
Definition initial_context : DesignContext :=
  {| currentModule := Some (str "none");
     recentErrors := [];
     codeSnippets := [];
     language := verilog;
     style := industry |}.

(** One letter of a pattern with the [i] flag: outside Unicode mode a
    character matches it when it is the letter in either case. *)
Definition either_case (lower upper : N) : regex :=
  Cls (fun x => (x =? lower)%N || (x =? upper)%N).

(** [/module\s+(\w+)/i] *)
Definition re_module : regex :=
  seq [either_case 109 77; either_case 111 79; either_case 100 68;
       either_case 117 85; either_case 108 76; either_case 101 69;
       ws_plus; Grp word_plus].

Definition errorKeywords : list jsstring :=
  [str "error"; str "warning"; str "violation"; str "latch"; str "timing"].

(** [recentErrors.push(keyword)], then [shift()] when more than five are
    held. *)
Definition push_error (recentErrors : list jsstring) (keyword : jsstring)
  : list jsstring :=
  let pushed := recentErrors ++ [keyword] in
  if 5 <? length pushed then tl pushed else pushed.

(** The state of the agent, as [initialize] sets it. *)
Record State : Type := {
  conversationCount : Z;
  lastInteraction : Z;
  designContext : DesignContext
}.

(** The design context after a handler, the statements it ran with
    success, the state it handed to [setState] if it came to it, and how
    it ended. *)
Record Run : Type := {
  context : DesignContext;
  statements : list Statement;
  published : option State;
  ended : outcome unit
}.

(** ASCII lower case, to read the letters of a word whatever their
    case. *)
Definition ascii_lower (x : N) : N :=
  if (65 <=? x)%N && (x <=? 90)%N then (x + 32)%N else x.

Section World.

(** What lies outside the repository: the database, where a statement
    either succeeds or throws; [setState] of the agent framework, alike;
    the clock, [clock n] being the reading of the [n]-th call of
    [Date.now()] during the handler; and
    [String.prototype.toLowerCase]. *)
Variable exec : Statement -> outcome unit.
Variable setState : State -> outcome unit.
Variable clock : nat -> Z.
Variable toLowerCase : jsstring -> jsstring.

(** The closing [setState({ ...currentState, designContext })]. *)
Definition publish (currentState : State) (designContext : DesignContext)
  (done : list Statement) : Run :=
  let next := {| conversationCount := conversationCount currentState;
                 lastInteraction := lastInteraction currentState;
                 designContext := designContext |} in
  {| context := designContext;
     statements := done;
     published := Some next;
     ended := setState next |}.

(** The loop over [errorKeywords]: the first keyword found in the message
    is recorded, then the loop breaks. *)
Fixpoint track_errors (keywords : list jsstring) (lowerMessage : jsstring)
  (currentState : State) (designContext : DesignContext)
  (done : list Statement) (reads : nat) : Run :=
  match keywords with
  | [] => publish currentState designContext done
  | keyword :: rest =>
      if includes lowerMessage keyword then
        let designContext :=
          {| currentModule := currentModule designContext;
             recentErrors := push_error (recentErrors designContext) keyword;
             codeSnippets := codeSnippets designContext;
             language := language designContext;
             style := style designContext |} in
        let statement := InsertError keyword (clock reads) in
        match exec statement with
        | Throws e => {| context := designContext; statements := done;
                         published := None; ended := Throws e |}
        | Returns _ =>
            publish currentState designContext (done ++ [statement])
        end
      else track_errors rest lowerMessage currentState designContext done
                        reads
  end.

(** [updateDesignContext]; the design context is the object held by the
    current state, changed in place. *)
Definition updateDesignContext (message : jsstring) (currentState : State)
  : Run :=
  let lowerMessage := toLowerCase message in
  let designContext := designContext currentState in
  match str_match re_module message with
  | Some moduleMatch =>
      let name := nth_error (m_groups moduleMatch) 0 in
      let designContext :=
        {| currentModule := name;
           recentErrors := recentErrors designContext;
           codeSnippets := codeSnippets designContext;
           language := language designContext;
           style := style designContext |} in
      let statement := InsertModule name (clock 0) in
      match exec statement with
      | Throws e => {| context := designContext; statements := [];
                       published := None; ended := Throws e |}
      | Returns _ =>
          track_errors errorKeywords lowerMessage currentState designContext
                       [statement] 1
      end
  | None =>
      track_errors errorKeywords lowerMessage currentState designContext [] 0
  end.

End World.

(** [language === tag] *)
Definition is_tag (language : Value) (tag : jsstring) : bool :=
  match language with
  | JString language => streq language tag
  | _ => false
  end.

(** [analyzeVerilogTool.execute({ code, language })] on the values of the
    message.  A value that is no string has none of [split] and [match],
    and only an array has [includes]: the analysis then throws a
    [TypeError] at [code.includes], or for an array at the [code.split] or
    [code.match] that every path reaches next, in the Verilog branch, in
    the VHDL branch and in the checks for both languages alike. *)
Definition execute_value (code language : Value) : outcome AnalysisResult :=
  match code with
  | JString code =>
      found <- (if is_tag language (str "verilog") then check_verilog code
                else if is_tag language (str "vhdl")
                     then Returns (check_vhdl code)
                else Returns []) ;;
      let issues := found ++ check_style code in
      Returns {| totalIssues := length issues;
                 issues := issues;
                 summary := generateSummary issues |}
  | _ => Throws TypeError
  end.

(** What [catch (error)] binds: an [Error] with its message, or a value
    that is no [Error]. *)
Inductive Thrown : Type :=
| an_Error (message : jsstring)
| not_an_Error.

(** How a call of the database or of the socket ends. *)
Inductive Completion : Type :=
| fulfilled
| rejected (thrown : Thrown).

(** [error instanceof Error ? error.message : 'Unknown error'] *)
Definition details_of (thrown : Thrown) : jsstring :=
  match thrown with
  | an_Error message => message
  | not_an_Error => str "Unknown error"
  end.

(** What a call of the handler does: the calls of [ws.send] and of
    [sql.exec] in their order, the last of which may have thrown, and how
    the handler ends. *)
Record Handled : Type := {
  sent : list Reply;
  queries : list Statement;
  handler_ends : Completion
}.

Section Socket.

(** What lies outside the repository: the database and [ws.send], where
    a call succeeds or throws; the clock; and the message of the
    [TypeError] that the engine raises in the analysis. *)
Variable exec : Statement -> Completion.
Variable send : Reply -> Completion.
Variable clock : nat -> Z.
Variable typeErrorMessage : Value -> Value -> jsstring.

(** The [catch] block: one more [ws.send], outside any [try]. *)
Definition code_analysis_failed (thrown : Thrown) (sent : list Reply)
  (queries : list Statement) : Handled :=
  let reply := error_reply (str "Code analysis failed") (details_of thrown) in
  {| sent := sent ++ [reply];
     queries := queries;
     handler_ends := send reply |}.

(** [handleCodeAnalysis]: the analysis, the insertion of the snippet and
    the [ws.send] of the result stand in one [try]. *)
Definition handleCodeAnalysis (code language : Value) : Handled :=
  match execute_value code language with
  | Returns analysis =>
      let statement := InsertSnippet code (clock 0) in
      match exec statement with
      | fulfilled =>
          let reply := analysis_result analysis in
          match send reply with
          | fulfilled =>
              {| sent := [reply];
                 queries := [statement];
                 handler_ends := fulfilled |}
          | rejected thrown =>
              code_analysis_failed thrown [reply] [statement]
          end
      | rejected thrown => code_analysis_failed thrown [] [statement]
      end
  | Throws _ =>
      code_analysis_failed (an_Error (typeErrorMessage code language)) [] []
  end.

End Socket.


End Agent.

(** ** The request router of [src/server.ts] *)

Module Server.

(** What the router reads of a request: the path of its URL, its method
    and its [Upgrade] header ([None] when the header is absent). *)
Record Request : Type := {
  pathname : jsstring;
  method : jsstring;
  upgrade : option jsstring
}.

(** What the router does with a request. *)
Inductive Served : Type :=
| agent_socket            (* handleWebSocket: the agent gets the request *)
| upgrade_required        (* status 426 *)
| static_asset            (* fetch(request) *)
| health                  (* status 200, { status: 'ok', timestamp } *)
| agent_state             (* the agent gets GET http://internal/state *)
| agent_reset             (* the agent gets POST http://internal/reset *)
| not_found.              (* status 404 *)

Definition handleAPIRequest (request : Request) : Served :=
  if streq (pathname request) (str "/api/health") then health
  else if streq (pathname request) (str "/api/state")
          && streq (method request) (str "GET") then agent_state
  else if streq (pathname request) (str "/api/reset")
          && streq (method request) (str "POST") then agent_reset
  else not_found.

Definition fetch (request : Request) : Served :=
  if streq (pathname request) (str "/api/chat") then
    if opt_streq (upgrade request) (Some (str "websocket"))
    then agent_socket else upgrade_required
  else if streq (pathname request) (str "/")
          || streq (pathname request) (str "/index.html") then static_asset
  else if starts_with (str "/api/") (pathname request)
  then handleAPIRequest request
  else static_asset.

End Server.

(** ** Further properties of the tools, stated on their own *)

Module More.

Import Tools Spec.

(** A run of white space. *)
Definition spaces (S : jsstring) : Prop :=
  Forall (fun x => is_space x = true) S.

(** The source holds [always], [@], [(] and [posedge] in this order with
    nothing but white space between them. *)
Definition ff_header (code : jsstring) : Prop :=
  exists pre S1 S2 S3 post,
    code = pre ++ str "always" ++ S1 ++ str "@" ++ S2 ++ str "(" ++ S3
           ++ str "posedge" ++ post
    /\ spaces S1 /\ spaces S2 /\ spaces S3.

(** The word [w] stands in the source between two white-space
    characters. *)
Definition spaced_word (code w : jsstring) : Prop :=
  exists pre a b post,
    code = pre ++ [a] ++ w ++ [b] ++ post
    /\ is_space a = true /\ is_space b = true.





(** The lines of the source longer than 120 code units. *)
Definition long_lines (code : jsstring) : list jsstring :=
  filter (fun l => 120 <? length l) (split_on 10 code).

(** The place of a kind of issue in the order of the rules. *)
Definition rule_rank (kind : jsstring) : nat :=
  if streq kind (str "latch_inference") then 0
  else if streq kind (str "blocking_in_sequential") then 1
  else if streq kind (str "incomplete_sensitivity") then 2
  else if streq kind (str "no_case_default") then 3
  else if streq kind (str "multiple_assignments") then 4
  else if streq kind (str "clock_domain_crossing") then 5
  else if streq kind (str "mixed_variable_signal") then 6
  else if streq kind (str "style") then 7
  else 8.

(** A sorted list of numbers between two bounds. *)
Definition between (lo hi : nat) (l : list nat) : Prop :=
  StronglySorted le l /\ Forall (fun x => lo <= x <= hi) l.

(** What an issue of the analysis of [code] carries. *)
Definition well_formed (code : jsstring) (language : Language) (i : Issue)
  : Prop :=
  message i <> [] /\ suggestion i <> []
  /\ match line i with
     | None => True
     | Some n =>
         language = verilog
         /\ type i = str "latch_inference"
         /\ exists k l,
              n = (Z.of_nat k + 1)%Z
              /\ nth_error (split_on 10 code) k = Some l
              /\ includes l (str "if") = true
     end.

(** The design context with one more recent error. *)
Definition record_error (c : Agent.DesignContext) (keyword : jsstring)
  : Agent.DesignContext :=
  {| Agent.currentModule := Agent.currentModule c;
     Agent.recentErrors := Agent.push_error (Agent.recentErrors c) keyword;
     Agent.codeSnippets := Agent.codeSnippets c;
     Agent.language := Agent.language c;
     Agent.style := Agent.style c |}.

(** The design context with another current module. *)
Definition rename_module (c : Agent.DesignContext) (name : option jsstring)
  : Agent.DesignContext :=
  {| Agent.currentModule := name;
     Agent.recentErrors := Agent.recentErrors c;
     Agent.codeSnippets := Agent.codeSnippets c;
     Agent.language := Agent.language c;
     Agent.style := Agent.style c |}.

(** The first of the five keywords that the text holds. *)
Definition first_keyword (lowerMessage : jsstring) : option jsstring :=
  find (fun k => includes lowerMessage k) Agent.errorKeywords.

(** [W] is a run of word characters, as long as can be, that follows the
    word [module], in any case of its letters, and white space. *)
Definition module_named (message W : jsstring) : Prop :=
  exists pre M S post,
    message = pre ++ M ++ S ++ W ++ post
    /\ map Agent.ascii_lower M = str "module"
    /\ S <> [] /\ spaces S
    /\ W <> [] /\ Forall (fun x => is_word x = true) W
    /\ head_fails is_word post.

End More.

Import More.

Import Tools Spec.

Unset Implicit Arguments.

(** ** Strings *)

Lemma streq_eq (a b : jsstring) : streq a b = true <-> a = b.
Proof.
  revert b; induction a as [|x a IH]; intros [|y b]; simpl;
    try (split; congruence).
  rewrite andb_true_iff, N.eqb_eq, IH. split.
  - intros [-> ->]; reflexivity.
  - intros E; injection E; auto.
Qed.

Lemma streq_neq (a b : jsstring) : streq a b = false <-> a <> b.
Proof.
  rewrite <- streq_eq. destruct (streq a b); split; congruence.
Qed.

Lemma starts_with_app (p s : jsstring) :
  starts_with p s = true <-> exists b, s = p ++ b.
Proof.
  revert s; induction p as [|x p IH]; intros s; simpl.
  - split; eauto.
  - destruct s as [|y s].
    + split; [discriminate | intros [b E]; discriminate].
    + rewrite andb_true_iff, N.eqb_eq, IH. split.
      * intros [-> [b ->]]; eauto.
      * intros [b E]; injection E as -> ->; eauto.
Qed.

Lemma includes_app (s p : jsstring) :
  includes s p = true <-> exists a b, s = a ++ p ++ b.
Proof.
  induction s as [|x s IH]; simpl; rewrite orb_true_iff, starts_with_app.
  - split.
    + intros [[b E] | F]; [exists [], b; exact E | discriminate].
    + intros [[|y a] [b E]]; [left; eauto | discriminate].
  - rewrite IH. split.
    + intros [[b E] | [a [b E]]].
      * exists [], b; exact E.
      * exists (x :: a), b; simpl; congruence.
    + intros [[|y a] [b E]]; simpl in E.
      * left; eauto.
      * right; injection E as -> ->; eauto.
Qed.

(** ** The summary *)



(** ** The matcher finds only matches *)

Lemma star_greedy_sound A (p : N -> bool) (s : jsstring) :
  forall prev (k : option N -> jsstring -> option A) a,
    star_greedy p prev s k = Some a ->
    exists prev' s', star_rel p prev s prev' s' /\ k prev' s' = Some a.
Proof.
  induction s as [|x t IH]; intros prev k a H; simpl in H.
  - exists prev, []; split; [constructor | exact H].
  - destruct (p x) eqn:P.
    + destruct (star_greedy p (Some x) t k) as [a0|] eqn:E.
      * injection H as <-. apply IH in E as (prev' & s' & R & K).
        exists prev', s'; split; [econstructor; eassumption | exact K].
      * exists prev, (x :: t); split; [constructor | exact H].
    + exists prev, (x :: t); split; [constructor | exact H].
Qed.

Lemma star_lazy_sound A (p : N -> bool) (s : jsstring) :
  forall prev (k : option N -> jsstring -> option A) a,
    star_lazy p prev s k = Some a ->
    exists prev' s', star_rel p prev s prev' s' /\ k prev' s' = Some a.
Proof.
  induction s as [|x t IH]; intros prev k a H; simpl in H.
  - destruct (k prev []) eqn:K; [|discriminate].
    exists prev, []; split; [constructor | congruence].
  - destruct (k prev (x :: t)) eqn:K.
    + exists prev, (x :: t); split; [constructor | congruence].
    + destruct (p x) eqn:P; [|discriminate].
      apply IH in H as (prev' & s' & R & K').
      exists prev', s'; split; [econstructor; eassumption | exact K'].
Qed.

Lemma rmatch_sound A (r : regex) :
  forall prev s caps (k : cont A) a,
    rmatch r prev s caps k = Some a ->
    exists prev' s' caps',
      derives r prev s caps prev' s' caps' /\ k prev' s' caps' = Some a.
Proof.
  induction r as [|w|p|r1 IH1 r2 IH2|r1 IH1 r2 IH2|g p|r1 IH1|r1 IH1|];
    intros prev s caps k a H; simpl in H.
  - exists prev, s, caps; simpl; auto.
  - destruct (strip w prev s) as [[prev' s']|] eqn:E; [|discriminate].
    exists prev', s', caps; simpl; auto.
  - destruct s as [|x t]; [discriminate|].
    destruct (p x) eqn:P; [|discriminate].
    exists (Some x), t, caps; simpl; split; [exists x; auto | exact H].
  - apply IH1 in H as (p1 & s1 & c1 & D1 & H).
    apply IH2 in H as (p2 & s2 & c2 & D2 & H).
    exists p2, s2, c2; split; [exists p1, s1, c1; auto | exact H].
  - destruct (rmatch r1 prev s caps k) as [a0|] eqn:E.
    + injection H as <-. apply IH1 in E as (p1 & s1 & c1 & D & K).
      exists p1, s1, c1; simpl; auto.
    + apply IH2 in H as (p1 & s1 & c1 & D & K).
      exists p1, s1, c1; simpl; auto.
  - destruct g.
    + apply star_greedy_sound in H as (p1 & s1 & R & K).
      exists p1, s1, caps; simpl; auto.
    + apply star_lazy_sound in H as (p1 & s1 & R & K).
      exists p1, s1, caps; simpl; auto.
  - destruct (rmatch r1 prev s caps k) as [a0|] eqn:E.
    + injection H as <-. apply IH1 in E as (p1 & s1 & c1 & D & K).
      exists p1, s1, c1; simpl; auto.
    + exists prev, s, caps; simpl; auto.
  - apply IH1 in H as (p1 & s1 & c1 & D & K).
    exists p1, s1, (c1 ++ [firstn (length s - length s1) s]); split;
      [exists c1; auto | exact K].
  - destruct (xorb _ _) eqn:X; [|discriminate].
    exists prev, s, caps; simpl; auto.
Qed.

Lemma strip_app (w : jsstring) :
  forall prev s prev' s', strip w prev s = Some (prev', s') -> s = w ++ s'.
Proof.
  induction w as [|x w IH]; intros prev s prev' s' H; simpl in H.
  - injection H as _ <-; reflexivity.
  - destruct s as [|y s]; [discriminate|].
    destruct (N.eqb_spec x y) as [->|]; [|discriminate].
    simpl; f_equal; eapply IH; eassumption.
Qed.

Lemma star_rel_app (p : N -> bool) prev s prev' s' :
  star_rel p prev s prev' s' ->
  exists run, s = run ++ s' /\ Forall (fun x => p x = true) run.
Proof.
  induction 1 as [|prev x t prev' s' P R (run & -> & F)].
  - exists []; auto.
  - exists (x :: run); auto.
Qed.

Lemma derives_app (r : regex) :
  forall prev s caps prev' s' caps',
    derives r prev s caps prev' s' caps' -> exists m, s = m ++ s'.
Proof.
  induction r as [|w|p|r1 IH1 r2 IH2|r1 IH1 r2 IH2|g p|r1 IH1|r1 IH1|];
    intros prev s caps prev' s' caps' D; simpl in D.
  - destruct D as (_ & -> & _); exists []; reflexivity.
  - destruct D as (D & _); apply strip_app in D; eauto.
  - destruct D as (x & -> & _); exists [x]; reflexivity.
  - destruct D as (p1 & s1 & c1 & D1 & D2).
    apply IH1 in D1 as (m1 & ->). apply IH2 in D2 as (m2 & ->).
    exists (m1 ++ m2); rewrite app_assoc; reflexivity.
  - destruct D as [D|D]; eauto.
  - destruct D as (R & _); apply star_rel_app in R as (run & -> & _); eauto.
  - destruct D as [D|(_ & -> & _)]; [eauto | exists []; reflexivity].
  - destruct D as (c1 & D & _); eauto.
  - destruct D as (_ & _ & -> & _); exists []; reflexivity.
Qed.

Lemma firstn_matched (m s' : jsstring) :
  firstn (length (m ++ s') - length s') (m ++ s') = m.
Proof.
  rewrite length_app, Nat.add_sub, firstn_app, Nat.sub_diag, firstn_all.
  simpl; apply app_nil_r.
Qed.

Lemma match_here_sound (r : regex) prev s m :
  match_here r prev s = Some m ->
  exists prev' s',
    derives r prev s [] prev' s' (m_groups m) /\ s = m_text m ++ s'.
Proof.
  unfold match_here; intros H.
  apply rmatch_sound in H as (prev' & s' & caps' & D & E).
  injection E as <-. exists prev', s'; split; [exact D|].
  destruct (derives_app _ _ _ _ _ _ _ D) as (mm & ->).
  simpl; rewrite firstn_matched; reflexivity.
Qed.

Lemma search_sound (r : regex) (s : jsstring) :
  forall prev m,
    search r prev s = Some m ->
    exists prev0 s0, match_here r prev0 s0 = Some m.
Proof.
  induction s as [|x t IH]; intros prev m H; simpl in H;
    destruct (match_here r prev _) as [m0|] eqn:E;
    try discriminate; try (injection H as <-; eauto).
  eapply IH; eassumption.
Qed.

Lemma scan_sound (r : regex) (s : jsstring) :
  forall prev skip m,
    In m (scan r prev s skip) ->
    exists prev0 s0, match_here r prev0 s0 = Some m.
Proof.
  induction s as [|x t IH]; intros prev [|n] m H; simpl in H;
    try contradiction.
  - destruct (match_here r prev []) as [m0|] eqn:E; [|contradiction].
    destruct H as [<-|[]]; eauto.
  - destruct (match_here r prev (x :: t)) as [m0|] eqn:E.
    + destruct H as [<-|H]; eauto.
    + eauto.
  - eauto.
Qed.

(** Unfolding [derives] along a pattern of the source. *)
Ltac open_derivation D :=
  cbn [derives fold_right seq ws_star ws_plus word_plus Plus] in D;
  repeat match goal with
         | H : exists _, _ |- _ => destruct H
         | H : _ /\ _ |- _ => destruct H
         end.

(** ** The analysis never throws *)

Lemma always_groups (code : jsstring) (m : Match) :
  str_match re_always code = Some m -> exists g, m_groups m = [g].
Proof.
  intros H. apply search_sound in H as (prev & s & H).
  apply match_here_sound in H as (prev' & s' & D & _).
  unfold re_always in D. open_derivation D. subst.
  match goal with H : m_groups m = _ |- _ => rewrite H end.
  eexists; reflexivity.
Qed.

Lemma check_sensitivity_returns (code : jsstring) :
  exists l,
    check_sensitivity code = Returns l
    /\ Forall (fun i => exists missing, i = sensitivity_issue missing) l.
Proof.
  unfold check_sensitivity.
  destruct (str_match re_always code) as [m|] eqn:E;
    [|eexists; split; [reflexivity | constructor]].
  destruct (always_groups _ _ E) as (g & ->); simpl nth_error.
  cbv beta iota zeta.
  destruct (negb (includes g (str "posedge"))
            && negb (includes g (str "negedge")));
    [|eexists; split; [reflexivity | constructor]].
  destruct (0 <? length _);
    eexists; (split; [reflexivity|]); repeat constructor; eauto.
Qed.

Lemma split_go_nonempty (r : regex) (s : jsstring) :
  forall prev skip cur, split_go r prev s skip cur <> [].
Proof.
  induction s as [|x t IH]; intros prev skip cur; simpl; [discriminate|].
  destruct skip; [|apply IH].
  destruct (match_here r prev (x :: t)) as [m|]; [|apply IH].
  destruct (length (m_text m)); [destruct cur|]; try discriminate; apply IH.
Qed.

Lemma assigned_signal_returns (a : jsstring) :
  exists signal, assigned_signal a = Returns signal.
Proof.
  unfold assigned_signal.
  destruct (split re_assign_op a) as [|first rest] eqn:E; [|eauto].
  exfalso. destruct a as [|x t].
  - vm_compute in E; discriminate.
  - unfold split in E. eapply split_go_nonempty; eassumption.
Qed.

Lemma count_assignments_returns (l : list jsstring) :
  forall acc, exists c, count_assignments l acc = Returns c.
Proof.
  induction l as [|a l IH]; intros acc; simpl; [eauto|].
  destruct (assigned_signal_returns a) as (signal & ->); simpl.
  apply IH.
Qed.

Lemma report_multiple_kind (c : counts) :
  Forall (fun i => exists signal, i = multiple_issue signal)
         (report_multiple c).
Proof.
  unfold report_multiple.
  induction c as [|[signal n] c IH]; simpl; [constructor|].
  destruct (1 <? n); simpl; [constructor; eauto | exact IH].
Qed.

Lemma check_multiple_returns (code : jsstring) :
  exists l,
    check_multiple code = Returns l
    /\ Forall (fun i => exists signal, i = multiple_issue signal) l.
Proof.
  unfold check_multiple.
  destruct (match_all re_assign code) as [ms|];
    [|eexists; split; [reflexivity | constructor]].
  destruct (count_assignments_returns (map m_text ms) []) as (c & ->).
  simpl. eexists; split; [reflexivity | apply report_multiple_kind].
Qed.

(** The issues of a Verilog analysis, rule by rule. *)
Lemma analyze_verilog_parts (code : jsstring) :
  exists sens multi,
    check_sensitivity code = Returns sens
    /\ check_multiple code = Returns multi
    /\ Forall (fun i => exists missing, i = sensitivity_issue missing) sens
    /\ Forall (fun i => exists signal, i = multiple_issue signal) multi
    /\ let found := check_latch code ++ check_blocking code ++ sens
                    ++ check_case code ++ multi ++ check_cdc code
                    ++ check_style code in
       analyze code verilog =
       Returns {| totalIssues := length found;
                  issues := found;
                  summary := generateSummary found |}.
Proof.
  destruct (check_sensitivity_returns code) as (sens & Es & Fs).
  destruct (check_multiple_returns code) as (multi & Em & Fm).
  exists sens, multi. repeat (split; [assumption|]).
  unfold analyze, check_verilog. rewrite Es, Em. simpl.
  rewrite <- !app_assoc. reflexivity.
Qed.

Lemma analyze_returns (code : jsstring) (language : Language) :
  exists found,
    analyze code language =
    Returns {| totalIssues := length found;
               issues := found;
               summary := generateSummary found |}.
Proof.
  destruct language.
  - destruct (analyze_verilog_parts code) as (sens & multi & _ & _ & _ & _ & E).
    eexists; exact E.
  - eexists; reflexivity.
Qed.

(** ** The kinds of the issues of each rule *)

Lemma of_kind_app (kind : string) (l1 l2 : list Issue) :
  of_kind kind (l1 ++ l2) = of_kind kind l1 ++ of_kind kind l2.
Proof. apply filter_app. Qed.

Lemma of_kind_other (kind : string) (l : list Issue) :
  Forall (fun i => streq (type i) (str kind) = false) l -> of_kind kind l = [].
Proof.
  unfold of_kind; induction 1 as [|i l H F IH]; simpl; [reflexivity|].
  rewrite H; exact IH.
Qed.

Lemma of_kind_all (kind : string) (l : list Issue) :
  Forall (fun i => streq (type i) (str kind) = true) l -> of_kind kind l = l.
Proof.
  unfold of_kind; induction 1 as [|i l H F IH]; simpl; [reflexivity|].
  rewrite H, IH; reflexivity.
Qed.

Lemma check_latch_kind (code : jsstring) :
  Forall (fun i => type i = str "latch_inference") (check_latch code).
Proof. unfold check_latch; destruct (_ && _); repeat constructor. Qed.

Lemma check_blocking_kind (code : jsstring) :
  Forall (fun i => type i = str "blocking_in_sequential")
         (check_blocking code).
Proof.
  unfold check_blocking; cbv zeta; destruct (_ && _); repeat constructor.
Qed.

Lemma check_case_kind (code : jsstring) :
  Forall (fun i => type i = str "no_case_default") (check_case code).
Proof. unfold check_case; destruct (_ && _); repeat constructor. Qed.

Lemma check_cdc_kind (code : jsstring) :
  Forall (fun i => type i = str "clock_domain_crossing") (check_cdc code).
Proof.
  unfold check_cdc; destruct (match_all re_clock code); [|constructor].
  destruct (1 <? length l); [|constructor].
  cbv zeta; destruct (1 <? length _); repeat constructor.
Qed.

Lemma check_style_kind (code : jsstring) :
  Forall (fun i => type i = str "style") (check_style code).
Proof.
  unfold check_style; cbv zeta; destruct (0 <? length _); repeat constructor.
Qed.

Lemma sensitivity_kind (l : list Issue) :
  Forall (fun i => exists missing, i = sensitivity_issue missing) l ->
  Forall (fun i => type i = str "incomplete_sensitivity") l.
Proof. apply Forall_impl; intros i (missing & ->); reflexivity. Qed.

Lemma multiple_kind (l : list Issue) :
  Forall (fun i => exists signal, i = multiple_issue signal) l ->
  Forall (fun i => type i = str "multiple_assignments") l.
Proof. apply Forall_impl; intros i (signal & ->); reflexivity. Qed.

(** The issues of kind [kind] among those of a rule that only reports
    [other]. *)
Lemma of_kind_rule (kind other : string) (l : list Issue) :
  Forall (fun i => type i = str other) l ->
  of_kind kind l = if streq (str other) (str kind) then l else [].
Proof.
  intros F. destruct (streq (str other) (str kind)) eqn:E.
  - apply of_kind_all. revert F; apply Forall_impl. intros i ->; exact E.
  - apply of_kind_other. revert F; apply Forall_impl. intros i ->; exact E.
Qed.

(** The issues of one kind in a Verilog analysis, rule by rule. *)
Lemma verilog_of_kind (kind : string) (code : jsstring) :
  exists r sens multi,
    analyze code verilog = Returns r
    /\ check_sensitivity code = Returns sens
    /\ check_multiple code = Returns multi
    /\ of_kind kind (issues r) =
       (if streq (str "latch_inference") (str kind)
        then check_latch code else [])
       ++ (if streq (str "blocking_in_sequential") (str kind)
           then check_blocking code else [])
       ++ (if streq (str "incomplete_sensitivity") (str kind)
           then sens else [])
       ++ (if streq (str "no_case_default") (str kind)
           then check_case code else [])
       ++ (if streq (str "multiple_assignments") (str kind)
           then multi else [])
       ++ (if streq (str "clock_domain_crossing") (str kind)
           then check_cdc code else [])
       ++ (if streq (str "style") (str kind) then check_style code else []).
Proof.
  destruct (analyze_verilog_parts code) as (sens & multi & Es & Em & Fs & Fm & E).
  eexists; exists sens, multi. split; [exact E|]. split; [exact Es|].
  split; [exact Em|]. cbn [issues]. rewrite !of_kind_app.
  rewrite (of_kind_rule kind _ _ (check_latch_kind code)).
  rewrite (of_kind_rule kind _ _ (check_blocking_kind code)).
  rewrite (of_kind_rule kind _ _ (sensitivity_kind _ Fs)).
  rewrite (of_kind_rule kind _ _ (check_case_kind code)).
  rewrite (of_kind_rule kind _ _ (multiple_kind _ Fm)).
  rewrite (of_kind_rule kind _ _ (check_cdc_kind code)).
  rewrite (of_kind_rule kind _ _ (check_style_kind code)).
  reflexivity.
Qed.

(** ** Lines *)

Lemma split_on_nonempty (c : N) (s : jsstring) : split_on c s <> [].
Proof.
  destruct s as [|x t]; simpl; [discriminate|].
  destruct (x =? c)%N; [discriminate|].
  destruct (split_on c t); discriminate.
Qed.

Lemma includes_cons (x : N) (s p : jsstring) :
  includes s p = true -> includes (x :: s) p = true.
Proof. intros H; simpl; rewrite H; apply orb_true_r. Qed.

Lemma split_on_starts_with (c : N) (p : jsstring) :
  ~ In c p ->
  forall s, starts_with p s = true ->
            exists l ls, split_on c s = l :: ls /\ starts_with p l = true.
Proof.
  induction p as [|x p IH]; intros NI s H.
  - destruct (split_on c s) as [|l ls] eqn:E;
      [exfalso; eapply split_on_nonempty; eassumption|].
    exists l, ls; auto.
  - destruct s as [|y s]; [discriminate|]. simpl in H.
    apply andb_true_iff in H as [XY H]. apply N.eqb_eq in XY; subst y.
    destruct (IH (fun I => NI (or_intror I)) s H) as (l & ls & E & P).
    simpl. destruct (N.eqb_spec x c) as [->|_];
      [exfalso; apply NI; left; reflexivity|].
    rewrite E. exists (x :: l), ls; split; [reflexivity|].
    simpl; rewrite N.eqb_refl; exact P.
Qed.

(** A word without the separator that occurs in a text occurs in one of
    its lines. *)
Lemma includes_line (c : N) (p : jsstring) :
  ~ In c p ->
  forall s, includes s p = true ->
            exists l, In l (split_on c s) /\ includes l p = true.
Proof.
  intros NI s; induction s as [|x t IH]; intros H.
  - simpl in H; rewrite orb_false_r in H.
    destruct (split_on_starts_with c p NI [] H) as (l & ls & E & P).
    exists l; split; [rewrite E; left; reflexivity|].
    destruct l; simpl; rewrite P; reflexivity.
  - simpl in H. apply orb_true_iff in H as [H|H].
    + destruct (split_on_starts_with c p NI (x :: t) H) as (l & ls & E & P).
      exists l; split; [rewrite E; left; reflexivity|].
      destruct l; simpl; rewrite P; reflexivity.
    + destruct (IH H) as (l & I & P). simpl.
      destruct (x =? c)%N; [exists l; split; [right; exact I | exact P]|].
      destruct (split_on c t) as [|l0 ls]; [contradiction|].
      destruct I as [<-|I].
      * exists (x :: l0); split; [left; reflexivity|].
        apply includes_cons; exact P.
      * exists l; split; [right; exact I | exact P].
Qed.

Lemma findIndex_first A (f : A -> bool) (l : list A) :
  (exists x, In x l /\ f x = true) ->
  exists k,
    findIndex f l = Z.of_nat k
    /\ (exists x, nth_error l k = Some x /\ f x = true)
    /\ forall j y, j < k -> nth_error l j = Some y -> f y = false.
Proof.
  induction l as [|a l IH]; intros (x & I & F); [contradiction|].
  simpl. destruct (f a) eqn:Fa.
  - exists 0; split; [reflexivity|]. split; [exists a; auto|].
    intros j y J; lia.
  - destruct I as [->|I]; [congruence|].
    destruct IH as (k & E & (y & Ny & Fy) & Before); [eauto|].
    exists (S k). rewrite E.
    destruct (Z.ltb_spec (Z.of_nat k) 0); [lia|].
    split; [lia|]. split; [exists y; auto|].
    intros [|j] z J Nz; simpl in Nz; [congruence|].
    eapply Before; [|eassumption]; lia.
Qed.

Lemma first_if_line (code : jsstring) :
  includes code (str "if") = true ->
  exists k,
    findIndex (fun l => includes l (str "if")) (split_on 10 code) = Z.of_nat k
    /\ first_line_with code (str "if") k.
Proof.
  intros H.
  destruct (includes_line 10%N (str "if")) with (s := code) as (l & I & P);
    [vm_compute; intuition discriminate | exact H |].
  destruct (findIndex_first _ (fun l => includes l (str "if"))
              (split_on 10 code)) as (k & E & Hk & Before); [eauto|].
  exists k; split; [exact E|]. split; assumption.
Qed.

(** Deciding the comparisons of kind names left by [verilog_of_kind]. *)
Ltac decide_kinds K :=
  repeat match type of K with
         | context [streq (str ?a) (str ?b)] =>
             let v := eval vm_compute in (streq (str a) (str b)) in
             change (streq (str a) (str b)) with v in K
         end;
  cbv iota in K; cbn [app] in K; rewrite ?app_nil_r in K.

(** ** Latch inference *)

(** C1. A Verilog source that contains [if] and nowhere [else] gets exactly
    one issue of kind [latch_inference]; it is a warning and its line is
    the number, counted from 1, of the first line that contains [if].  A
    Verilog source that contains both [if] and [else] gets no issue of that
    kind. *)
Theorem latch_inference_rule (code : jsstring) :
  (includes code (str "if") = true -> includes code (str "else") = false ->
   exists r k i,
     analyze code verilog = Returns r
     /\ of_kind "latch_inference" (issues r) = [i]
     /\ severity i = warning
     /\ line i = Some (Z.of_nat k + 1)%Z
     /\ first_line_with code (str "if") k)
  /\ (includes code (str "if") = true -> includes code (str "else") = true ->
      exists r,
        analyze code verilog = Returns r
        /\ of_kind "latch_inference" (issues r) = []).
Proof.
  destruct (verilog_of_kind "latch_inference" code)
    as (r & sens & multi & E & _ & _ & K).
  decide_kinds K. unfold check_latch in K. split; intros Hif Helse.
  - destruct (first_if_line code Hif) as (k & Ek & First).
    rewrite Hif, Helse in K; cbn [andb negb] in K; cbv zeta in K.
    rewrite Ek in K.
    exists r, k, (latch_issue (Z.of_nat k + 1)). auto.
  - rewrite Hif, Helse in K. exists r; auto.
Qed.

Lemma latch_inference_rule_witness :
  (exists r k i,
     analyze (str "if (a) q = d;") verilog = Returns r
     /\ of_kind "latch_inference" (issues r) = [i]
     /\ severity i = warning
     /\ line i = Some (Z.of_nat k + 1)%Z
     /\ first_line_with (str "if (a) q = d;") (str "if") k)
  /\ (exists r,
        analyze (str "if (a) q = d; else q = e;") verilog = Returns r
        /\ of_kind "latch_inference" (issues r) = []).
Proof.
  split.
  - apply (proj1 (latch_inference_rule (str "if (a) q = d;")));
      reflexivity.
  - apply (proj2 (latch_inference_rule (str "if (a) q = d; else q = e;")));
      reflexivity.
Defined.

(** ** Totality *)

(** C2. For every source string, the empty one included, and either
    language, the analysis returns a result and does not throw; on the
    empty Verilog source the result has no issue and the summary
    "No issues found. Code looks good!". *)
Theorem analyze_never_throws :
  (forall code language, exists r, analyze code language = Returns r)
  /\ analyze (str "") verilog =
     Returns {| totalIssues := 0;
                issues := [];
                summary := str "No issues found. Code looks good!" |}.
Proof.
  split; [|reflexivity].
  intros code language.
  destruct (analyze_returns code language) as (found & E); eauto.
Qed.

(** ** The result record *)



(** ** The end-to-end example *)


(** ** Blocking assignments in sequential logic *)

(** C5. The rule does not hold on [stray_negedge]: the pattern of the
    source is an alternation whose right branch is the bare word
    [negedge], so a source with an [=], no [<=] and the letters [negedge]
    anywhere gets a [blocking_in_sequential] error, here without any [@],
    parenthesis or [always] in the source. *)
Theorem stray_negedge_reported :
  exists r,
    analyze stray_negedge verilog = Returns r
    /\ of_kind "blocking_in_sequential" (issues r) = [blocking_issue]
    /\ severity blocking_issue = error
    /\ includes stray_negedge (str "always") = false
    /\ includes stray_negedge (str "@") = false
    /\ includes stray_negedge (str "(") = false
    /\ includes stray_negedge (str "posedge") = false.
Proof.
  eexists; split; [vm_compute; reflexivity|].
  repeat split; reflexivity.
Qed.

(** ** The period step of the timing guidance *)

Import Number Timing.

Lemma fixed3_shape (n : Z) :
  exists whole frac,
    fixed3 n = whole ++ str "." ++ frac /\ length frac = 3 /\ whole <> [].
Proof.
  unfold fixed3; cbv zeta.
  set (m := repeat 48%N (3 + 1 - length (digits n)) ++ digits n).
  assert (L : 4 <= length m).
  { unfold m; rewrite length_app, repeat_length; lia. }
  exists (firstn (length m - 3) m), (skipn (length m - 3) m).
  split; [reflexivity|]. split.
  - rewrite length_skipn; lia.
  - intros E. apply (f_equal (@length N)) in E.
    rewrite length_firstn in E; simpl in E; lia.
Qed.

(** [nearest_thousandth m e] is within one half of [m * 2^e * 1000], the
    upper one of two integers as near. *)
Lemma nearest_thousandth_spec (m : positive) (e : Z) :
  (e < 0)%Z ->
  let d := (2 ^ (- e))%Z in
  let n := nearest_thousandth m e in
  (2 * (n * d) <= 2 * (Z.pos m * 1000) + d < 2 * (n * d) + 2 * d)%Z.
Proof.
  intros He d n. unfold n, nearest_thousandth.
  destruct (Z.leb_spec 0 e); [lia|]. fold d.
  assert (Hd : (0 < d)%Z) by (apply Z.pow_pos_nonneg; lia).
  pose proof (Z.div_mod (2 * (Z.pos m * 1000) + d) (2 * d)) as DM.
  pose proof (Z.mod_pos_bound (2 * (Z.pos m * 1000) + d) (2 * d)) as MB.
  nia.
Qed.

(** *** Printing with three decimals *)

Lemma read_digits_zeros (k : nat) (s : jsstring) :
  read_digits (repeat 48%N k ++ s) 0 = read_digits s 0.
Proof. induction k as [|k IH]; simpl; [reflexivity | exact IH]. Qed.

Lemma read_digits_uint (d : Decimal.uint) :
  forall shown,
    exists value,
      read_digits (str (NilEmpty.string_of_uint d)) shown = Some value
      /\ (shown = 0%Z -> value = Z.of_N (N.of_uint d))
      /\ (forall p, shown = Z.pos p ->
                    value = Z.pos (Pos.of_uint_acc d p)).
Proof.
  induction d as [|d IH|d IH|d IH|d IH|d IH|d IH|d IH|d IH|d IH|d IH];
    intros shown.
  - exists shown. simpl. split; [reflexivity|]. split; [auto|].
    intros p ->; reflexivity.
  - destruct (IH (10 * shown + 0)%Z) as (v & R & Z0 & P0).
    exists v. split; [exact R|]. split.
    + intros ->. apply Z0. reflexivity.
    + intros p ->. apply P0. reflexivity.
  - destruct (IH (10 * shown + 1)%Z) as (v & R & _ & P0).
    exists v. split; [exact R|]. split.
    + intros ->. rewrite (P0 1%positive eq_refl). reflexivity.
    + intros p ->. apply P0. lia.
  - destruct (IH (10 * shown + 2)%Z) as (v & R & _ & P0).
    exists v. split; [exact R|]. split.
    + intros ->. rewrite (P0 2%positive eq_refl). reflexivity.
    + intros p ->. apply P0. lia.
  - destruct (IH (10 * shown + 3)%Z) as (v & R & _ & P0).
    exists v. split; [exact R|]. split.
    + intros ->. rewrite (P0 3%positive eq_refl). reflexivity.
    + intros p ->. apply P0. lia.
  - destruct (IH (10 * shown + 4)%Z) as (v & R & _ & P0).
    exists v. split; [exact R|]. split.
    + intros ->. rewrite (P0 4%positive eq_refl). reflexivity.
    + intros p ->. apply P0. lia.
  - destruct (IH (10 * shown + 5)%Z) as (v & R & _ & P0).
    exists v. split; [exact R|]. split.
    + intros ->. rewrite (P0 5%positive eq_refl). reflexivity.
    + intros p ->. apply P0. lia.
  - destruct (IH (10 * shown + 6)%Z) as (v & R & _ & P0).
    exists v. split; [exact R|]. split.
    + intros ->. rewrite (P0 6%positive eq_refl). reflexivity.
    + intros p ->. apply P0. lia.
  - destruct (IH (10 * shown + 7)%Z) as (v & R & _ & P0).
    exists v. split; [exact R|]. split.
    + intros ->. rewrite (P0 7%positive eq_refl). reflexivity.
    + intros p ->. apply P0. lia.
  - destruct (IH (10 * shown + 8)%Z) as (v & R & _ & P0).
    exists v. split; [exact R|]. split.
    + intros ->. rewrite (P0 8%positive eq_refl). reflexivity.
    + intros p ->. apply P0. lia.
  - destruct (IH (10 * shown + 9)%Z) as (v & R & _ & P0).
    exists v. split; [exact R|]. split.
    + intros ->. rewrite (P0 9%positive eq_refl). reflexivity.
    + intros p ->. apply P0. lia.
Qed.

(** The digits of a number show that number. *)
Lemma read_digits_digits (n : Z) :
  (0 <= n)%Z -> read_digits (digits n) 0 = Some n.
Proof.
  intros Hn. unfold digits.
  assert (E : NilZero.string_of_uint (N.to_uint (Z.to_N n))
              = NilEmpty.string_of_uint (N.to_uint (Z.to_N n))).
  { destruct (N.to_uint (Z.to_N n)) eqn:U; try reflexivity.
    exfalso. destruct (Z.to_N n); simpl in U; [discriminate|].
    revert U. apply DecimalPos.Unsigned.to_uint_nonnil. }
  rewrite E.
  destruct (read_digits_uint (N.to_uint (Z.to_N n)) 0) as (v & R & V & _).
  rewrite R, (V eq_refl), DecimalN.Unsigned.of_to, Z2N.id by exact Hn.
  reflexivity.
Qed.

Lemma fixed3_three_decimals (n : Z) :
  (0 <= n)%Z -> three_decimals (fixed3 n) n.
Proof.
  intros Hn. unfold fixed3; cbv zeta.
  set (m := repeat 48%N (3 + 1 - length (digits n)) ++ digits n).
  assert (L : 4 <= length m).
  { unfold m; rewrite length_app, repeat_length; lia. }
  exists (firstn (length m - 3) m), (skipn (length m - 3) m).
  split; [reflexivity|]. split; [|split].
  - intros E. apply (f_equal (@length N)) in E.
    rewrite length_firstn in E; simpl in E; lia.
  - rewrite length_skipn; lia.
  - rewrite firstn_skipn. unfold m.
    rewrite read_digits_zeros. apply read_digits_digits. exact Hn.
Qed.

Lemma nearest_thousandth_nearest (m : positive) (e : Z) :
  nearest_to m e (nearest_thousandth m e)
  /\ (0 <= nearest_thousandth m e)%Z.
Proof.
  unfold nearest_to. destruct (Z.leb_spec 0 e) as [He|He].
  - unfold nearest_thousandth. destruct (Z.leb_spec 0 e); [|lia].
    split; [lia|]. assert (0 < 2 ^ e)%Z by (apply Z.pow_pos_nonneg; lia).
    nia.
  - pose proof (nearest_thousandth_spec m e He) as S. cbv zeta in S.
    assert (Hd : (0 < 2 ^ (- e))%Z) by (apply Z.pow_pos_nonneg; lia).
    split; [nia|]. nia.
Qed.

Lemma at_least_1e21_below (m : positive) (e : Z) :
  at_least_1e21 m e = false <-> below_1e21 m e.
Proof.
  unfold at_least_1e21, below_1e21.
  destruct (0 <=? e)%Z; rewrite Z.leb_gt; reflexivity.
Qed.

(** [toFixed(3)] prints as [period_printed] says. *)
Lemma toFixed3_printed (toString : number -> jsstring) (x : number) :
  x <> S754_nan -> period_printed toString x (toFixed3 toString x).
Proof.
  intros NN. destruct x as [s|s| |s m e]; simpl.
  - apply (fixed3_three_decimals 0). lia.
  - destruct s; reflexivity.
  - congruence.
  - destruct (nearest_thousandth_nearest m e) as (Near & Pos).
    split.
    + intros B. apply at_least_1e21_below in B. rewrite B.
      exists (nearest_thousandth m e), (fixed3 (nearest_thousandth m e)).
      split; [exact Near|]. split; [|reflexivity].
      apply fixed3_three_decimals. exact Pos.
    + intros B. destruct (at_least_1e21 m e) eqn:A; [reflexivity|].
      apply at_least_1e21_below in A. contradiction.
Qed.

(** *** The quotient of two numbers is a number *)

Lemma shr_1_nonneg (mrs : shr_record) :
  (0 <= shr_m mrs)%Z -> (0 <= shr_m (shr_1 mrs))%Z.
Proof.
  destruct mrs as [m r s]. simpl.
  destruct m as [|[p|p|]|p]; simpl; lia.
Qed.

Lemma iter_pos_shr_1_nonneg (p : positive) :
  forall mrs, (0 <= shr_m mrs)%Z -> (0 <= shr_m (iter_pos shr_1 p mrs))%Z.
Proof.
  induction p as [p IH|p IH|]; intros mrs H; simpl.
  - apply IH, IH, shr_1_nonneg, H.
  - apply IH, IH, H.
  - apply shr_1_nonneg, H.
Qed.

Lemma shr_fexp_nonneg (m e : Z) (l : location) :
  (0 <= m)%Z -> (0 <= shr_m (fst (shr_fexp prec emax m e l)))%Z.
Proof.
  intros H. unfold shr_fexp, shr.
  assert (R : (0 <= shr_m (shr_record_of_loc m l))%Z).
  { unfold shr_record_of_loc. destruct l as [|[]]; simpl; exact H. }
  destruct (fexp prec emax (Zdigits2 m + e) - e)%Z; simpl; try exact R.
  apply iter_pos_shr_1_nonneg, R.
Qed.

Lemma binary_round_aux_number (sx : bool) (mx ex : Z) (lx : location) :
  (0 <= mx)%Z -> binary_round_aux prec emax sx mx ex lx <> S754_nan.
Proof.
  intros H. unfold binary_round_aux.
  pose proof (shr_fexp_nonneg mx ex lx H) as H1.
  destruct (shr_fexp prec emax mx ex lx) as [mrs' e']. simpl in H1.
  assert (H2 : (0 <= round_nearest_even (shr_m mrs')
                       (loc_of_shr_record mrs'))%Z).
  { unfold round_nearest_even.
    destruct (loc_of_shr_record mrs') as [|[]]; try lia.
    destruct (IntDef.Z.even (shr_m mrs')); lia. }
  pose proof (shr_fexp_nonneg _ e' loc_Exact H2) as H3.
  destruct (shr_fexp prec emax _ e' loc_Exact) as [mrs'' e'']. simpl in H3.
  destruct (shr_m mrs'') as [|m|m]; [discriminate| |lia].
  destruct (e'' <=? emax - prec)%Z; discriminate.
Qed.

Lemma period_is_number (clockFrequency : number) :
  to_boolean clockFrequency = true ->
  div (of_Z 1000) clockFrequency <> S754_nan.
Proof.
  intros T. unfold div.
  change (of_Z 1000) with (S754_finite false 8796093022208000 (-43)).
  destruct clockFrequency as [s|s| |s m e]; try discriminate T.
  - simpl. discriminate.
  - unfold SFdiv.
    destruct (SFdiv_core_binary prec emax (Z.pos 8796093022208000) (-43)
                (Z.pos m) e) as [[mz ez] lz] eqn:Q.
    apply binary_round_aux_number.
    unfold SFdiv_core_binary in Q. cbv zeta in Q.
    match type of Q with
    | (let '(q, r) := IntDef.Z.div_eucl ?a ?b in _) = _ =>
        assert (A : (0 <= a)%Z);
        [| pose proof (Z.div_pos a b A ltac:(lia)) as D;
           unfold Z.div in D;
           change (IntDef.Z.div_eucl a b) with (Z.div_eucl a b) in Q;
           destruct (Z.div_eucl a b) as [q r]; injection Q as <- _ _;
           exact D ]
    end.
    match goal with
    | |- (0 <= match ?s with _ => _ end)%Z =>
        destruct s; [lia | apply Z.shiftl_nonneg; lia | lia]
    end.
Qed.

(** C6, as the source has it.  A frequency that is a number other than
    zero and NaN, negative ones included, adds the period step at the end
    of the guidance: its one command is [create_clock -period], the period
    [1000 / clockFrequency] as printed, and [[get_ports clk]].  A period
    whose magnitude is below [10^21] is printed with three decimal places,
    rounded to the nearest thousandth; a larger one is not: it is printed
    by [Number::toString], as for the frequency [1e-19], and an infinite
    one as [Infinity], as for the least positive frequency.  A frequency
    that is zero or NaN adds nothing: the guidance is that of a call
    without a frequency.  With the frequency 100 and a setup violation the
    command is [create_clock -period 10.000 [get_ports clk]]. *)
Theorem period_step_rule (toString : number -> jsstring) (issue : jsstring)
  (clockFrequency : number) (violationType : option ViolationType) :
  (to_boolean clockFrequency = true ->
   period_step_appended toString issue clockFrequency violationType
   /\ exists P,
        commands (period_step toString clockFrequency) =
        Some [str "create_clock -period " ++ P ++ str " [get_ports clk]"]
        /\ period_printed toString (div (of_Z 1000) clockFrequency) P)
  /\ (to_boolean clockFrequency = false ->
      guidance (timingAnalysis toString issue (Some clockFrequency)
                               violationType)
      = guidance (timingAnalysis toString issue None violationType))
  /\ (exists before last,
        guidance (timingAnalysis toString (str "x") (Some (of_Z 100))
                                 (Some setup))
        = before ++ [last]
        /\ commands last =
           Some [str "create_clock -period 10.000 [get_ports clk]"])
  /\ commands (period_step toString (S754_finite false 1 (-1074))) =
     Some [str "create_clock -period Infinity [get_ports clk]"]
  /\ commands (period_step toString
                 (S754_finite false 8307674973655724 (-116))) =
     Some [str "create_clock -period " ++ toString (of_Z (10 ^ 22))
           ++ str " [get_ports clk]"].
Proof.
  split; [|split; [|split; [|split]]].
  - intros T. split.
    + unfold period_step_appended, timingAnalysis; cbn [guidance].
      rewrite T. eexists; reflexivity.
    + exists (toFixed3 toString (div (of_Z 1000) clockFrequency)).
      split; [reflexivity|].
      apply toFixed3_printed, period_is_number, T.
  - intros T. unfold timingAnalysis; cbn [guidance]. rewrite T. reflexivity.
  - exists setup_steps, (period_step toString (of_Z 100)).
    split; reflexivity.
  - reflexivity.
  - reflexivity.
Qed.

Lemma period_step_rule_witness :
  (period_step_appended (fun _ => []) (str "x") (of_Z (-250)) (Some hold)
   /\ exists P,
        commands (period_step (fun _ => []) (of_Z (-250))) =
        Some [str "create_clock -period " ++ P ++ str " [get_ports clk]"]
        /\ period_printed (fun _ => []) (div (of_Z 1000) (of_Z (-250))) P)
  /\ commands (period_step (fun _ => []) (of_Z (-250))) =
     Some [str "create_clock -period -4.000 [get_ports clk]"]
  /\ three_decimals (str "4.000") 4000
  /\ guidance (timingAnalysis (fun _ => []) (str "x") (Some (of_Z 0))
                              (Some hold))
     = hold_steps.
Proof.
  split; [|split; [|split]].
  - apply (proj1 (period_step_rule (fun _ => []) (str "x") (of_Z (-250))
                    (Some hold))).
    reflexivity.
  - reflexivity.
  - exists (str "4"), (str "000"). repeat split. discriminate.
  - apply (proj1 (proj2 (period_step_rule (fun _ => []) (str "x") (of_Z 0)
                           (Some hold)))).
    reflexivity.
Defined.

(** C6, as the specification has it, fails at the frequency zero: the
    guard [if (clockFrequency)] is false there and no step is added,
    whatever [Number::toString] is. *)
Lemma zero_frequency_no_period_step :
  ~ exists toString,
      period_step_appended toString (str "x") (of_Z 0) (Some setup).
Proof.
  intros (toString & before & H).
  apply (f_equal (fun l => step (last l (period_step toString (of_Z 0)))))
    in H.
  rewrite last_last in H. vm_compute in H. discriminate.
Qed.

(** ** Clock domain crossing guidance *)

Import Cdc.

(** C9. For every description, the guidance for a single-bit crossing and
    the guidance without a signal type hold the same recommendations, the
    one two-flop synchronizer recommendation with its example, and the
    same fixed guidelines and tool recommendations. *)
Theorem single_bit_is_default (d : jsstring) :
  recommendations (detectCDCIssues d (Some single_bit))
  = recommendations (detectCDCIssues d None)
  /\ recommendations (detectCDCIssues d None) =
     [ {| scenario := str "Single-bit CDC crossing";
          solution := str "Use a two-flop synchronizer";
          verilogExample := Some two_flop_example |} ]
  /\ generalGuidelines (detectCDCIssues d (Some single_bit))
     = generalGuidelines (detectCDCIssues d None)
  /\ toolRecommendations (detectCDCIssues d (Some single_bit))
     = toolRecommendations (detectCDCIssues d None)
  /\ length (generalGuidelines (detectCDCIssues d None)) = 6
  /\ length (toolRecommendations (detectCDCIssues d None)) = 3.
Proof. repeat split. Qed.

(** ** VHDL *)

(** C10. For every source, a VHDL analysis reports only [latch_inference]
    warnings, [mixed_variable_signal] infos and [style] infos; it reports
    no error, and its summary does not mention errors. *)
Theorem vhdl_has_no_error (code : jsstring) :
  exists r,
    analyze code vhdl = Returns r
    /\ Forall (fun i =>
                 (type i = str "latch_inference" /\ severity i = warning)
                 \/ (type i = str "mixed_variable_signal"
                     /\ severity i = info)
                 \/ (type i = str "style" /\ severity i = info))
              (issues r)
    /\ count_sev error (issues r) = 0
    /\ includes (summary r) (str "error") = false.
Proof.
  unfold analyze, check_vhdl, check_style. cbv zeta. cbn [bind].
  destruct (includes code (str "process") && negb (includes code (str "else")));
    destruct (truthy (str_match re_variable code)
              && truthy (str_match re_signal code));
    destruct (0 <? length (filter (fun l => 120 <? length l)
                                  (split_on 10 code)));
    eexists; (split; [reflexivity|]); cbn [issues summary app];
    (split;
     [repeat constructor;
      first [ left; split; reflexivity
            | right; left; split; reflexivity
            | right; right; split; reflexivity ]
     | split; vm_compute; reflexivity ]).
Qed.

(** ** Character classes *)

Lemma is_word_range (x : N) :
  is_word x = true ->
  (48 <= x <= 57 \/ 65 <= x <= 90 \/ x = 95 \/ 97 <= x <= 122)%N.
Proof.
  unfold is_word; intros H.
  repeat rewrite ?orb_true_iff, ?andb_true_iff, ?N.leb_le, ?N.eqb_eq in H.
  lia.
Qed.

Lemma is_space_range (x : N) :
  is_space x = true -> (9 <= x <= 13 \/ x = 32 \/ 160 <= x)%N.
Proof.
  unfold is_space; intros H.
  repeat rewrite ?orb_true_iff, ?andb_true_iff, ?N.leb_le, ?N.eqb_eq in H.
  lia.
Qed.

Lemma word_not_space (x : N) : is_word x = true -> is_space x = false.
Proof.
  intros W. destruct (is_space x) eqn:S; [|reflexivity].
  apply is_word_range in W. apply is_space_range in S. lia.
Qed.

Lemma word_not_char (c x : N) :
  is_word c = false -> is_word x = true -> (c =? x)%N = false.
Proof.
  intros C W. apply N.eqb_neq; intros ->; congruence.
Qed.

(** ** Greedy runs *)

(** A greedy star that can take a whole run after which the rest of the
    pattern matches does so. *)
Lemma star_greedy_max A (p : N -> bool) (run : jsstring) :
  forall prev rest (k : option N -> jsstring -> option A) a,
    Forall (fun x => p x = true) run ->
    head_fails p rest ->
    k (prev_after prev run) rest = Some a ->
    star_greedy p prev (run ++ rest) k = Some a.
Proof.
  induction run as [|x run IH]; intros prev rest k a F HF K; simpl.
  - destruct rest as [|y t]; simpl; [exact K|].
    simpl in HF; rewrite HF; exact K.
  - inversion F as [|? ? Px F']; subst. rewrite Px.
    rewrite (IH (Some x) rest k a F' HF K). reflexivity.
Qed.

(** A greedy star followed by a pattern that matches after the whole run
    does not fail. *)
Lemma star_greedy_some A (p : N -> bool) (run : jsstring) :
  forall prev rest (k : option N -> jsstring -> option A),
    Forall (fun x => p x = true) run ->
    k (prev_after prev run) rest <> None ->
    star_greedy p prev (run ++ rest) k <> None.
Proof.
  induction run as [|x run IH]; intros prev rest k F K; simpl.
  - destruct rest as [|y t]; simpl; [exact K|].
    destruct (p y); [|exact K].
    destruct (star_greedy p (Some y) t k); [discriminate | exact K].
  - inversion F as [|? ? Px F']; subst. rewrite Px.
    destruct (star_greedy p (Some x) (run ++ rest) k) eqn:E;
      [discriminate|].
    exfalso; eapply IH; eassumption.
Qed.

(** ** Reading a derivation piece by piece *)

Lemma derives_seq_cons (r : regex) (l : list regex) prev s caps prev' s' caps' :
  derives (seq (r :: l)) prev s caps prev' s' caps' ->
  exists p1 s1 c1,
    derives r prev s caps p1 s1 c1 /\ derives (seq l) p1 s1 c1 prev' s' caps'.
Proof. intros D; exact D. Qed.

Lemma derives_seq_nil prev s caps prev' s' caps' :
  derives (seq []) prev s caps prev' s' caps' -> s' = s /\ caps' = caps.
Proof. intros (_ & -> & ->); auto. Qed.

Lemma derives_lit (w : jsstring) prev s caps prev' s' caps' :
  derives (Lit w) prev s caps prev' s' caps' -> s = w ++ s' /\ caps' = caps.
Proof. intros (D & ->); apply strip_app in D; auto. Qed.

Lemma derives_star (g : bool) (p : N -> bool) prev s caps prev' s' caps' :
  derives (Star g p) prev s caps prev' s' caps' ->
  exists run,
    s = run ++ s' /\ Forall (fun x => p x = true) run /\ caps' = caps.
Proof.
  intros (R & ->). apply star_rel_app in R as (run & -> & F). eauto.
Qed.

Lemma derives_plus (p : N -> bool) prev s caps prev' s' caps' :
  derives (Plus p) prev s caps prev' s' caps' ->
  exists x run,
    s = (x :: run) ++ s' /\ Forall (fun x => p x = true) (x :: run)
    /\ caps' = caps.
Proof.
  intros (p1 & s1 & c1 & (x & -> & Px & -> & ->) & D).
  apply derives_star in D as (run & -> & F & ->).
  exists x, run; auto.
Qed.

Lemma derives_opt_cls (p : N -> bool) prev s caps prev' s' caps' :
  derives (Opt (Cls p)) prev s caps prev' s' caps' ->
  exists l,
    s = l ++ s' /\ (l = [] \/ exists x, l = [x] /\ p x = true)
    /\ caps' = caps.
Proof.
  intros [(x & -> & Px & _ & ->) | (_ & -> & ->)].
  - exists [x]. split; [reflexivity|].
    split; [right; exists x; auto | reflexivity].
  - exists []; auto.
Qed.

Lemma derives_grp (r : regex) prev s caps prev' s' caps' :
  derives (Grp r) prev s caps prev' s' caps' ->
  exists m c1,
    s = m ++ s' /\ derives r prev s caps prev' s' c1 /\ caps' = c1 ++ [m].
Proof.
  intros (c1 & D & ->).
  destruct (derives_app _ _ _ _ _ _ _ D) as (m & ->).
  exists m, c1. rewrite firstn_matched. auto.
Qed.

(** ** Assignment-like expressions *)

(** A match of the assignment pattern: an identifier, white space, an
    optional [<], and [=]; group 1 is the identifier. *)
Lemma assign_shape prev s m :
  match_here re_assign prev s = Some m -> assignment_like m.
Proof.
  intros H. unfold assignment_like. apply match_here_sound in H as (prev' & s' & D & E).
  apply derives_seq_cons in D as (p1 & s1 & c1 & D1 & D).
  apply derives_grp in D1 as (W & c0 & EW & D1 & ->).
  apply derives_plus in D1 as (x & run & EW' & FW & ->).
  apply derives_seq_cons in D as (p2 & s2 & c2 & D2 & D).
  apply derives_star in D2 as (S & ES & FS & ->).
  apply derives_seq_cons in D as (p3 & s3 & c3 & D3 & D).
  apply derives_opt_cls in D3 as (L & EL & HL & ->).
  apply derives_seq_cons in D as (p4 & s4 & c4 & D4 & D).
  apply derives_lit in D4 as (EQ & ->).
  apply derives_seq_nil in D as (-> & G).
  rewrite EW in EW'. apply app_inv_tail in EW'. subst W.
  exists (x :: run), S, L.
  split; [|split; [exact G|]].
  - rewrite EW, ES, EL, EQ in E. rewrite !app_assoc in E.
    apply app_inv_tail in E. rewrite <- E, <- !app_assoc. reflexivity.
  - split; [discriminate|]. split; [exact FW|]. split; [exact FS|].
    destruct HL as [->|(y & -> & Py)]; [left; reflexivity|].
    right. apply N.eqb_eq in Py; subst; reflexivity.
Qed.

Lemma assign_op_fails_on_word (x : N) prev t :
  is_word x = true -> match_here re_assign_op prev (x :: t) = None.
Proof.
  intros W. unfold match_here, re_assign_op.
  cbn [rmatch seq fold_right ws_star star_greedy].
  rewrite (word_not_space x W).
  cbn [rmatch strip str map list_ascii_of_string].
  rewrite (word_not_char 60 x eq_refl W).
  change (N_of_ascii "=") with 61%N.
  rewrite (word_not_char 61 x eq_refl W). reflexivity.
Qed.

Lemma assign_op_matches (S L rest : jsstring) prev :
  Forall (fun x => is_space x = true) S ->
  L = [] \/ L = str "<" ->
  exists m,
    match_here re_assign_op prev (S ++ L ++ str "=" ++ rest) = Some m
    /\ m_text m <> [].
Proof.
  intros FS HL.
  remember (S ++ L ++ str "=" ++ rest) as s0 eqn:Hs0.
  destruct (match_here re_assign_op prev s0) as [m|] eqn:E.
  - exists m; split; [reflexivity|]. clear Hs0.
    apply match_here_sound in E as (prev' & s' & D & E).
    apply derives_seq_cons in D as (p1 & s1 & c1 & D1 & D).
    apply derives_star in D1 as (S1 & E1 & _ & _).
    apply derives_seq_cons in D as (p2 & s2 & c2 & D2 & D).
    apply derives_opt_cls in D2 as (L2 & E2 & _ & _).
    apply derives_seq_cons in D as (p3 & s3 & c3 & D3 & D).
    apply derives_lit in D3 as (E3 & _).
    apply derives_seq_nil in D as (-> & _).
    intros T. rewrite T in E; simpl in E.
    rewrite E1, E2, E3 in E.
    apply (f_equal (@length N)) in E.
    rewrite !length_app in E; simpl in E; lia.
  - exfalso. subst s0. revert E. unfold match_here, re_assign_op.
    cbn [rmatch seq fold_right ws_star].
    apply star_greedy_some; [exact FS|].
    destruct HL as [->| ->]; simpl; discriminate.
Qed.

Lemma split_assignment (W : jsstring) :
  forall prev cur S L,
    Forall (fun x => is_word x = true) W ->
    Forall (fun x => is_space x = true) S ->
    L = [] \/ L = str "<" ->
    exists pieces,
      split_go re_assign_op prev (W ++ S ++ L ++ str "=") 0 cur
      = (cur ++ W) :: pieces.
Proof.
  induction W as [|x W IH]; intros prev cur S L FW FS HL.
  - rewrite app_nil_r. simpl app at 1.
    destruct (assign_op_matches S L [] prev FS HL) as (m & E & T).
    rewrite app_nil_r in E.
    destruct (S ++ L ++ str "=") as [|y t] eqn:Y.
    + destruct S, L; discriminate.
    + cbn [split_go]. rewrite E.
      destruct (length (m_text m)) as [|n] eqn:Len.
      * destruct (m_text m); [congruence | discriminate].
      * eexists; reflexivity.
  - inversion FW as [|? ? Wx FW']; subst.
    simpl app. cbn [split_go].
    rewrite (assign_op_fails_on_word x prev _ Wx).
    destruct (IH (Some x) (cur ++ [x]) S L FW' FS HL) as (pieces & ->).
    rewrite <- app_assoc. eexists; reflexivity.
Qed.

Lemma drop_space_word (W : jsstring) :
  head_fails is_space W -> drop_space W = W.
Proof. destruct W as [|x W]; simpl; [reflexivity | intros ->; reflexivity]. Qed.

Lemma trim_word (W : jsstring) :
  Forall (fun x => is_word x = true) W -> trim W = W.
Proof.
  intros F. unfold trim.
  assert (H : forall V, Forall (fun x => is_word x = true) V ->
                        head_fails is_space V).
  { intros [|x V] FV; simpl; [exact I|].
    inversion FV; subst; apply word_not_space; assumption. }
  rewrite (drop_space_word W (H W F)).
  rewrite (drop_space_word (rev W)); [apply rev_involutive|].
  apply H. apply Forall_rev; exact F.
Qed.

(** [a.split(/\s*[<]?=/)[0].trim()] is the identifier of the match [a]. *)
Lemma assigned_signal_group prev s m :
  match_here re_assign prev s = Some m ->
  assigned_signal (m_text m) = Returns (nth 0 (m_groups m) []).
Proof.
  intros H. apply assign_shape in H as (W & S & L & -> & -> & NE & FW & FS & HL).
  unfold assigned_signal, split.
  destruct W as [|x W]; [congruence|].
  change ((x :: W) ++ S ++ L ++ str "=")
    with (x :: (W ++ S ++ L ++ str "=")).
  change (x :: (W ++ S ++ L ++ str "="))
    with ((x :: W) ++ S ++ L ++ str "=") at 2.
  destruct (split_assignment (x :: W) None [] S L FW FS HL) as (pieces & ->).
  simpl app. rewrite trim_word; [reflexivity | exact FW].
Qed.

(** ** Counting the assignments *)

Lemma count_assignments_tally (ms : list Match) :
  forall acc,
    (forall m, In m ms -> exists prev s, match_here re_assign prev s = Some m) ->
    count_assignments (map m_text ms) acc
    = Returns (tally (map (fun m => nth 0 (m_groups m) []) ms) acc).
Proof.
  induction ms as [|m ms IH]; intros acc H; simpl; [reflexivity|].
  destruct (H m (or_introl eq_refl)) as (prev & s & E).
  rewrite (assigned_signal_group _ _ _ E); simpl.
  apply IH. intros m' I; apply H; right; exact I.
Qed.

Lemma first_occurrences_snoc (l : list jsstring) (x : jsstring) :
  first_occurrences (l ++ [x])
  = if in_dec str_eq_dec x (first_occurrences l)
    then first_occurrences l else first_occurrences l ++ [x].
Proof. unfold first_occurrences; rewrite fold_left_app; reflexivity. Qed.

Lemma first_occurrences_In (l : list jsstring) (x : jsstring) :
  In x (first_occurrences l) <-> In x l.
Proof.
  induction l as [|y l IH] using rev_ind; [reflexivity|].
  rewrite first_occurrences_snoc, in_app_iff.
  destruct (in_dec str_eq_dec y (first_occurrences l)) as [I|NI].
  - rewrite IH. split; [auto|]. intros [H|[<-|[]]]; [exact H|].
    apply IH; exact I.
  - rewrite in_app_iff, IH. reflexivity.
Qed.

Lemma first_occurrences_NoDup (l : list jsstring) :
  NoDup (first_occurrences l).
Proof.
  induction l as [|y l IH] using rev_ind; [constructor|].
  rewrite first_occurrences_snoc.
  destruct (in_dec str_eq_dec y (first_occurrences l)) as [I|NI];
    [exact IH|].
  apply NoDup_app; [exact IH | repeat constructor; intros [] |].
  intros a Ha [<-|[]]; contradiction.
Qed.

Lemma map_get_tabulate (g : jsstring -> nat) (keys : list jsstring)
  (x : jsstring) :
  map_get (tabulate g keys) x
  = if in_dec str_eq_dec x keys then Some (g x) else None.
Proof.
  induction keys as [|k keys IH]; simpl; [reflexivity|].
  destruct (streq k x) eqn:E.
  - apply streq_eq in E; subst k.
    destruct (str_eq_dec x x); [|congruence].
    destruct (in_dec str_eq_dec x keys); reflexivity.
  - apply streq_neq in E. rewrite IH.
    destruct (str_eq_dec k x); [contradiction|].
    destruct (in_dec str_eq_dec x keys); reflexivity.
Qed.

Lemma map_set_tabulate_new (g : jsstring -> nat) (keys : list jsstring)
  (x : jsstring) (v : nat) :
  ~ In x keys -> map_set (tabulate g keys) x v = tabulate g keys ++ [(x, v)].
Proof.
  induction keys as [|k keys IH]; intros NI; simpl; [reflexivity|].
  destruct (streq k x) eqn:E.
  - apply streq_eq in E; subst k. exfalso; apply NI; left; reflexivity.
  - rewrite IH; [reflexivity|]. intros I; apply NI; right; exact I.
Qed.

Lemma map_set_tabulate_old (g g' : jsstring -> nat) (keys : list jsstring)
  (x : jsstring) :
  NoDup keys -> In x keys ->
  (forall k, k <> x -> g' k = g k) ->
  map_set (tabulate g keys) x (g' x) = tabulate g' keys.
Proof.
  intros ND I Hg. induction keys as [|k keys IH]; [contradiction|].
  inversion ND as [|? ? NI ND']; subst. simpl.
  destruct (streq k x) eqn:E.
  - apply streq_eq in E; subst k. f_equal.
    apply map_ext_in. intros k Hk. rewrite Hg; [reflexivity|].
    intros ->; contradiction.
  - apply streq_neq in E. rewrite (Hg k E). f_equal.
    destruct I as [->|I]; [congruence|]. apply IH; assumption.
Qed.

Lemma tally_counts (l : list jsstring) :
  tally l []
  = tabulate (count_occ str_eq_dec l) (first_occurrences l).
Proof.
  induction l as [|x l IH] using rev_ind; [reflexivity|].
  unfold tally in *. rewrite fold_left_app; simpl. rewrite IH.
  rewrite first_occurrences_snoc, map_get_tabulate.
  assert (Other : forall k, k <> x ->
            count_occ str_eq_dec (l ++ [x]) k = count_occ str_eq_dec l k).
  { intros k Hk. rewrite count_occ_app; simpl.
    destruct (str_eq_dec x k); [congruence | lia]. }
  assert (Same : count_occ str_eq_dec (l ++ [x]) x
                 = count_occ str_eq_dec l x + 1).
  { rewrite count_occ_app; simpl.
    destruct (str_eq_dec x x); [reflexivity | congruence]. }
  destruct (in_dec str_eq_dec x (first_occurrences l)) as [I|NI]; simpl.
  - rewrite <- Same.
    apply map_set_tabulate_old;
      [apply first_occurrences_NoDup | exact I | exact Other].
  - rewrite map_set_tabulate_new by exact NI.
    unfold tabulate. rewrite map_app; simpl. rewrite Same.
    assert (Z : count_occ str_eq_dec l x = 0).
    { apply count_occ_not_In. rewrite <- first_occurrences_In; exact NI. }
    rewrite Z. f_equal.
    apply map_ext_in. intros k Hk. rewrite Other; [reflexivity|].
    intros ->; contradiction.
Qed.

Lemma report_multiple_tabulate (g : jsstring -> nat) (keys : list jsstring) :
  report_multiple (tabulate g keys)
  = map multiple_issue (filter (fun k => 1 <? g k) keys).
Proof.
  unfold report_multiple.
  induction keys as [|k keys IH]; simpl; [reflexivity|].
  rewrite IH. destruct (1 <? g k); reflexivity.
Qed.

Lemma repeated_In (l : list jsstring) (x : jsstring) :
  In x (repeated l) <-> 1 < count_occ str_eq_dec l x.
Proof.
  unfold repeated. rewrite filter_In, first_occurrences_In, Nat.ltb_lt.
  split; [tauto|]. intros H; split; [|exact H].
  apply (count_occ_In str_eq_dec); lia.
Qed.

Lemma check_multiple_repeated (code : jsstring) :
  check_multiple code
  = Returns (map multiple_issue (repeated (assignment_targets code))).
Proof.
  unfold check_multiple, match_all, assignment_targets.
  pose proof (scan_sound re_assign code None 0) as Sound.
  destruct (scan re_assign None code 0) as [|m ms]; [reflexivity|].
  rewrite count_assignments_tally by exact Sound.
  cbn [bind]. rewrite tally_counts, report_multiple_tabulate. reflexivity.
Qed.

(** ** Running a pattern on a text of its own shape *)

Lemma strip_same (w : jsstring) :
  forall prev rest, strip w prev (w ++ rest) = Some (prev_after prev w, rest).
Proof.
  induction w as [|x w IH]; intros prev rest; simpl; [reflexivity|].
  rewrite N.eqb_refl. apply IH.
Qed.

Lemma rmatch_lit A (w rest : jsstring) prev caps (k : cont A) a :
  k (prev_after prev w) rest caps = Some a ->
  rmatch (Lit w) prev (w ++ rest) caps k = Some a.
Proof. intros K; simpl; rewrite strip_same; exact K. Qed.

Lemma rmatch_star_max A (p : N -> bool) (run rest : jsstring) prev caps
  (k : cont A) a :
  Forall (fun x => p x = true) run ->
  head_fails p rest ->
  k (prev_after prev run) rest caps = Some a ->
  rmatch (Star true p) prev (run ++ rest) caps k = Some a.
Proof.
  intros F HF K; simpl.
  apply star_greedy_max with (k := fun prev' s' => k prev' s' caps);
    assumption.
Qed.

Lemma rmatch_plus_max A (p : N -> bool) (x : N) (run rest : jsstring) prev
  caps (k : cont A) a :
  Forall (fun x => p x = true) (x :: run) ->
  head_fails p rest ->
  k (prev_after prev (x :: run)) rest caps = Some a ->
  rmatch (Plus p) prev ((x :: run) ++ rest) caps k = Some a.
Proof.
  intros F HF K. inversion F as [|? ? Px F']; subst.
  unfold Plus. cbn [rmatch app]. rewrite Px.
  apply star_greedy_max with (k := fun prev' s' => k prev' s' caps);
    assumption.
Qed.

Lemma rmatch_group_plus_max A (p : N -> bool) (x : N) (run rest : jsstring)
  prev caps (k : cont A) a :
  Forall (fun x => p x = true) (x :: run) ->
  head_fails p rest ->
  k (prev_after prev (x :: run)) rest (caps ++ [x :: run]) = Some a ->
  rmatch (Grp (Plus p)) prev ((x :: run) ++ rest) caps k = Some a.
Proof.
  intros F HF K. cbn [rmatch].
  apply rmatch_plus_max; [exact F | exact HF |].
  rewrite firstn_matched. exact K.
Qed.

Lemma rmatch_seq_cons A (r : regex) (l : list regex) prev s caps (k : cont A) :
  rmatch (seq (r :: l)) prev s caps k
  = rmatch r prev s caps
      (fun prev' s' caps' => rmatch (seq l) prev' s' caps' k).
Proof. reflexivity. Qed.

Lemma rmatch_seq_nil A prev s caps (k : cont A) :
  rmatch (seq []) prev s caps k = k prev s caps.
Proof. reflexivity. Qed.

(** ** Every assignment-like expression is a token *)

Lemma space_not_word (x : N) : is_space x = true -> is_word x = false.
Proof.
  intros S. destruct (is_word x) eqn:W; [|reflexivity].
  apply word_not_space in W. congruence.
Qed.

(** What follows the identifier of an expression is no word character. *)
Lemma assignment_tail_not_word (S L rest : jsstring) :
  Forall (fun x => is_space x = true) S ->
  L = [] \/ L = str "<" ->
  head_fails is_word (S ++ L ++ str "=" ++ rest)
  /\ Forall (fun x => is_word x = false) (S ++ L ++ str "=").
Proof.
  intros FS HL. split.
  - destruct S as [|x S]; [destruct HL as [->| ->]; reflexivity|].
    inversion FS; subst. simpl. apply space_not_word; assumption.
  - apply Forall_app. split.
    + revert FS. apply Forall_impl. exact space_not_word.
    + destruct HL as [->| ->]; repeat constructor.
Qed.

Lemma assign_match_at (W S L rest : jsstring) prev :
  W <> [] -> Forall (fun x => is_word x = true) W ->
  Forall (fun x => is_space x = true) S ->
  L = [] \/ L = str "<" ->
  match_here re_assign prev (W ++ S ++ L ++ str "=" ++ rest)
  = Some {| m_text := W ++ S ++ L ++ str "="; m_groups := [W] |}.
Proof.
  intros NW FW FS HL. destruct W as [|w W]; [congruence|].
  unfold match_here, re_assign.
  rewrite rmatch_seq_cons. unfold word_plus.
  apply rmatch_group_plus_max;
    [exact FW | apply assignment_tail_not_word; assumption |].
  rewrite rmatch_seq_cons. unfold ws_star.
  apply rmatch_star_max; [exact FS | |].
  { destruct HL as [->| ->]; reflexivity. }
  rewrite rmatch_seq_cons.
  assert (T : firstn (length ((w :: W) ++ S ++ L ++ str "=" ++ rest)
                    - length rest)
             ((w :: W) ++ S ++ L ++ str "=" ++ rest)
            = (w :: W) ++ S ++ L ++ str "=").
  { replace ((w :: W) ++ S ++ L ++ str "=" ++ rest)
      with (((w :: W) ++ S ++ L ++ str "=") ++ rest)
      by (rewrite <- !app_assoc; reflexivity).
    apply firstn_matched. }
  destruct HL as [->| ->].
  - cbn [rmatch app]. change (str "=" ++ rest) with (61%N :: rest).
    cbn [N.eqb Pos.eqb]. rewrite rmatch_seq_cons.
    change (61%N :: rest) with (str "=" ++ rest).
    apply rmatch_lit. rewrite rmatch_seq_nil. do 2 f_equal. exact T.
  - cbn [rmatch app]. change (str "<" ++ str "=" ++ rest)
      with (60%N :: str "=" ++ rest).
    cbn [N.eqb Pos.eqb]. rewrite rmatch_seq_cons.
    rewrite (rmatch_lit _ (str "=") rest _ _ _
               {| m_text := (w :: W) ++ S ++ str "<" ++ str "=";
                  m_groups := [] ++ [w :: W] |}).
    + reflexivity.
    + rewrite rmatch_seq_nil. do 2 f_equal. exact T.
Qed.

Lemma assignment_starts_match (s : jsstring) prev :
  assignment_starts s -> match_here re_assign prev s <> None.
Proof.
  intros (W & t & rest & (S & L & -> & NW & FW & FS & HL) & ->).
  rewrite <- !app_assoc.
  rewrite (assign_match_at W S L rest prev NW FW FS HL). discriminate.
Qed.

Lemma assign_match_expr prev s m :
  match_here re_assign prev s = Some m ->
  exists x tail rest,
    m_text m = x :: tail /\ s = m_text m ++ rest
    /\ assignment_expr (nth 0 (m_groups m) []) (m_text m).
Proof.
  intros H. pose proof (assign_shape _ _ _ H) as (W & S & L & T & G & NW & R).
  apply match_here_sound in H as (prev' & rest & _ & E).
  destruct W as [|w W]; [congruence|].
  exists w, (W ++ S ++ L ++ str "="), rest.
  split; [rewrite T; reflexivity|]. split; [exact E|].
  rewrite G. simpl nth. exists S, L. rewrite T. tauto.
Qed.

Lemma scan_skip (r : regex) (t : jsstring) :
  forall prev rest,
    scan r prev (t ++ rest) (length t) = scan r (prev_after prev t) rest 0.
Proof.
  induction t as [|x t IH]; intros prev rest; [reflexivity|].
  simpl. apply IH.
Qed.

Lemma tokenized_cons (x : N) (s : jsstring) (targets : list jsstring) :
  ~ assignment_starts (x :: s) ->
  tokenized s targets -> tokenized (x :: s) targets.
Proof.
  intros N T. destruct T as [s F | gap W t rest targets F A T].
  - apply tokenized_end. intros pre s' E.
    destruct pre as [|y pre]; simpl in E.
    + subst s'. exact N.
    + injection E as _ E. exact (F _ _ E).
  - change (x :: gap ++ t ++ rest) with ((x :: gap) ++ t ++ rest).
    apply tokenized_next; [|exact A | exact T].
    intros pre s' E Ns'. destruct pre as [|y pre]; simpl in E.
    + subst s'. exact N.
    + injection E as _ E. exact (F _ _ E Ns').
Qed.

(** The global search for the assignment pattern reads the expressions
    from left to right. *)
Lemma scan_tokenized (n : nat) :
  forall s prev,
    length s <= n ->
    tokenized s (map (fun m => nth 0 (m_groups m) [])
                     (scan re_assign prev s 0)).
Proof.
  induction n as [|n IH]; intros s prev Ls.
  - destruct s; [|simpl in Ls; lia].
    cbn [scan]. destruct (match_here re_assign prev []) as [m|] eqn:E.
    + apply assign_match_expr in E as (x & tail & rest & T & E & _).
      rewrite T in E. discriminate.
    + apply tokenized_end. intros pre s' E'.
      destruct pre; [|discriminate]. simpl in E'. subst s'.
      intros A. exact (assignment_starts_match [] prev A E).
  - destruct s as [|c s].
    { apply IH. simpl; lia. }
    cbn [scan]. destruct (match_here re_assign prev (c :: s)) as [m|] eqn:E.
    + pose proof (assign_match_expr _ _ _ E) as (x & tail & rest & T & Es & A).
      rewrite T in Es. simpl in Es. injection Es as <- ->.
      rewrite T. replace (length (c :: tail) - 1) with (length tail)
        by (simpl; lia).
      rewrite scan_skip. cbn [map].
      change (c :: tail ++ rest) with ([] ++ (c :: tail) ++ rest).
      apply tokenized_next.
      * intros pre s' E' Ns'. destruct pre; [|discriminate].
        simpl in E'. congruence.
      * rewrite <- T. exact A.
      * apply IH. simpl in Ls. rewrite length_app in Ls. lia.
    + apply tokenized_cons.
      * intros A. exact (assignment_starts_match _ prev A E).
      * apply IH. simpl in Ls. lia.
Qed.

(** Where a run of word characters ends is settled by the text. *)
Lemma word_run_unique (W : jsstring) :
  forall W' a b,
    Forall (fun x => is_word x = true) W ->
    Forall (fun x => is_word x = true) W' ->
    head_fails is_word a -> head_fails is_word b ->
    W ++ a = W' ++ b -> W = W'.
Proof.
  induction W as [|x W IH]; intros W' a b F F' Ha Hb E.
  - destruct W' as [|y W']; [reflexivity|].
    simpl in E. subst a. inversion F'; subst. simpl in Ha. congruence.
  - destruct W' as [|y W'].
    + simpl in E. subst b. inversion F; subst. simpl in Hb. congruence.
    + simpl in E. injection E as -> E.
      inversion F; inversion F'; subst.
      f_equal. exact (IH W' a b H2 H6 Ha Hb E).
Qed.

Lemma assignment_expr_target (W W' t t' post rest : jsstring) :
  assignment_expr W t -> assignment_expr W' t' ->
  t ++ post = t' ++ rest -> W = W'.
Proof.
  intros (S & L & -> & _ & FW & FS & HL) (S' & L' & -> & _ & FW' & FS' & HL') E.
  rewrite <- !app_assoc in E.
  apply (word_run_unique W W' _ _ FW FW') in E; [exact E| |];
    apply assignment_tail_not_word; assumption.
Qed.

(** An expression whose identifier does not continue a word is one of
    those read. *)
Lemma tokenized_finds (s : jsstring) (targets : list jsstring) :
  tokenized s targets ->
  forall pre W t post,
    s = pre ++ t ++ post ->
    assignment_expr W t ->
    (forall pre' c, pre = pre' ++ [c] -> is_word c = false) ->
    In W targets.
Proof.
  induction 1 as [s F | gap W' t' rest targets F A T IH];
    intros pre W t post E X B.
  - exfalso. apply (F pre (t ++ post) E). exists W, t, post. auto.
  - apply app_eq_app in E as (l & [(E1 & E2) | (E1 & E2)]).
    + (* the expression starts in the gap, or where the token starts *)
      destruct l as [|c l].
      * simpl in E2. left. symmetry.
        exact (assignment_expr_target _ _ _ _ _ _ X A E2).
      * exfalso. apply (F pre (c :: l) E1); [discriminate|].
        rewrite <- E2. exists W, t, post. auto.
    + destruct l as [|c l].
      * simpl in E2. left. symmetry.
        exact (assignment_expr_target _ _ _ _ _ _ X A (eq_sym E2)).
      * apply app_eq_app in E2 as (l2 & [(E3 & E4) | (E3 & E4)]).
        -- (* the expression starts inside the token, or at its end *)
           destruct l2 as [|d l2].
           { right. simpl in E4.
             apply (IH [] W t post); [symmetry; exact E4 | exact X |].
             intros pre' c' El2. destruct pre'; discriminate. }
           exfalso.
           destruct X as (S & L & -> & NW & FW & _).
           destruct W as [|w W]; [congruence|].
           simpl in E4. injection E4 as <- _.
           pose proof (Forall_inv FW) as Pw. cbv beta in Pw.
           destruct A as (S' & L' & Et' & _ & FW' & FS' & HL').
           rewrite Et' in E3.
           apply app_eq_app in E3 as (l3 & [(E5 & E6) | (E5 & E6)]).
           ++ (* the character before it belongs to the identifier *)
              destruct (exists_last (l := c :: l) ltac:(discriminate))
                as (l' & z & El).
              assert (Pz : is_word z = true).
              { rewrite E5, El in FW'.
                apply Forall_app in FW' as (FW' & _).
                apply Forall_app in FW' as (_ & FW').
                inversion FW'; assumption. }
              rewrite (B (gap ++ l') z) in Pz; [discriminate|].
              rewrite E1, El, app_assoc. reflexivity.
           ++ (* its first character stands after the identifier *)
              destruct (assignment_tail_not_word S' L' [] FS' HL')
                as (_ & NT).
              rewrite E6 in NT. apply Forall_app in NT as (_ & NT).
              inversion NT; subst. congruence.
        -- (* the expression starts after the token *)
           right. apply (IH l2 W t post E4 X).
           intros pre' c' El2. apply (B (gap ++ t' ++ pre') c').
           rewrite E1, E3, El2, <- !app_assoc. reflexivity.
Qed.

(** C8. For every Verilog source, the targets that the code counts are
    those of the assignment-like expressions of the source (an identifier,
    optional white space, an optional [<], and [=], wherever they stand in
    the file) read from left to right, each expression being the first one
    that starts after the end of the one before; so every such expression
    whose identifier is a whole word is counted, whatever the pattern
    finds being such an expression.  The issues of kind
    [multiple_assignments] are, in the order of first assignment, one
    error for each identifier that is the target of more than one of the
    expressions, with the identifier in the message. *)
Theorem multiple_assignments_rule (code : jsstring) :
  exists r,
    analyze code verilog = Returns r
    /\ Forall assignment_like (scan re_assign None code 0)
    /\ tokenized code (assignment_targets code)
    /\ (forall pre W t post,
          code = pre ++ t ++ post ->
          assignment_expr W t ->
          (forall pre' c, pre = pre' ++ [c] -> is_word c = false) ->
          In W (assignment_targets code))
    /\ of_kind "multiple_assignments" (issues r)
       = map multiple_issue (repeated (assignment_targets code))
    /\ NoDup (repeated (assignment_targets code))
    /\ (forall signal,
          In signal (repeated (assignment_targets code))
          <-> 1 < count_occ str_eq_dec (assignment_targets code) signal)
    /\ (forall signal,
          severity (multiple_issue signal) = error
          /\ message (multiple_issue signal)
             = str "Signal '" ++ signal ++ str "' assigned multiple times").
Proof.
  destruct (verilog_of_kind "multiple_assignments" code)
    as (r & sens & multi & E & _ & Em & K).
  decide_kinds K. rewrite check_multiple_repeated in Em.
  injection Em as <-.
  assert (T : tokenized code (assignment_targets code))
    by (apply (scan_tokenized (length code)); lia).
  exists r. split; [exact E|].
  split; [|split; [exact T|split; [|split; [exact K|split]]]].
  - apply Forall_forall. intros m I.
    apply scan_sound in I as (prev & s & I).
    exact (assign_shape _ _ _ I).
  - intros pre W t post Ec X B. exact (tokenized_finds _ _ T _ _ _ _ Ec X B).
  - apply NoDup_filter, first_occurrences_NoDup.
  - split; [apply repeated_In|]. intros signal; split; reflexivity.
Qed.

Lemma multiple_assignments_rule_witness :
  exists r,
    analyze (str "a = 1; b <= 2; a = 3;") verilog = Returns r
    /\ In (str "a") (assignment_targets (str "a = 1; b <= 2; a = 3;"))
    /\ of_kind "multiple_assignments" (issues r)
       = [multiple_issue (str "a")].
Proof.
  destruct (multiple_assignments_rule (str "a = 1; b <= 2; a = 3;"))
    as (r & E & _ & _ & Found & K & _).
  exists r. split; [exact E|]. split.
  - apply (Found (str "a = 1; b <= 2; ") (str "a") (str "a =") (str " 3;")).
    + reflexivity.
    + exists (str " "), []. repeat split; try discriminate.
      * repeat constructor.
      * repeat constructor.
      * left; reflexivity.
    + intros pre' c Ep.
      change (str "a = 1; b <= 2; ") with (str "a = 1; b <= 2;" ++ [32%N])
        in Ep.
      apply app_inj_tail in Ep as (_ & <-). reflexivity.
  - rewrite K. vm_compute. reflexivity.
Defined.

(** ** Clock headers *)

Lemma clock_shape prev s m :
  match_here re_clock prev s = Some m -> posedge_header m.
Proof.
  intros H. unfold posedge_header. apply match_here_sound in H as (prev' & s' & D & E).
  apply derives_seq_cons in D as (p1 & s1 & c1 & D1 & D).
  apply derives_lit in D1 as (E1 & ->).
  apply derives_seq_cons in D as (p2 & s2 & c2 & D2 & D).
  apply derives_star in D2 as (S & E2 & FS & ->).
  apply derives_seq_cons in D as (p3 & s3 & c3 & D3 & D).
  apply derives_lit in D3 as (E3 & ->).
  apply derives_seq_cons in D as (p4 & s4 & c4 & D4 & D).
  apply derives_plus in D4 as (y & S' & E4 & FS' & ->).
  apply derives_seq_cons in D as (p5 & s5 & c5 & D5 & D).
  apply derives_grp in D5 as (W & c0 & EW & D5 & ->).
  apply derives_plus in D5 as (x & run & EW' & FW & ->).
  apply derives_seq_cons in D as (p6 & s6 & c6 & D6 & D).
  apply derives_lit in D6 as (E6 & ->).
  apply derives_seq_nil in D as (-> & G).
  rewrite EW in EW'. apply app_inv_tail in EW'. subst W.
  exists S, (y :: S'), (x :: run).
  split; [|split; [exact G|]].
  - rewrite E1, E2, E3, E4, EW, E6 in E. unfold clock_text.
    rewrite !app_assoc in E. apply app_inv_tail in E.
    rewrite <- E, <- !app_assoc. reflexivity.
  - repeat split; try assumption; discriminate.
Qed.

Lemma word_head_not_space (W rest : jsstring) :
  W <> [] -> Forall (fun x => is_word x = true) W ->
  head_fails is_space (W ++ rest).
Proof.
  intros NE F. destruct W as [|x W]; [congruence|]. simpl.
  inversion F; subst. apply word_not_space; assumption.
Qed.

(** The clock pattern matches a text of its shape, whatever follows. *)
Lemma clock_match_at (S S' W post : jsstring) prev :
  Forall (fun x => is_space x = true) S ->
  S' <> [] -> Forall (fun x => is_space x = true) S' ->
  W <> [] -> Forall (fun x => is_word x = true) W ->
  match_here re_clock prev (clock_text S S' W ++ post)
  = Some {| m_text := clock_text S S' W; m_groups := [W] |}.
Proof.
  intros FS NS' FS' NW FW.
  destruct S' as [|y S']; [congruence|]. destruct W as [|x W]; [congruence|].
  unfold match_here, re_clock, clock_text. rewrite <- !app_assoc.
  rewrite rmatch_seq_cons. apply rmatch_lit. cbv beta.
  rewrite rmatch_seq_cons. apply rmatch_star_max; [exact FS | reflexivity|].
  cbv beta.
  rewrite rmatch_seq_cons. apply rmatch_lit. cbv beta.
  rewrite rmatch_seq_cons.
  apply rmatch_plus_max;
    [exact FS' | apply (word_head_not_space (x :: W)); assumption|].
  cbv beta.
  rewrite rmatch_seq_cons.
  apply rmatch_group_plus_max; [exact FW | reflexivity|].
  cbv beta.
  rewrite rmatch_seq_cons. apply rmatch_lit. cbv beta.
  rewrite rmatch_seq_nil. f_equal. f_equal.
  rewrite !app_assoc. rewrite firstn_matched. reflexivity.
Qed.

Lemma posedge_fails (x : N) prev t :
  x <> 112%N -> match_here re_posedge prev (x :: t) = None.
Proof.
  intros NE. unfold match_here, re_posedge.
  cbn [rmatch seq fold_right strip str map list_ascii_of_string].
  change (N_of_ascii "p") with 112%N.
  destruct (N.eqb_spec 112 x); [congruence | reflexivity].
Qed.

Lemma search_posedge_skip (pre : jsstring) :
  forall prev rest,
    Forall (fun x => x <> 112%N) pre ->
    rest <> [] ->
    search re_posedge prev (pre ++ rest)
    = search re_posedge (prev_after prev pre) rest.
Proof.
  induction pre as [|x pre IH]; intros prev rest F NE; [reflexivity|].
  inversion F as [|? ? Hx F']; subst.
  simpl app. cbn [search]. rewrite (posedge_fails x prev _ Hx).
  apply IH; assumption.
Qed.

Lemma space_not_p (S : jsstring) :
  Forall (fun x => is_space x = true) S -> Forall (fun x => x <> 112%N) S.
Proof.
  apply Forall_impl. intros x Hx ->. vm_compute in Hx; discriminate.
Qed.

(** [h.match(/posedge\s+(\w+)/)?.[1]] on a clock header is its signal. *)
Lemma clock_of_header (S S' W : jsstring) :
  Forall (fun x => is_space x = true) S ->
  S' <> [] -> Forall (fun x => is_space x = true) S' ->
  W <> [] -> Forall (fun x => is_word x = true) W ->
  clock_of (clock_text S S' W) = Some W.
Proof.
  intros FS NS' FS' NW FW. unfold clock_of, str_match, clock_text.
  change (str "(posedge") with (str "(" ++ str "posedge").
  rewrite <- !app_assoc.
  rewrite (app_assoc (str "@") S), (app_assoc (str "@" ++ S) (str "(")).
  rewrite search_posedge_skip.
  - destruct S' as [|y S']; [congruence|].
    destruct W as [|x W]; [congruence|].
    assert (M : forall prev,
               match_here re_posedge prev
                 (str "posedge" ++ (y :: S') ++ (x :: W) ++ str ")")
               = Some {| m_text := str "posedge" ++ (y :: S') ++ (x :: W);
                         m_groups := [x :: W] |}).
    { intros prev. unfold match_here, re_posedge.
      rewrite rmatch_seq_cons. apply rmatch_lit. cbv beta.
      rewrite rmatch_seq_cons.
      apply rmatch_plus_max;
        [exact FS' | apply (word_head_not_space (x :: W)); assumption|].
      cbv beta.
      rewrite rmatch_seq_cons.
      apply rmatch_group_plus_max; [exact FW | reflexivity|].
      cbv beta.
      rewrite rmatch_seq_nil. f_equal. f_equal.
      rewrite !app_assoc. rewrite firstn_matched. reflexivity. }
    destruct (str "posedge" ++ (y :: S') ++ (x :: W) ++ str ")") eqn:T;
      [discriminate|].
    cbn [search]. rewrite M. reflexivity.
  - apply Forall_app; split; [apply Forall_app; split|].
    + repeat constructor; discriminate.
    + apply space_not_p; exact FS.
    + repeat constructor; discriminate.
  - destruct S'; discriminate.
Qed.

Lemma clock_text_at (S S' W : jsstring) :
  Forall (fun x => is_space x = true) S ->
  Forall (fun x => is_space x = true) S' ->
  Forall (fun x => is_word x = true) W ->
  exists tail, clock_text S S' W = 64%N :: tail /\ ~ In 64%N tail.
Proof.
  intros FS FS' FW. unfold clock_text.
  exists (S ++ str "(posedge" ++ S' ++ W ++ str ")"). split; [reflexivity|].
  assert (NS : forall V, Forall (fun x => is_space x = true) V -> ~ In 64%N V).
  { intros V FV I. rewrite Forall_forall in FV. apply FV in I.
    vm_compute in I; discriminate. }
  assert (NW : forall V, Forall (fun x => is_word x = true) V -> ~ In 64%N V).
  { intros V FV I. rewrite Forall_forall in FV. apply FV in I.
    vm_compute in I; discriminate. }
  rewrite !in_app_iff. intros [I|[I|[I|[I|I]]]].
  - exact (NS S FS I).
  - vm_compute in I. intuition discriminate.
  - exact (NS S' FS' I).
  - exact (NW W FW I).
  - vm_compute in I. intuition discriminate.
Qed.

(** A clock header in the source is among the matches of the global
    search: a match has no [@] but its first character, so that the search
    never steps over the [@] of a header. *)
Lemma scan_finds_clock (X post : jsstring) (mX : Match) :
  (exists X', X = 64%N :: X') ->
  (forall prev, match_here re_clock prev (X ++ post) = Some mX) ->
  forall pre prev skip,
    Forall (fun x => x <> 64%N) (firstn skip (pre ++ X ++ post)) ->
    In mX (scan re_clock prev (pre ++ X ++ post) skip).
Proof.
  intros (X' & ->) HX. induction pre as [|c pre IH]; intros prev skip F.
  - simpl app in *. destruct skip as [|n].
    + cbn [scan]. rewrite (HX prev). left; reflexivity.
    + simpl in F. inversion F; congruence.
  - simpl app in *. destruct skip as [|n].
    + cbn [scan].
      destruct (match_here re_clock prev (c :: pre ++ 64%N :: X' ++ post))
        as [m|] eqn:E.
      * right. apply IH.
        destruct (match_here_sound _ _ _ _ E) as (prev' & s' & _ & T).
        apply clock_shape in E as (S & S' & W & Tm & _ & FS & _ & FS' & _ & FW).
        destruct (clock_text_at S S' W FS FS' FW) as (tail & Tt & NI).
        rewrite Tm, Tt in T |- *. simpl in T. injection T as _ T.
        rewrite T.
        replace (length (64%N :: tail) - 1) with (length tail)
          by (simpl; lia).
        rewrite firstn_app, Nat.sub_diag, firstn_all; simpl.
        rewrite app_nil_r. apply Forall_forall. intros x Hx ->. contradiction.
      * apply IH. constructor.
    + cbn [scan]. apply IH. simpl in F. inversion F; assumption.
Qed.

Lemma includes_scan_clock (code W : jsstring) :
  W <> [] -> Forall (fun x => is_word x = true) W ->
  includes code (str "@(posedge " ++ W ++ str ")") = true ->
  In W (posedge_signals code).
Proof.
  intros NW FW H. apply includes_app in H as (pre & post & ->).
  unfold posedge_signals.
  change (str "@(posedge " ++ W ++ str ")") with (clock_text [] [32%N] W).
  apply (in_map (fun m => nth 0 (m_groups m) [])
           _ {| m_text := clock_text [] [32%N] W; m_groups := [W] |}).
  apply scan_finds_clock.
  - exists ([] ++ str "(posedge" ++ [32%N] ++ W ++ str ")"); reflexivity.
  - intros prev.
    apply clock_match_at; try assumption; try discriminate;
      repeat constructor.
  - constructor.
Qed.

Lemma includes_longer (s a p b : jsstring) :
  includes s (a ++ p ++ b) = true -> includes s p = true.
Proof.
  intros H. apply includes_app in H as (x & y & ->).
  apply includes_app. exists (x ++ a), (b ++ y).
  rewrite <- !app_assoc. reflexivity.
Qed.

(** ** Distinct clocks *)

Lemma distinct_In (l : list (option jsstring)) (x : option jsstring) :
  In x (distinct l) <-> In x l.
Proof.
  induction l as [|y l IH]; simpl; [reflexivity|].
  rewrite filter_In, IH. split.
  - intros [E|[I _]]; auto.
  - intros [E|I]; [auto|].
    destruct (opt_streq y x) eqn:O; [|auto].
    left. destruct y, x; simpl in O; try discriminate; [|reflexivity].
    apply streq_eq in O; congruence.
Qed.

Lemma opt_streq_some (a b : jsstring) :
  opt_streq (Some a) (Some b) = true <-> a = b.
Proof. simpl; apply streq_eq. Qed.

Lemma distinct_two (l : list jsstring) :
  1 < length (distinct (map Some l)) <-> two_distinct l.
Proof.
  destruct l as [|x l]; cbn [map distinct length].
  - split; [lia | intros (a & b & [] & _)].
  - remember (filter (fun y => negb (opt_streq (Some x) y))
                     (distinct (map Some l))) as others eqn:Ho.
    assert (Others : forall c, In (Some c) others <-> In c l /\ c <> x).
    { intros c. rewrite Ho, filter_In, distinct_In, in_map_iff.
      split.
      - intros ((b & Eb & Ib) & N). injection Eb as ->. split; [exact Ib|].
        intros ->. rewrite (proj2 (opt_streq_some x x) eq_refl) in N.
        discriminate.
      - intros (Ic & Nc). split; [exists c; auto|].
        destruct (opt_streq (Some x) (Some c)) eqn:O; [|reflexivity].
        apply opt_streq_some in O; congruence. }
    split.
    + intros H. destruct others as [|y t]; [simpl in H; lia|].
      assert (Iy : In y (filter (fun y => negb (opt_streq (Some x) y))
                                (distinct (map Some l))))
        by (rewrite <- Ho; left; reflexivity).
      apply filter_In in Iy as (Iy & _).
      apply (proj1 (distinct_In _ _)) in Iy.
      apply in_map_iff in Iy as (b & <- & _).
      destruct (proj1 (Others b) (or_introl eq_refl)) as (Ib & Nb).
      exists x, b. split; [left; reflexivity|]. split; [right; exact Ib|].
      congruence.
    + intros (a & b & Ia & Ib & NE).
      assert (C : exists c, In c l /\ c <> x).
      { destruct Ia as [<-|Ia], Ib as [<-|Ib].
        - congruence.
        - exists b; split; [exact Ib | congruence].
        - exists a; split; [exact Ia | congruence].
        - destruct (str_eq_dec a x) as [->|Na].
          + exists b; split; [exact Ib | congruence].
          + exists a; split; [exact Ia | exact Na]. }
      destruct C as (c & Ic).
      apply Others in Ic. destruct others; [contradiction | simpl; lia].
Qed.

Lemma distinct_length (l : list (option jsstring)) :
  length (distinct l) <= length l.
Proof.
  induction l as [|x l IH]; simpl; [lia|].
  pose proof (filter_length_le (fun y => negb (opt_streq x y)) (distinct l)).
  lia.
Qed.

Lemma clocks_of_scan (code : jsstring) :
  map (fun h => clock_of (m_text h)) (scan re_clock None code 0)
  = map Some (posedge_signals code).
Proof.
  unfold posedge_signals. rewrite map_map. apply map_ext_in.
  intros m I. apply scan_sound in I as (prev & s & E).
  apply clock_shape in E as (S & S' & W & -> & -> & FS & NS' & FS' & NW & FW).
  simpl nth. apply clock_of_header; assumption.
Qed.

Lemma check_cdc_distinct (code : jsstring) :
  check_cdc code
  = if 1 <? length (distinct (map Some (posedge_signals code)))
    then [cdc_issue] else [].
Proof.
  unfold check_cdc, match_all. rewrite <- clocks_of_scan.
  destruct (scan re_clock None code 0) as [|m ms] eqn:E; [reflexivity|].
  cbv zeta.
  destruct (1 <? length (m :: ms)) eqn:L; [reflexivity|].
  apply Nat.ltb_ge in L.
  pose proof (distinct_length (map (fun h => clock_of (m_text h)) (m :: ms)))
    as D.
  rewrite length_map in D.
  destruct (Nat.ltb_spec 1 (length (distinct
             (map (fun h => clock_of (m_text h)) (m :: ms)))));
    [lia | reflexivity].
Qed.

Lemma header_signal (code : jsstring) (W : jsstring) :
  W <> [] -> Forall (fun x => is_word x = true) W ->
  includes code (str "always @(posedge " ++ W ++ str ")") = true ->
  In W (posedge_signals code).
Proof.
  intros NW FW H. apply includes_scan_clock; [exact NW | exact FW |].
  apply (includes_longer code (str "always ")
           (str "@(posedge " ++ W ++ str ")") []).
  rewrite app_nil_r. exact H.
Qed.

(** C7. For every Verilog source, the matches of the clock pattern are
    headers [@(posedge <signal>)]; the analysis reports the
    [clock_domain_crossing] warning, whose message names no signal,
    exactly when the signals of these headers are not all the same, and it
    reports it once.  A source that contains [always @(posedge clk1)] and
    [always @(posedge clk2)] gets exactly one such warning, whatever else
    it contains. *)
Theorem clock_domain_crossing_rule (code : jsstring) :
  exists r,
    analyze code verilog = Returns r
    /\ Forall posedge_header (scan re_clock None code 0)
    /\ (two_distinct (posedge_signals code) ->
        of_kind "clock_domain_crossing" (issues r) = [cdc_issue])
    /\ (~ two_distinct (posedge_signals code) ->
        of_kind "clock_domain_crossing" (issues r) = [])
    /\ length (of_kind "clock_domain_crossing" (issues r)) <= 1
    /\ severity cdc_issue = warning
    /\ message cdc_issue
       = str "Multiple clock domains detected - potential CDC issues"
    /\ (includes code (str "always @(posedge clk1)") = true ->
        includes code (str "always @(posedge clk2)") = true ->
        of_kind "clock_domain_crossing" (issues r) = [cdc_issue]).
Proof.
  destruct (verilog_of_kind "clock_domain_crossing" code)
    as (r & sens & multi & E & _ & _ & K).
  decide_kinds K. rewrite check_cdc_distinct in K.
  assert (Two : two_distinct (posedge_signals code) ->
                of_kind "clock_domain_crossing" (issues r) = [cdc_issue]).
  { intros T. apply distinct_two in T. apply Nat.ltb_lt in T.
    rewrite T in K. exact K. }
  exists r. split; [exact E|]. split; [|split; [exact Two|split; [|split]]].
  - apply Forall_forall. intros m I.
    apply scan_sound in I as (prev & s & I).
    exact (clock_shape _ _ _ I).
  - intros NT. rewrite K.
    destruct (Nat.ltb_spec 1
                (length (distinct (map Some (posedge_signals code)))))
      as [L|L]; [|reflexivity].
    apply distinct_two in L; contradiction.
  - rewrite K. destruct (1 <? _); simpl; lia.
  - split; [reflexivity|]. split; [reflexivity|].
    intros H1 H2. apply Two.
    exists (str "clk1"), (str "clk2").
    split; [|split; [|discriminate]].
    + apply header_signal; [discriminate | repeat constructor | exact H1].
    + apply header_signal; [discriminate | repeat constructor | exact H2].
Qed.

Lemma clock_domain_crossing_rule_witness :
  (exists r,
     analyze two_clocks verilog = Returns r
     /\ of_kind "clock_domain_crossing" (issues r) = [cdc_issue])
  /\ (exists r,
        analyze two_clocks verilog = Returns r
        /\ of_kind "clock_domain_crossing" (issues r) = [cdc_issue])
  /\ (exists r,
        analyze one_clock verilog = Returns r
        /\ of_kind "clock_domain_crossing" (issues r) = []).
Proof.
  split; [|split].
  - destruct (clock_domain_crossing_rule two_clocks)
      as (r & E & _ & _ & _ & _ & _ & _ & P).
    exists r. split; [exact E|]. apply P; reflexivity.
  - destruct (clock_domain_crossing_rule two_clocks)
      as (r & E & _ & P & _).
    exists r. split; [exact E|]. apply P.
    exists (str "clk1"), (str "clk2").
    split; [vm_compute; left; reflexivity|].
    split; [vm_compute; right; left; reflexivity | discriminate].
  - destruct (clock_domain_crossing_rule one_clock)
      as (r & E & _ & _ & P & _).
    exists r. split; [exact E|]. apply P.
    intros (a & b & Ia & Ib & NE).
    vm_compute in Ia, Ib.
    destruct Ia as [<-|[<-|[]]]; destruct Ib as [<-|[<-|[]]]; congruence.
Defined.

(** * Further properties of the tools *)

(** ** Where the search finds a match *)

Lemma search_sound_at (r : regex) (s : jsstring) :
  forall prev m,
    search r prev s = Some m ->
    exists pre prev0 s0, s = pre ++ s0 /\ match_here r prev0 s0 = Some m.
Proof.
  induction s as [|x t IH]; intros prev m H; simpl in H;
    destruct (match_here r prev _) as [m0|] eqn:E; try discriminate.
  - injection H as <-. exists [], prev, []; auto.
  - injection H as <-. exists [], prev, (x :: t); auto.
  - apply IH in H as (pre & prev0 & s0 & -> & H).
    exists (x :: pre), prev0, s0; auto.
Qed.

Lemma search_complete (r : regex) (s0 : jsstring) :
  (forall prev0, match_here r prev0 s0 <> None) ->
  forall pre prev, search r prev (pre ++ s0) <> None.
Proof.
  intros H pre. induction pre as [|x pre IH]; intros prev.
  - simpl app. specialize (H prev).
    destruct s0 as [|y t]; simpl;
      destruct (match_here r prev _); congruence.
  - simpl app. cbn [search].
    destruct (match_here r prev (x :: pre ++ s0)); [discriminate | apply IH].
Qed.

Lemma scan_sound_at (r : regex) (s : jsstring) :
  forall prev skip m,
    In m (scan r prev s skip) ->
    exists pre prev0 s0, s = pre ++ s0 /\ match_here r prev0 s0 = Some m.
Proof.
  induction s as [|x t IH]; intros prev [|n] m H; simpl in H;
    try contradiction.
  - destruct (match_here r prev []) as [m0|] eqn:E; [|contradiction].
    destruct H as [<-|[]]. exists [], prev, []; auto.
  - destruct (match_here r prev (x :: t)) as [m0|] eqn:E.
    + destruct H as [<-|H]; [exists [], prev, (x :: t); auto|].
      apply IH in H as (pre & prev0 & s0 & -> & H).
      exists (x :: pre), prev0, s0; auto.
    + apply IH in H as (pre & prev0 & s0 & -> & H).
      exists (x :: pre), prev0, s0; auto.
  - apply IH in H as (pre & prev0 & s0 & -> & H).
    exists (x :: pre), prev0, s0; auto.
Qed.

Lemma truthy_some A (o : option A) : truthy o = true <-> o <> None.
Proof. destruct o; simpl; split; congruence. Qed.

Lemma rmatch_alt_left A (r1 r2 : regex) prev s caps (k : cont A) a :
  rmatch r1 prev s caps k = Some a ->
  rmatch (Alt r1 r2) prev s caps k = Some a.
Proof. intros H; simpl; rewrite H; reflexivity. Qed.

Lemma rmatch_alt_right A (r1 r2 : regex) prev s caps (k : cont A) :
  rmatch r2 prev s caps k <> None ->
  rmatch (Alt r1 r2) prev s caps k <> None.
Proof.
  intros H; simpl. destruct (rmatch r1 prev s caps k); [discriminate|exact H].
Qed.

(** ** The pattern of the blocking-assignment rule *)

Lemma alwaysFF_found (code : jsstring) :
  truthy (str_match re_alwaysFF code) = true
  <-> ff_header code \/ includes code (str "negedge") = true.
Proof.
  rewrite truthy_some. split.
  - intros H. destruct (str_match re_alwaysFF code) as [m|] eqn:E;
      [clear H | congruence].
    apply search_sound_at in E as (pre & prev0 & s0 & -> & E).
    apply match_here_sound in E as (prev' & s' & [D|D] & _).
    + left.
      apply derives_seq_cons in D as (p1 & s1 & c1 & D1 & D).
      apply derives_lit in D1 as (E1 & _).
      apply derives_seq_cons in D as (p2 & s2 & c2 & D2 & D).
      apply derives_star in D2 as (S1 & E2 & F1 & _).
      apply derives_seq_cons in D as (p3 & s3 & c3 & D3 & D).
      apply derives_lit in D3 as (E3 & _).
      apply derives_seq_cons in D as (p4 & s4 & c4 & D4 & D).
      apply derives_star in D4 as (S2 & E4 & F2 & _).
      apply derives_seq_cons in D as (p5 & s5 & c5 & D5 & D).
      apply derives_lit in D5 as (E5 & _).
      apply derives_seq_cons in D as (p6 & s6 & c6 & D6 & D).
      apply derives_star in D6 as (S3 & E6 & F3 & _).
      apply derives_seq_cons in D as (p7 & s7 & c7 & D7 & D).
      apply derives_lit in D7 as (E7 & _).
      exists pre, S1, S2, S3, s7. subst. auto.
    + right. apply derives_lit in D as (-> & _). apply includes_app; eauto.
  - intros [(pre & S1 & S2 & S3 & post & -> & F1 & F2 & F3) | H].
    + apply search_complete. intros prev0.
      assert (M : exists m,
                 match_here re_alwaysFF prev0
                   (str "always" ++ S1 ++ str "@" ++ S2 ++ str "(" ++ S3
                    ++ str "posedge" ++ post) = Some m).
      { unfold match_here, re_alwaysFF. eexists.
        apply rmatch_alt_left.
        rewrite rmatch_seq_cons. apply rmatch_lit. cbv beta.
        rewrite rmatch_seq_cons.
        apply rmatch_star_max; [exact F1 | reflexivity|]. cbv beta.
        rewrite rmatch_seq_cons. apply rmatch_lit. cbv beta.
        rewrite rmatch_seq_cons.
        apply rmatch_star_max; [exact F2 | reflexivity|]. cbv beta.
        rewrite rmatch_seq_cons. apply rmatch_lit. cbv beta.
        rewrite rmatch_seq_cons.
        apply rmatch_star_max; [exact F3 | reflexivity|]. cbv beta.
        rewrite rmatch_seq_cons. apply rmatch_lit. cbv beta.
        rewrite rmatch_seq_nil. reflexivity. }
      destruct M as (m & ->). discriminate.
    + apply includes_app in H as (pre & post & ->).
      apply search_complete. intros prev0.
      unfold match_here, re_alwaysFF. apply rmatch_alt_right.
      cbn [rmatch]. rewrite strip_same. discriminate.
Qed.

(** X1. For every Verilog source: when it holds the header
    [always @(posedge] (white space allowed between the four parts) or the
    letters [negedge] anywhere, holds an [=] and holds no [<=], the
    analysis reports exactly one [blocking_in_sequential] error; a source
    that holds a [<=] anywhere, that holds no [=], or that holds neither
    the header nor [negedge] gets none. *)
Theorem blocking_rule (code : jsstring) :
  exists r,
    analyze code verilog = Returns r
    /\ (ff_header code \/ includes code (str "negedge") = true ->
        includes code (str "=") = true ->
        includes code (str "<=") = false ->
        of_kind "blocking_in_sequential" (issues r) = [blocking_issue])
    /\ (includes code (str "<=") = true ->
        of_kind "blocking_in_sequential" (issues r) = [])
    /\ (includes code (str "=") = false ->
        of_kind "blocking_in_sequential" (issues r) = [])
    /\ (~ ff_header code -> includes code (str "negedge") = false ->
        of_kind "blocking_in_sequential" (issues r) = []).
Proof.
  destruct (verilog_of_kind "blocking_in_sequential" code)
    as (r & sens & multi & E & _ & _ & K).
  decide_kinds K. unfold check_blocking in K; cbv zeta in K.
  exists r. split; [exact E|]. rewrite K. clear K E.
  split; [|split; [|split]].
  - intros H He Hn. apply alwaysFF_found in H. rewrite H, He, Hn.
    reflexivity.
  - intros Hn. rewrite Hn, andb_false_r. reflexivity.
  - intros He. rewrite He, andb_false_r. reflexivity.
  - intros NH Hn.
    destruct (truthy (str_match re_alwaysFF code)) eqn:T; [|reflexivity].
    apply alwaysFF_found in T as [T|T]; [contradiction | congruence].
Qed.

Lemma blocking_rule_witness :
  (exists r,
     analyze (str "always  @ ( posedge clk) q = d;") verilog = Returns r
     /\ of_kind "blocking_in_sequential" (issues r) = [blocking_issue])
  /\ (exists r,
        analyze (str "always @(posedge clk) begin q = d; r <= q; end")
                verilog = Returns r
        /\ of_kind "blocking_in_sequential" (issues r) = [])
  /\ (exists r,
        analyze (str "always @(posedge clk) q;") verilog = Returns r
        /\ of_kind "blocking_in_sequential" (issues r) = [])
  /\ (exists r,
        analyze (str "assign y = a;") verilog = Returns r
        /\ of_kind "blocking_in_sequential" (issues r) = []).
Proof.
  split; [|split; [|split]].
  - destruct (blocking_rule (str "always  @ ( posedge clk) q = d;"))
      as (r & E & P & _).
    exists r; split; [exact E|]. apply P; [|reflexivity|reflexivity].
    left. exists [], (str "  "), (str " "), (str " "), (str " clk) q = d;").
    split; [reflexivity|]. repeat split; repeat constructor.
  - destruct (blocking_rule
                (str "always @(posedge clk) begin q = d; r <= q; end"))
      as (r & E & _ & P & _).
    exists r; split; [exact E|]. apply P; reflexivity.
  - destruct (blocking_rule (str "always @(posedge clk) q;"))
      as (r & E & _ & _ & P & _).
    exists r; split; [exact E|]. apply P; reflexivity.
  - destruct (blocking_rule (str "assign y = a;"))
      as (r & E & _ & _ & _ & P).
    exists r; split; [exact E|]. apply P; [|reflexivity].
    intros H. apply (or_introl (B := includes (str "assign y = a;")
                                         (str "negedge") = true)) in H.
    apply alwaysFF_found in H. vm_compute in H. discriminate.
Defined.

(** ** Words between white space (the VHDL declarations) *)

Lemma rmatch_plus_total A (p : N -> bool) (x : N) (t : jsstring) prev caps
  (k : cont A) :
  p x = true ->
  (forall pr s', k pr s' caps <> None) ->
  rmatch (Plus p) prev (x :: t) caps k <> None.
Proof.
  intros Px K. unfold Plus. cbn [rmatch]. rewrite Px.
  apply (star_greedy_some A p [] (Some x) t (fun pr s' => k pr s' caps));
    [constructor | apply K].
Qed.

Lemma spaced_found (w code : jsstring) :
  w <> [] -> head_fails is_space w ->
  truthy (str_match (seq [ws_plus; Lit w; ws_plus]) code) = true
  <-> spaced_word code w.
Proof.
  intros Nw Hw. rewrite truthy_some. split.
  - intros H.
    destruct (str_match (seq [ws_plus; Lit w; ws_plus]) code) as [m|] eqn:E;
      [clear H | congruence].
    apply search_sound_at in E as (pre & prev0 & s0 & -> & E).
    apply match_here_sound in E as (prev' & s' & D & _).
    apply derives_seq_cons in D as (p1 & s1 & c1 & D1 & D).
    apply derives_plus in D1 as (x & run & E1 & F1 & _).
    apply derives_seq_cons in D as (p2 & s2 & c2 & D2 & D).
    apply derives_lit in D2 as (E2 & _).
    apply derives_seq_cons in D as (p3 & s3 & c3 & D3 & D).
    apply derives_plus in D3 as (y & run' & E3 & F3 & _).
    destruct (exists_last (l := x :: run)) as (init & a & Ea);
      [discriminate|].
    assert (Sa : is_space a = true).
    { rewrite Forall_forall in F1. apply F1. rewrite Ea.
      apply in_or_app; right; left; reflexivity. }
    assert (Sy : is_space y = true) by (inversion F3; assumption).
    exists (pre ++ init), a, y, (run' ++ s3).
    split; [|split; assumption].
    rewrite E1, Ea, E2, E3. rewrite <- !app_assoc. reflexivity.
  - intros (pre & a & b & post & -> & Sa & Sb).
    apply search_complete. intros prev0.
    unfold match_here.
    set (kf := fun (_ : option N) (s' : jsstring) (caps : list jsstring) =>
                 Some {| m_text :=
                           firstn (length ([a] ++ w ++ [b] ++ post)
                                   - length s')
                                  ([a] ++ w ++ [b] ++ post);
                         m_groups := caps |}).
    destruct (rmatch (seq [ws_plus]) (prev_after (Some a) w) (b :: post) []
                kf) as [m|] eqn:Last.
    + assert (M : rmatch (seq [ws_plus; Lit w; ws_plus]) prev0
                    ([a] ++ w ++ [b] ++ post) [] kf = Some m);
        [|rewrite M; discriminate].
      rewrite rmatch_seq_cons.
      apply (rmatch_plus_max _ is_space a [] (w ++ [b] ++ post));
        [repeat constructor; exact Sa | |].
      * destruct w; [congruence | exact Hw].
      * cbv beta. rewrite rmatch_seq_cons. apply rmatch_lit. exact Last.
    + exfalso. revert Last. rewrite rmatch_seq_cons.
      apply rmatch_plus_total; [exact Sb|].
      intros pr s'. rewrite rmatch_seq_nil. discriminate.
Qed.

(** X2. For every source, a VHDL analysis reports the
    [mixed_variable_signal] info exactly when the word [variable] and the
    word [signal] each stand somewhere between two white-space characters;
    it reports it once.  A declaration at the very start or end of the
    text is not seen. *)
Theorem mixed_rule (code : jsstring) :
  exists r,
    analyze code vhdl = Returns r
    /\ (spaced_word code (str "variable") ->
        spaced_word code (str "signal") ->
        of_kind "mixed_variable_signal" (issues r) = [mixed_issue])
    /\ (~ spaced_word code (str "variable") ->
        of_kind "mixed_variable_signal" (issues r) = [])
    /\ (~ spaced_word code (str "signal") ->
        of_kind "mixed_variable_signal" (issues r) = []).
Proof.
  eexists; split; [reflexivity|]. cbn [issues].
  assert (K : of_kind "mixed_variable_signal" (check_vhdl code ++ check_style code)
              = if truthy (str_match re_variable code)
                   && truthy (str_match re_signal code)
                then [mixed_issue] else []).
  { rewrite of_kind_app.
    rewrite (of_kind_rule "mixed_variable_signal" "style" _
               (check_style_kind code)).
    unfold check_vhdl. cbv zeta. rewrite of_kind_app.
    destruct (includes code (str "process") && _);
      destruct (truthy (str_match re_variable code)
                && truthy (str_match re_signal code)); reflexivity. }
  rewrite K. clear K.
  assert (V := spaced_found (str "variable") code).
  specialize (V ltac:(discriminate) eq_refl).
  assert (G := spaced_found (str "signal") code).
  specialize (G ltac:(discriminate) eq_refl).
  change (seq [ws_plus; Lit (str "variable"); ws_plus]) with re_variable in V.
  change (seq [ws_plus; Lit (str "signal"); ws_plus]) with re_signal in G.
  split; [|split].
  - intros Hv Hs. apply V in Hv. apply G in Hs. rewrite Hv, Hs. reflexivity.
  - intros Hv. destruct (truthy (str_match re_variable code));
      [exfalso; apply Hv, V; reflexivity | reflexivity].
  - intros Hs. destruct (truthy (str_match re_signal code));
      [exfalso; apply Hs, G; reflexivity | rewrite andb_false_r; reflexivity].
Qed.


Lemma mixed_rule_witness :
  (exists r,
     analyze (str "process
  variable v : bit;
  signal s : bit;") vhdl = Returns r
     /\ of_kind "mixed_variable_signal" (issues r) = [mixed_issue])
  /\ (exists r,
        analyze (str "variable v : bit; signal s : bit;") vhdl = Returns r
        /\ of_kind "mixed_variable_signal" (issues r) = [])
  /\ (exists r,
        analyze (str " variable v : bit; signal") vhdl = Returns r
        /\ of_kind "mixed_variable_signal" (issues r) = []).
Proof.
  split; [|split].
  - destruct (mixed_rule (str "process
  variable v : bit;
  signal s : bit;")) as (r & E & P & _).
    exists r; split; [exact E|]. apply P.
    + exists (str "process
 "), 32%N, 32%N, (str "v : bit;
  signal s : bit;"). repeat split.
    + exists (str "process
  variable v : bit;
 "), 32%N, 32%N, (str "s : bit;"). repeat split.
  - destruct (mixed_rule (str "variable v : bit; signal s : bit;"))
      as (r & E & _ & P & _).
    exists r; split; [exact E|]. apply P. intros H.
    apply (spaced_found (str "variable")) in H;
      [vm_compute in H | | reflexivity]; discriminate.
  - destruct (mixed_rule (str " variable v : bit; signal"))
      as (r & E & _ & _ & P).
    exists r; split; [exact E|]. apply P. intros H.
    apply (spaced_found (str "signal")) in H;
      [vm_compute in H | | reflexivity]; discriminate.
Defined.

(** ** Missing case default *)

(** X3. A Verilog source that holds [case] and nowhere [default] gets
    exactly one [no_case_default] warning, which carries no line; a source
    that holds [default] anywhere, or that does not hold [case], gets
    none. *)
Theorem case_default_rule (code : jsstring) :
  exists r,
    analyze code verilog = Returns r
    /\ (includes code (str "case") = true ->
        includes code (str "default") = false ->
        of_kind "no_case_default" (issues r) = [case_issue])
    /\ (includes code (str "default") = true ->
        of_kind "no_case_default" (issues r) = [])
    /\ (includes code (str "case") = false ->
        of_kind "no_case_default" (issues r) = [])
    /\ severity case_issue = warning
    /\ line case_issue = None.
Proof.
  destruct (verilog_of_kind "no_case_default" code)
    as (r & sens & multi & E & _ & _ & K).
  decide_kinds K. unfold check_case in K.
  exists r. split; [exact E|]. rewrite K.
  split; [|split; [|split; [|split; reflexivity]]].
  - intros Hc Hd. rewrite Hc, Hd. reflexivity.
  - intros Hd. rewrite Hd, andb_false_r. reflexivity.
  - intros Hc. rewrite Hc. reflexivity.
Qed.

Lemma case_default_rule_witness :
  (exists r,
     analyze (str "case (s) 0: y = a; endcase") verilog = Returns r
     /\ of_kind "no_case_default" (issues r) = [case_issue])
  /\ (exists r,
        analyze (str "case (s) 0: y = a; default: y = b; endcase") verilog
        = Returns r
        /\ of_kind "no_case_default" (issues r) = [])
  /\ (exists r,
        analyze (str "assign y = a;") verilog = Returns r
        /\ of_kind "no_case_default" (issues r) = []).
Proof.
  split; [|split].
  - destruct (case_default_rule (str "case (s) 0: y = a; endcase"))
      as (r & E & P & _).
    exists r; split; [exact E | apply P; reflexivity].
  - destruct (case_default_rule
                (str "case (s) 0: y = a; default: y = b; endcase"))
      as (r & E & _ & P & _).
    exists r; split; [exact E | apply P; reflexivity].
  - destruct (case_default_rule (str "assign y = a;"))
      as (r & E & _ & _ & P & _).
    exists r; split; [exact E | apply P; reflexivity].
Defined.

(** ** How many issues *)

Lemma check_sensitivity_cases (code : jsstring) :
  check_sensitivity code = Returns []
  \/ exists m sl missing,
       str_match re_always code = Some m
       /\ m_groups m = [sl]
       /\ includes sl (str "posedge") = false
       /\ includes sl (str "negedge") = false
       /\ missing = filter (fun s => negb (arr_includes (split re_listsep sl) s))
                           (extractSignals code)
       /\ missing <> []
       /\ check_sensitivity code = Returns [sensitivity_issue missing].
Proof.
  unfold check_sensitivity.
  destruct (str_match re_always code) as [m|] eqn:E; [|left; reflexivity].
  destruct (always_groups _ _ E) as (g & G). rewrite G. simpl nth_error.
  cbv beta iota zeta.
  destruct (includes g (str "posedge")) eqn:P; [left; reflexivity|].
  destruct (includes g (str "negedge")) eqn:Q; [left; reflexivity|].
  cbn [negb andb].
  destruct (filter _ (extractSignals code)) as [|x t] eqn:F;
    [left; reflexivity|].
  right. exists m, g, (x :: t). rewrite F.
  repeat split; try reflexivity; try assumption; discriminate.
Qed.

Lemma check_latch_short (code : jsstring) : length (check_latch code) <= 1.
Proof. unfold check_latch; destruct (_ && _); simpl; lia. Qed.

Lemma check_blocking_short (code : jsstring) :
  length (check_blocking code) <= 1.
Proof. unfold check_blocking; cbv zeta; destruct (_ && _); simpl; lia. Qed.

Lemma check_case_short (code : jsstring) : length (check_case code) <= 1.
Proof. unfold check_case; destruct (_ && _); simpl; lia. Qed.

Lemma check_cdc_short (code : jsstring) : length (check_cdc code) <= 1.
Proof. rewrite check_cdc_distinct; destruct (1 <? _); simpl; lia. Qed.

Lemma check_style_short (code : jsstring) : length (check_style code) <= 1.
Proof.
  unfold check_style; cbv zeta; destruct (0 <? length _); simpl; lia.
Qed.

Lemma check_sensitivity_short (code : jsstring) (sens : list Issue) :
  check_sensitivity code = Returns sens -> length sens <= 1.
Proof.
  intros E.
  destruct (check_sensitivity_cases code)
    as [H | (m & sl & missing & _ & _ & _ & _ & _ & _ & H)];
    rewrite H in E; injection E as <-; simpl; lia.
Qed.

Lemma check_vhdl_short (code : jsstring) : length (check_vhdl code) <= 2.
Proof.
  unfold check_vhdl; cbv zeta.
  destruct (includes code (str "process") && _);
    destruct (truthy (str_match re_variable code) && _); simpl; lia.
Qed.

Lemma check_vhdl_parts (code : jsstring) :
  exists latch mixed,
    check_vhdl code = latch ++ mixed
    /\ Forall (fun i => type i = str "latch_inference") latch
    /\ Forall (fun i => type i = str "mixed_variable_signal") mixed
    /\ length latch <= 1 /\ length mixed <= 1.
Proof.
  unfold check_vhdl; cbv zeta. eexists; eexists. split; [reflexivity|].
  destruct (includes code (str "process") && _);
    destruct (truthy (str_match re_variable code) && _);
    repeat split; repeat constructor.
Qed.

(** Among conditionals on the kind, at most one is taken. *)
Ltac one_kind kind :=
  repeat match goal with
         | |- context [streq (str ?a) (str kind)] =>
             let B := fresh "B" in
             destruct (streq (str a) (str kind)) eqn:B;
             [ apply streq_eq in B; try rewrite <- B;
               repeat match goal with
                      | |- context [streq (str ?x) (str ?y)] =>
                          let v := eval vm_compute in (streq (str x) (str y)) in
                          change (streq (str x) (str y)) with v
                      end;
               cbv iota; cbn [app]; rewrite ?app_nil_r; assumption
             | ]
         end;
  simpl; lia.

(** X4. But for [multiple_assignments], no kind of issue is reported
    twice in one analysis, in either language; a VHDL analysis reports at
    most three issues, a Verilog analysis at most six and one for each
    identifier assigned more than once. *)
Theorem issues_per_kind (code : jsstring) (language : Language)
  (kind : string) :
  exists r,
    analyze code language = Returns r
    /\ (str kind <> str "multiple_assignments" ->
        length (of_kind kind (issues r)) <= 1)
    /\ totalIssues r
       <= match language with
          | vhdl => 3
          | verilog => 6 + length (repeated (assignment_targets code))
          end.
Proof.
  destruct language.
  - destruct (verilog_of_kind kind code)
      as (r & sens & multi & E & Es & Em & K).
    exists r. split; [exact E|].
    pose proof (check_latch_short code) as L1.
    pose proof (check_blocking_short code) as L2.
    pose proof (check_sensitivity_short code sens Es) as L3.
    pose proof (check_case_short code) as L4.
    pose proof (check_cdc_short code) as L6.
    pose proof (check_style_short code) as L7.
    split.
    + intros NM. rewrite K. clear K.
      destruct (streq (str "multiple_assignments") (str kind)) eqn:B5;
        [apply streq_eq in B5; congruence|].
      one_kind kind.
    + destruct (analyze_verilog_parts code)
        as (sens' & multi' & Es' & Em' & _ & _ & E').
      rewrite Es in Es'; injection Es' as <-.
      rewrite Em in Em'; injection Em' as <-.
      cbv zeta in E'. rewrite E in E'. injection E' as ->.
      cbn [totalIssues]. rewrite check_multiple_repeated in Em.
      injection Em as <-.
      rewrite !length_app, length_map. lia.
  - eexists; split; [reflexivity|]. cbn [issues totalIssues].
    destruct (check_vhdl_parts code) as (latch & mixed & -> & F1 & F2 & L1 & L2).
    pose proof (check_style_short code) as L3.
    split; [|rewrite !length_app; lia].
    intros _. rewrite !of_kind_app.
    rewrite (of_kind_rule kind _ _ F1), (of_kind_rule kind _ _ F2),
      (of_kind_rule kind _ _ (check_style_kind code)).
    one_kind kind.
Qed.

Lemma issues_per_kind_witness :
  exists r,
    analyze example_block verilog = Returns r
    /\ length (of_kind "incomplete_sensitivity" (issues r)) <= 1.
Proof.
  destruct (issues_per_kind example_block verilog "incomplete_sensitivity")
    as (r & E & P & _).
  exists r; split; [exact E|]. apply P. discriminate.
Defined.

(** ** The signal extractor *)









(** ** The lines of a text *)

(** The first line is the text up to the first separator; every other
    line stands after a separator; every line ends at a separator or at
    the end of the text, and holds no separator. *)
Lemma split_on_lines (c : N) (s : jsstring) :
  exists l0 ls,
    split_on c s = l0 :: ls
    /\ (exists b, s = l0 ++ b /\ head_fails (fun x => negb (x =? c)%N) b
                  /\ ~ In c l0)
    /\ forall line,
         In line ls ->
         exists a b, s = (a ++ [c]) ++ line ++ b
                     /\ head_fails (fun x => negb (x =? c)%N) b
                     /\ ~ In c line.
Proof.
  induction s as [|x t (l0 & ls & E & (b0 & E0 & H0 & N0) & T)]; simpl.
  - exists [], []. split; [reflexivity|]. split.
    + exists []; repeat split; auto.
    + intros line [].
  - destruct (N.eqb_spec x c) as [->|NE].
    + exists [], (split_on c t). split; [reflexivity|]. split.
      * exists (c :: t). split; [reflexivity|]. split; [|auto].
        simpl. rewrite N.eqb_refl; reflexivity.
      * intros line I. rewrite E in I. destruct I as [<-|I].
        -- exists [], b0. rewrite E0. repeat split; auto.
        -- destruct (T line I) as (a & b & Et & Hb & Nl).
           exists (c :: a), b. rewrite Et. repeat split; auto.
    + rewrite E. exists (x :: l0), ls. split; [reflexivity|]. split.
      * exists b0. rewrite E0. split; [reflexivity|]. split; [exact H0|].
        intros [I|I]; [congruence | contradiction].
      * intros line I. destruct (T line I) as (a & b & Et & Hb & Nl).
        exists (x :: a), b. rewrite Et. repeat split; auto.
Qed.




Lemma prev_after_nonempty (a : jsstring) (q q' : option N) :
  a <> [] -> prev_after q a = prev_after q' a.
Proof. destruct a as [|x a]; [congruence | reflexivity]. Qed.



(** ** What the signal extractor returns *)















Lemma in_tl A (l : list A) (x : A) : In x (tl l) -> In x l.
Proof. destruct l; simpl; auto. Qed.



(** ** The sensitivity list *)






(** ** Long lines *)

Lemma line_length (c : N) (s line : jsstring) :
  In line (split_on c s) -> length line <= length s.
Proof.
  destruct (split_on_lines c s) as (l0 & ls & E & (b0 & E0 & _) & T).
  rewrite E. intros [<-|I].
  - rewrite E0, length_app. lia.
  - destruct (T line I) as (a & b & Es & _). rewrite Es.
    rewrite !length_app. lia.
Qed.

Lemma check_style_long (code : jsstring) :
  check_style code
  = if 0 <? length (long_lines code)
    then [style_issue (length (long_lines code))] else [].
Proof. reflexivity. Qed.

(** X7. In either language the [style] info is reported exactly when some
    line of the source is longer than 120 code units; its message starts
    with the number of such lines and it is the last issue of the result.
    A source of at most 120 code units never gets it. *)
Theorem style_rule (code : jsstring) (language : Language) :
  exists r,
    analyze code language = Returns r
    /\ (long_lines code = [] -> of_kind "style" (issues r) = [])
    /\ (long_lines code <> [] ->
        of_kind "style" (issues r) = [style_issue (length (long_lines code))]
        /\ exists before,
             issues r = before ++ [style_issue (length (long_lines code))])
    /\ message (style_issue (length (long_lines code)))
       = dec (length (long_lines code)) ++ str " lines exceed 120 characters"
    /\ (length code <= 120 -> of_kind "style" (issues r) = []).
Proof.
  assert (K : exists r found,
             analyze code language = Returns r
             /\ issues r = found ++ check_style code
             /\ of_kind "style" (issues r) = check_style code).
  { destruct language.
    - destruct (verilog_of_kind "style" code)
        as (r & sens & multi & E & Es & Em & K).
      decide_kinds K. exists r.
      destruct (analyze_verilog_parts code)
        as (sens' & multi' & _ & _ & _ & _ & E').
      cbv zeta in E'. rewrite E in E'. injection E' as ->.
      eexists. split; [exact E|]. split; [|exact K].
      cbn [issues]. rewrite !app_assoc. reflexivity.
    - eexists; eexists. split; [reflexivity|]. cbn [issues].
      split; [reflexivity|].
      destruct (check_vhdl_parts code) as (latch & mixed & -> & F1 & F2 & _).
      rewrite !of_kind_app.
      rewrite (of_kind_rule "style" _ _ F1), (of_kind_rule "style" _ _ F2),
        (of_kind_rule "style" _ _ (check_style_kind code)).
      reflexivity. }
  destruct K as (r & found & E & Ei & K). exists r. split; [exact E|].
  rewrite K, Ei, check_style_long.
  assert (Short : long_lines code = [] ->
                  (if 0 <? length (long_lines code)
                   then [style_issue (length (long_lines code))] else [])
                  = []).
  { intros ->. reflexivity. }
  split; [exact Short|]. split; [|split; [reflexivity|]].
  - intros NE. destruct (long_lines code) as [|l t]; [congruence|].
    cbn [length Nat.ltb Nat.leb]. split; [reflexivity|].
    exists found; reflexivity.
  - intros L. apply Short. unfold long_lines.
    destruct (filter (fun l => 120 <? length l) (split_on 10 code))
      as [|l t] eqn:F; [reflexivity|].
    assert (I : In l (filter (fun l => 120 <? length l) (split_on 10 code)))
      by (rewrite F; left; reflexivity).
    apply filter_In in I as (I & Long). apply Nat.ltb_lt in Long.
    apply line_length in I. lia.
Qed.

Lemma style_rule_witness :
  (exists r,
     analyze (str "assign y = a;") vhdl = Returns r
     /\ of_kind "style" (issues r) = [])
  /\ (exists r,
        analyze (repeat 120%N 121) verilog = Returns r
        /\ of_kind "style" (issues r) = [style_issue 1])
  /\ (exists r,
        analyze (repeat 120%N 120) verilog = Returns r
        /\ of_kind "style" (issues r) = []).
Proof.
  split; [|split].
  - destruct (style_rule (str "assign y = a;") vhdl) as (r & E & P & _).
    exists r; split; [exact E | apply P; reflexivity].
  - destruct (style_rule (repeat 120%N 121) verilog) as (r & E & _ & P & _).
    exists r; split; [exact E|].
    destruct P as (Q & _); [vm_compute; discriminate | exact Q].
  - destruct (style_rule (repeat 120%N 120) verilog)
      as (r & E & _ & _ & _ & P).
    exists r; split; [exact E|]. apply P. vm_compute. lia.
Defined.

(** ** What every issue carries *)

Lemma findIndex_bound A (f : A -> bool) (l : list A) :
  (-1 <= findIndex f l < Z.of_nat (length l))%Z.
Proof.
  induction l as [|a l IH]; simpl; [lia|].
  destruct (f a); [lia|].
  destruct (Z.ltb_spec (findIndex f l) 0); lia.
Qed.

Lemma well_formed_plain (code : jsstring) (language : Language) (i : Issue) :
  message i <> [] -> suggestion i <> [] -> line i = None ->
  well_formed code language i.
Proof. intros M S L. unfold well_formed. rewrite L. auto. Qed.

Lemma prefixed_nonempty (p t : jsstring) : p <> [] -> p ++ t <> [].
Proof. destruct p; [congruence | discriminate]. Qed.

Lemma suffixed_nonempty (p t : jsstring) : t <> [] -> p ++ t <> [].
Proof.
  intros NE E. apply app_eq_nil in E as (_ & E). contradiction.
Qed.

(** X8. In either language every issue of the result has a non-empty
    message and a non-empty suggestion; an issue carries a line only if it
    is the Verilog [latch_inference] warning, and that line is the number,
    counted from 1, of an existing line of the source that holds [if]. *)
Theorem issues_well_formed (code : jsstring) (language : Language) :
  exists r,
    analyze code language = Returns r
    /\ Forall (well_formed code language) (issues r).
Proof.
  assert (Style : Forall (well_formed code language) (check_style code)).
  { unfold check_style; cbv zeta. destruct (0 <? length _); constructor;
      [|constructor].
    apply well_formed_plain; try reflexivity; try discriminate;
      try (apply suffixed_nonempty; discriminate). }
  destruct language.
  - destruct (analyze_verilog_parts code)
      as (sens & multi & Es & Em & Fs & Fm & E).
    cbv zeta in E. eexists; split; [exact E|]. cbn [issues].
    repeat (apply Forall_app; split).
    + unfold check_latch.
      destruct (includes code (str "if")) eqn:Hif; [|constructor].
      destruct (negb (includes code (str "else"))); [|constructor].
      cbv zeta. constructor; [|constructor].
      destruct (first_if_line code Hif) as (k & Ek & (l & Nl & Il) & _).
      rewrite Ek. unfold well_formed; cbn [message suggestion line latch_issue].
      split; [discriminate|]. split; [discriminate|].
      split; [reflexivity|]. split; [reflexivity|]. exists k, l; auto.
    + unfold check_blocking; cbv zeta. destruct (_ && _); constructor;
        [|constructor].
      apply well_formed_plain; try reflexivity; discriminate.
    + revert Fs. apply Forall_impl. intros i (missing & ->).
      apply well_formed_plain; try reflexivity; try discriminate;
        try (apply prefixed_nonempty; discriminate).
    + unfold check_case. destruct (_ && _); constructor; [|constructor].
      apply well_formed_plain; try reflexivity; discriminate.
    + revert Fm. apply Forall_impl. intros i (signal & ->).
      apply well_formed_plain; try reflexivity; try discriminate;
        try (apply prefixed_nonempty; discriminate).
    + rewrite check_cdc_distinct. destruct (1 <? _); constructor;
        [|constructor].
      apply well_formed_plain; try reflexivity; discriminate.
    + exact Style.
  - eexists; split; [reflexivity|]. cbn [issues].
    apply Forall_app; split; [|exact Style].
    unfold check_vhdl; cbv zeta. apply Forall_app; split.
    + destruct (_ && _); constructor; [|constructor].
      apply well_formed_plain; try reflexivity; discriminate.
    + destruct (_ && _); constructor; [|constructor].
      apply well_formed_plain; try reflexivity; discriminate.
Qed.

(** ** The order of the issues *)

Lemma between_app (a b c d : nat) (l1 l2 : list nat) :
  between a b l1 -> between c d l2 -> a <= c -> b <= c -> b <= d ->
  between a d (l1 ++ l2).
Proof.
  intros (S1 & F1) (S2 & F2) AC BC BD. split.
  - induction l1 as [|x l1 IH]; [exact S2|].
    inversion S1 as [|? ? S1' Hx]; subst. inversion F1 as [|? ? Bx F1']; subst.
    simpl. constructor; [apply IH; assumption|].
    apply Forall_app; split; [exact Hx|].
    revert F2. apply Forall_impl. intros y Hy. lia.
  - apply Forall_app; split.
    + revert F1. apply Forall_impl. intros x Hx. lia.
    + revert F2. apply Forall_impl. intros x Hx. lia.
Qed.

Lemma between_rule (kind : string) (n : nat) (l : list Issue) :
  rule_rank (str kind) = n ->
  Forall (fun i => type i = str kind) l ->
  between n n (map (fun i => rule_rank (type i)) l).
Proof.
  intros R. induction 1 as [|i l Hi F (S & B)]; [split; constructor|].
  simpl. rewrite Hi, R. split.
  - constructor; [exact S|]. revert B. apply Forall_impl. intros x Hx; lia.
  - constructor; [lia | exact B].
Qed.

(** X9. In either language the issues of the result stand in the order of
    the rules, not of their severities: latch inference, blocking
    assignment, sensitivity list, case default, multiple assignments,
    clock domain crossing, mixed variables and signals, and style last. *)
Theorem issues_in_rule_order (code : jsstring) (language : Language) :
  exists r,
    analyze code language = Returns r
    /\ StronglySorted le (map (fun i => rule_rank (type i)) (issues r)).
Proof.
  destruct language.
  - destruct (analyze_verilog_parts code)
      as (sens & multi & Es & Em & Fs & Fm & E).
    cbv zeta in E. eexists; split; [exact E|]. cbn [issues].
    rewrite !map_app.
    pose proof (between_rule "latch_inference" 0 _ eq_refl
                  (check_latch_kind code)) as B0.
    pose proof (between_rule "blocking_in_sequential" 1 _ eq_refl
                  (check_blocking_kind code)) as B1.
    pose proof (between_rule "incomplete_sensitivity" 2 _ eq_refl
                  (sensitivity_kind _ Fs)) as B2.
    pose proof (between_rule "no_case_default" 3 _ eq_refl
                  (check_case_kind code)) as B3.
    pose proof (between_rule "multiple_assignments" 4 _ eq_refl
                  (multiple_kind _ Fm)) as B4.
    pose proof (between_rule "clock_domain_crossing" 5 _ eq_refl
                  (check_cdc_kind code)) as B5.
    pose proof (between_rule "style" 7 _ eq_refl
                  (check_style_kind code)) as B7.
    pose proof (between_app _ _ _ _ _ _ B5 B7) as C5.
    pose proof (between_app _ _ _ _ _ _ B4 (C5 ltac:(lia) ltac:(lia) ltac:(lia)))
      as C4.
    pose proof (between_app _ _ _ _ _ _ B3 (C4 ltac:(lia) ltac:(lia) ltac:(lia)))
      as C3.
    pose proof (between_app _ _ _ _ _ _ B2 (C3 ltac:(lia) ltac:(lia) ltac:(lia)))
      as C2.
    pose proof (between_app _ _ _ _ _ _ B1 (C2 ltac:(lia) ltac:(lia) ltac:(lia)))
      as C1.
    pose proof (between_app _ _ _ _ _ _ B0 (C1 ltac:(lia) ltac:(lia) ltac:(lia)))
      as C0.
    exact (proj1 (C0 ltac:(lia) ltac:(lia) ltac:(lia))).
  - eexists; split; [reflexivity|]. cbn [issues].
    destruct (check_vhdl_parts code) as (latch & mixed & -> & F1 & F2 & _).
    rewrite !map_app.
    pose proof (between_rule "latch_inference" 0 _ eq_refl F1) as B0.
    pose proof (between_rule "mixed_variable_signal" 6 _ eq_refl F2) as B6.
    pose proof (between_rule "style" 7 _ eq_refl
                  (check_style_kind code)) as B7.
    pose proof (between_app _ _ _ _ _ _ B0 B6 ltac:(lia) ltac:(lia) ltac:(lia))
      as C0.
    rewrite <- app_assoc.
    pose proof (between_app _ _ _ _ _ _ B6 B7 ltac:(lia) ltac:(lia) ltac:(lia))
      as C6.
    exact (proj1 (between_app _ _ _ _ _ _ B0 C6
                    ltac:(lia) ltac:(lia) ltac:(lia))).
Qed.

(** ** The timing guidance as a table *)

(** X10. For every issue text, frequency and [Number::toString]: the
    guidance for [both] is the guidance for [setup] without a frequency
    followed by the guidance for [hold] with the frequency; an omitted
    violation type behaves as [unknown] and gives at most the period step;
    whatever the parameters, the number of steps is three for [setup] or
    [both], plus two for [hold] or [both], plus one for a frequency other
    than zero and NaN, each step carries at least one command, and the
    issue text and the five general tips are returned as they are. *)
Theorem timing_guidance_table (toString : number -> jsstring)
  (text : jsstring) (clockFrequency : option number) :
  guidance (timingAnalysis toString text clockFrequency (Some both))
  = guidance (timingAnalysis toString text None (Some setup))
    ++ guidance (timingAnalysis toString text clockFrequency (Some hold))
  /\ timingAnalysis toString text clockFrequency None
     = timingAnalysis toString text clockFrequency (Some unknown)
  /\ length (guidance (timingAnalysis toString text clockFrequency None)) <= 1
  /\ forall violationType,
       let result :=
         timingAnalysis toString text clockFrequency (Some violationType) in
       length (guidance result)
       = (match violationType with setup | both => 3 | _ => 0 end)
         + (match violationType with hold | both => 2 | _ => 0 end)
         + (match clockFrequency with
            | Some f => if to_boolean f then 1 else 0
            | None => 0
            end)
       /\ Forall (fun s => exists c cs, commands s = Some (c :: cs))
                 (guidance result)
       /\ issue result = text
       /\ violationType = Timing.violationType result
       /\ length (generalTips result) = 5.
Proof.
  split; [|split; [|split]].
  - unfold timingAnalysis; cbn [guidance app].
    destruct clockFrequency as [f|]; [destruct (to_boolean f)|];
      reflexivity.
  - reflexivity.
  - unfold timingAnalysis; cbn [guidance app].
    destruct clockFrequency as [f|]; [destruct (to_boolean f)|];
      simpl; lia.
  - intros violationType result. unfold result, timingAnalysis.
    cbn [guidance issue Timing.violationType generalTips].
    split; [|split; [|split; [|split]]]; try reflexivity.
    + destruct violationType, clockFrequency as [f|];
        try destruct (to_boolean f); reflexivity.
    + destruct violationType, clockFrequency as [f|];
        try destruct (to_boolean f);
        repeat (constructor; [eexists; eexists; reflexivity|]);
        constructor.
Qed.

(** ** The clock domain crossing guidance as a table *)

(** X11. For every description: [multi-bit] and [bus] give the same two
    recommendations, [handshake] gives one, an omitted type or
    [single-bit] gives one; the three answers share no scenario; every
    recommendation carries an example; whatever the signal type, the
    description and the signal type are returned as they are, with six
    guidelines and three tool recommendations. *)
Theorem cdc_guidance_table (d : jsstring) :
  recommendations (detectCDCIssues d (Some multi_bit))
  = recommendations (detectCDCIssues d (Some bus))
  /\ length (recommendations (detectCDCIssues d (Some bus))) = 2
  /\ length (recommendations (detectCDCIssues d (Some handshake))) = 1
  /\ length (recommendations (detectCDCIssues d None)) = 1
  /\ NoDup (map scenario
              (recommendations (detectCDCIssues d None)
               ++ recommendations (detectCDCIssues d (Some bus))
               ++ recommendations (detectCDCIssues d (Some handshake))))
  /\ forall signalType,
       let result := detectCDCIssues d signalType in
       recommendations result <> []
       /\ Forall (fun r => exists example, verilogExample r = Some example
                                           /\ example <> [])
                 (recommendations result)
       /\ description result = d
       /\ Cdc.signalType result = signalType
       /\ length (generalGuidelines result) = 6
       /\ length (toolRecommendations result) = 3.
Proof.
  split; [reflexivity|]. split; [reflexivity|]. split; [reflexivity|].
  split; [reflexivity|]. split.
  - cbn. repeat constructor; simpl; intuition discriminate.
  - intros [[| | |]|]; cbn;
      (split; [discriminate|]);
      (split; [repeat (constructor;
                       [eexists; split; [reflexivity | discriminate]|]);
               constructor|]);
      repeat split.
Qed.

(** * The agent *)

Import Agent.

(** ** The analysis as the agent calls it *)

(** X12. Called with a language tag that was not checked, the analysis
    treats [verilog] and [vhdl] as the tool does and runs only the style
    check for any other tag (another case of the letters included): the
    result then has at most one issue, and for a source without a line
    longer than 120 code units it is the record without issues, with the
    summary "No issues found. Code looks good!", whatever the source
    holds. *)
Theorem execute_language (code language : jsstring) :
  execute code (str "verilog") = analyze code verilog
  /\ execute code (str "vhdl") = analyze code vhdl
  /\ (language <> str "verilog" -> language <> str "vhdl" ->
      exists r,
        execute code language = Returns r
        /\ issues r = check_style code
        /\ totalIssues r <= 1
        /\ (long_lines code = [] ->
            r = {| totalIssues := 0;
                   issues := [];
                   summary := str "No issues found. Code looks good!" |})).
Proof.
  split; [reflexivity|]. split; [reflexivity|].
  intros NV NH. unfold execute.
  apply streq_neq in NV. apply streq_neq in NH. rewrite NV, NH.
  cbn [bind app]. eexists. split; [reflexivity|]. cbn [issues totalIssues].
  split; [reflexivity|]. split; [apply check_style_short|].
  intros L. rewrite check_style_long, L. reflexivity.
Qed.

Lemma execute_language_witness :
  exists r,
    execute (str "always @(a) if (a) q = d;") (str "Verilog") = Returns r
    /\ r = {| totalIssues := 0;
              issues := [];
              summary := str "No issues found. Code looks good!" |}.
Proof.
  destruct (execute_language (str "always @(a) if (a) q = d;")
              (str "Verilog")) as (_ & _ & P).
  destruct P as (r & E & _ & _ & Q); [discriminate | discriminate |].
  exists r. split; [exact E | apply Q; reflexivity].
Defined.

Lemma execute_returns (code language : jsstring) :
  exists r, execute code language = Returns r.
Proof.
  destruct (streq language (str "verilog")) eqn:V.
  - apply streq_eq in V. subst.
    destruct (analyze_returns code verilog) as (found & E). eexists; exact E.
  - destruct (streq language (str "vhdl")) eqn:H.
    + apply streq_eq in H. subst.
      destruct (analyze_returns code vhdl) as (found & E). eexists; exact E.
    + unfold execute. rewrite V, H. eexists; reflexivity.
Qed.

Lemma execute_value_strings (code language : jsstring) :
  execute_value (JString code) (JString language) = execute code language.
Proof. reflexivity. Qed.

(** On a string the analysis returns, whatever the language tag is. *)
Lemma execute_value_returns (code : jsstring) (language : Value) :
  exists r, execute_value (JString code) language = Returns r.
Proof.
  destruct language as [| | | |l| |];
    try (eexists; reflexivity).
  rewrite execute_value_strings. apply execute_returns.
Qed.

Lemma execute_value_throws (code language : Value) :
  (forall source, code <> JString source) ->
  execute_value code language = Throws TypeError.
Proof.
  intros N. destruct code; try reflexivity. exfalso. exact (N s eq_refl).
Qed.

(** X13. The code analysis handler, for every value of the code and of
    the language tag, every clock, database and socket.  The handler calls
    [ws.send] once or twice and ends as its last call of [ws.send] does.
    A code that is no string makes the analysis throw: the database is not
    called and the one reply is the failure reply "Code analysis failed"
    with the message of the error.  On a string the analysis never throws:
    the snippet is stored with the first clock reading, and the reply is
    the analysis when the database takes the snippet, the failure reply
    with the details of what the database threw otherwise; when the send
    of the analysis throws, the failure reply is sent after it, with the
    details of what the send threw.  The details are the message of an
    [Error] and "Unknown error" for any other value. *)
Theorem handleCodeAnalysis_replies (exec : Statement -> Completion)
  (send : Reply -> Completion) (clock : nat -> Z)
  (typeErrorMessage : Value -> Value -> jsstring) (code language : Value) :
  let handled :=
    handleCodeAnalysis exec send clock typeErrorMessage code language in
  let failure thrown :=
    error_reply (str "Code analysis failed")
      (match thrown with
       | an_Error message => message
       | not_an_Error => str "Unknown error"
       end) in
  let statement := InsertSnippet code (clock 0) in
  exists earlier reply,
    sent handled = earlier ++ [reply]
    /\ handler_ends handled = send reply
    /\ (((forall source, code <> JString source)
         /\ queries handled = []
         /\ earlier = []
         /\ reply = failure (an_Error (typeErrorMessage code language)))
        \/ exists source analysis,
             code = JString source
             /\ execute_value code language = Returns analysis
             /\ queries handled = [statement]
             /\ ((exists thrown,
                    exec statement = rejected thrown
                    /\ earlier = [] /\ reply = failure thrown)
                 \/ (exec statement = fulfilled
                     /\ send (analysis_result analysis) = fulfilled
                     /\ earlier = [] /\ reply = analysis_result analysis)
                 \/ (exists thrown,
                       exec statement = fulfilled
                       /\ send (analysis_result analysis) = rejected thrown
                       /\ earlier = [analysis_result analysis]
                       /\ reply = failure thrown))).
Proof.
  intros handled failure statement. unfold handled, handleCodeAnalysis.
  destruct (execute_value code language) as [analysis|err] eqn:E.
  - assert (S : exists source, code = JString source).
    { destruct code; try discriminate E. eexists; reflexivity. }
    destruct S as (source & Ec). fold statement.
    destruct (exec statement) as [|thrown] eqn:X.
    + destruct (send (analysis_result analysis)) as [|thrown] eqn:Y.
      * exists [], (analysis_result analysis).
        split; [reflexivity|]. split; [symmetry; exact Y|].
        right. exists source, analysis. rewrite <- E. auto 10.
      * exists [analysis_result analysis], (failure thrown).
        split; [reflexivity|]. split; [reflexivity|].
        right. exists source, analysis.
        split; [exact Ec|]. split; [reflexivity|]. split; [reflexivity|].
        right. right. exists thrown. auto.
    + exists [], (failure thrown).
      split; [reflexivity|]. split; [reflexivity|].
      right. exists source, analysis.
      split; [exact Ec|]. split; [reflexivity|]. split; [reflexivity|].
      left. exists thrown. auto.
  - exists [], (failure (an_Error (typeErrorMessage code language))).
    split; [reflexivity|]. split; [reflexivity|].
    left. split; [|auto].
    intros source ->.
    destruct (execute_value_returns source language) as (r & R). congruence.
Qed.

Lemma handleCodeAnalysis_replies_witness :
  let message := str "Cannot read properties of undefined" in
  let handled :=
    handleCodeAnalysis (fun _ => fulfilled) (fun _ => fulfilled)
      (fun _ => 0%Z) (fun _ _ => message) JUndefined
      (JString (str "verilog")) in
  sent handled = [error_reply (str "Code analysis failed") message]
  /\ queries handled = []
  /\ handler_ends handled = fulfilled.
Proof.
  intros message handled.
  destruct (handleCodeAnalysis_replies (fun _ => fulfilled)
              (fun _ => fulfilled) (fun _ => 0%Z) (fun _ _ => message)
              JUndefined (JString (str "verilog")))
    as (earlier & reply & S & H & [(_ & Q & -> & ->) | (source & a & Ec & _)]).
  - split; [exact S|]. split; [exact Q | exact H].
  - discriminate Ec.
Defined.

(** ** The design context *)

Section DesignContextProperties.

Variable exec : Statement -> outcome unit.
Variable setState : State -> outcome unit.
Variable clock : nat -> Z.
Variable toLowerCase : jsstring -> jsstring.

(** The loop either finds no keyword and changes nothing, or records the
    first keyword it finds. *)
Lemma track_errors_first (keywords : list jsstring) (lower : jsstring)
  (st : State) (c : DesignContext) (done : list Statement) (reads : nat) :
  match find (fun k => includes lower k) keywords with
  | None =>
      track_errors exec setState clock keywords lower st c done reads
      = publish setState st c done
  | Some k =>
      In k keywords
      /\ includes lower k = true
      /\ match exec (InsertError k (clock reads)) with
         | Returns _ =>
             track_errors exec setState clock keywords lower st c done reads
             = publish setState st (record_error c k)
                       (done ++ [InsertError k (clock reads)])
         | Throws e =>
             track_errors exec setState clock keywords lower st c done reads
             = {| context := record_error c k; statements := done;
                  published := None; ended := Throws e |}
         end
  end.
Proof.
  induction keywords as [|k keywords IH]; cbn [find track_errors];
    [reflexivity|].
  destruct (includes lower k) eqn:I.
  - split; [left; reflexivity|]. split; [exact I|].
    fold (record_error c k).
    destruct (exec (InsertError k (clock reads))); reflexivity.
  - destruct (find (fun k => includes lower k) keywords) as [k'|];
      [|exact IH].
    destruct IH as (Ik & Hk & IH). split; [right; exact Ik|].
    split; [exact Hk | exact IH].
Qed.

Lemma push_error_length (l : list jsstring) (k : jsstring) :
  length (push_error l k) <= Nat.max 5 (length l)
  /\ (length l <= 5 -> length (push_error l k) <= 5).
Proof.
  unfold push_error; cbv zeta.
  destruct (Nat.ltb_spec 5 (length (l ++ [k]))) as [L|L];
    rewrite length_app in L; cbn [length] in L.
  - destruct l as [|x l]; cbn [app tl length] in *; [lia|].
    rewrite length_app; cbn [length]. lia.
  - rewrite length_app; cbn [length]. lia.
Qed.

Lemma push_error_In (l : list jsstring) (k x : jsstring) :
  In x (push_error l k) -> In x l \/ x = k.
Proof.
  unfold push_error; cbv zeta. intros I.
  assert (J : In x (l ++ [k])).
  { destruct (5 <? length (l ++ [k])); [apply in_tl|]; exact I. }
  apply in_app_or in J as [J|[J|[]]]; auto.
Qed.

(** The last five of the recorded keywords are kept, in their order. *)
Lemma push_error_last (l : list jsstring) (k : jsstring) :
  length l <= 5 ->
  push_error l k = skipn (length l - 4) (l ++ [k]).
Proof.
  intros L. unfold push_error; cbv zeta. rewrite length_app; simpl.
  destruct (Nat.ltb_spec 5 (length l + 1)) as [H|H].
  - replace (length l - 4) with 1 by lia.
    destruct l; reflexivity.
  - replace (length l - 4) with 0 by lia. reflexivity.
Qed.

(** What a run of [updateDesignContext] can be, by what the message
    holds and what the database does. *)
Lemma updateDesignContext_cases (message : jsstring) (st : State) :
  let run := updateDesignContext exec setState clock toLowerCase message st in
  let c0 := designContext st in
  exists c1 done1,
    (c1 = c0 /\ done1 = [] /\ str_match re_module message = None
     \/ exists m,
          str_match re_module message = Some m
          /\ c1 = rename_module c0 (nth_error (m_groups m) 0)
          /\ (done1 = [] /\ published run = None /\ context run = c1
              /\ statements run = []
              /\ (exists e,
                    exec (InsertModule (nth_error (m_groups m) 0) (clock 0))
                    = Throws e)
              \/ done1 = [InsertModule (nth_error (m_groups m) 0) (clock 0)]
                 /\ exists u,
                      exec (InsertModule (nth_error (m_groups m) 0) (clock 0))
                      = Returns u))
    /\ (published run = None /\ context run = c1 /\ statements run = done1
        \/ context run = c1 /\ statements run = done1
           /\ first_keyword (toLowerCase message) = None
           /\ published run
              = Some {| conversationCount := conversationCount st;
                        lastInteraction := lastInteraction st;
                        designContext := c1 |}
        \/ exists k t,
             first_keyword (toLowerCase message) = Some k
             /\ In k errorKeywords
             /\ includes (toLowerCase message) k = true
             /\ context run = record_error c1 k
             /\ (statements run = done1 /\ published run = None
                 /\ (exists e, exec (InsertError k t) = Throws e)
                 \/ statements run = done1 ++ [InsertError k t]
                    /\ (exists u, exec (InsertError k t) = Returns u)
                    /\ published run
                       = Some {| conversationCount := conversationCount st;
                                 lastInteraction := lastInteraction st;
                                 designContext := record_error c1 k |})).
Proof.
  intros run c0. unfold run, updateDesignContext. cbv zeta. fold c0.
  assert (Loop : forall c done reads,
            let run := track_errors exec setState clock errorKeywords
                         (toLowerCase message) st c done reads in
            context run = c /\ statements run = done
            /\ first_keyword (toLowerCase message) = None
            /\ published run
               = Some {| conversationCount := conversationCount st;
                         lastInteraction := lastInteraction st;
                         designContext := c |}
            \/ exists k t,
                 first_keyword (toLowerCase message) = Some k
                 /\ In k errorKeywords
                 /\ includes (toLowerCase message) k = true
                 /\ context run = record_error c k
                 /\ (statements run = done /\ published run = None
                     /\ (exists e, exec (InsertError k t) = Throws e)
                     \/ statements run = done ++ [InsertError k t]
                        /\ (exists u, exec (InsertError k t) = Returns u)
                        /\ published run
                           = Some {| conversationCount := conversationCount st;
                                     lastInteraction := lastInteraction st;
                                     designContext := record_error c k |})).
  { intros c done reads.
    pose proof (track_errors_first errorKeywords (toLowerCase message) st c
                  done reads) as T.
    unfold first_keyword.
    destruct (find (fun k => includes (toLowerCase message) k) errorKeywords)
      as [k|].
    - destruct T as (Ik & Hk & T). right. exists k, (clock reads).
      split; [reflexivity|]. split; [exact Ik|]. split; [exact Hk|].
      destruct (exec (InsertError k (clock reads))) as [u|e] eqn:X;
        cbv zeta; rewrite T; cbn [context statements published publish].
      + split; [reflexivity|]. right. split; [reflexivity|].
        split; [exists u; first [exact X | reflexivity] | reflexivity].
      + split; [reflexivity|]. left. split; [reflexivity|].
        split; [reflexivity | exists e; first [exact X | reflexivity]].
    - left. cbv zeta. rewrite T. cbn. auto. }
  destruct (str_match re_module message) as [m|] eqn:M.
  - fold (rename_module c0 (nth_error (m_groups m) 0)).
    destruct (exec (InsertModule (nth_error (m_groups m) 0) (clock 0)))
      as [u|e] eqn:X.
    + exists (rename_module c0 (nth_error (m_groups m) 0)),
        [InsertModule (nth_error (m_groups m) 0) (clock 0)].
      split.
      * right. exists m. split; [reflexivity|]. split; [reflexivity|].
        right. split; [reflexivity | exists u; first [exact X | reflexivity]].
      * right. apply Loop.
    + exists (rename_module c0 (nth_error (m_groups m) 0)), [].
      cbn [context statements published]. split.
      * right. exists m. split; [reflexivity|]. split; [reflexivity|].
        left. repeat split. exists e; first [exact X | reflexivity].
      * left. auto.
  - exists c0, []. split; [left; auto|]. right. apply Loop.
Qed.

End DesignContextProperties.

(** X14. Whatever the message, the clock, the database and [setState]
    do, [updateDesignContext] leaves the recent errors as they are or
    adds one of the five keywords, one that the lower-cased message
    holds, keeping the last five; a list of at most five keywords stays
    one; the code snippets and the syntax preferences are untouched; at
    most two statements are run; and the state handed to [setState]
    carries the design context reached and the counters of the current
    state. *)
Theorem design_context_invariant (exec : Statement -> outcome unit)
  (setState : State -> outcome unit) (clock : nat -> Z)
  (toLowerCase : jsstring -> jsstring) (message : jsstring) (st : State) :
  let run := updateDesignContext exec setState clock toLowerCase message st in
  let old := recentErrors (designContext st) in
  (recentErrors (context run) = old
   \/ exists k,
        In k errorKeywords
        /\ includes (toLowerCase message) k = true
        /\ recentErrors (context run) = push_error old k)
  /\ (length old <= 5 -> length (recentErrors (context run)) <= 5)
  /\ (Forall (fun k => In k errorKeywords) old ->
      Forall (fun k => In k errorKeywords) (recentErrors (context run)))
  /\ codeSnippets (context run) = codeSnippets (designContext st)
  /\ language (context run) = language (designContext st)
  /\ style (context run) = style (designContext st)
  /\ length (statements run) <= 2
  /\ forall next,
       published run = Some next ->
       designContext next = context run
       /\ conversationCount next = conversationCount st
       /\ lastInteraction next = lastInteraction st.
Proof.
  intros run old.
  destruct (updateDesignContext_cases exec setState clock toLowerCase
              message st) as (c1 & done1 & H1 & H2).
  fold run in H1, H2.
  assert (C1 : recentErrors c1 = old
               /\ codeSnippets c1 = codeSnippets (designContext st)
               /\ language c1 = language (designContext st)
               /\ style c1 = style (designContext st)
               /\ length done1 <= 1).
  { destruct H1 as [(-> & -> & _) | (m & _ & -> & [(-> & _) | (-> & _)])];
      cbn; repeat split; auto. }
  destruct C1 as (R1 & S1 & L1 & Y1 & D1).
  assert (Step : recentErrors (context run) = old
                 /\ codeSnippets (context run) = codeSnippets (designContext st)
                 /\ language (context run) = language (designContext st)
                 /\ style (context run) = style (designContext st)
                 \/ exists k,
                      In k errorKeywords
                      /\ includes (toLowerCase message) k = true
                      /\ context run = record_error c1 k).
  { destruct H2 as [(_ & -> & _) | [(-> & _) | (k & t & _ & Ik & Hk & Ec & _)]].
    - left; auto.
    - left; auto.
    - right; exists k; auto. }
  assert (Len : length (statements run) <= 2).
  { destruct H2 as [(_ & _ & ->) | [(_ & -> & _) | (k & t & _ & _ & _ & _ & H2)]];
      [lia | lia |].
    destruct H2 as [(-> & _) | (-> & _)]; [lia|].
    rewrite length_app; simpl; lia. }
  assert (Pub : forall next,
             published run = Some next ->
             designContext next = context run
             /\ conversationCount next = conversationCount st
             /\ lastInteraction next = lastInteraction st).
  { intros next P.
    destruct H2 as [(N & _) | [(-> & _ & _ & Q) | (k & t & _ & _ & _ & -> & H2)]].
    - congruence.
    - rewrite Q in P. injection P as <-. cbn; auto.
    - destruct H2 as [(_ & N & _) | (_ & _ & Q)]; [congruence|].
      rewrite Q in P. injection P as <-. cbn; auto. }
  destruct Step as [(R & S & L & Y) | (k & Ik & Hk & Ec)].
  - rewrite R, S, L, Y.
    split; [left; reflexivity|]. split; [auto|]. split; [auto|].
    split; [reflexivity|]. split; [reflexivity|]. split; [reflexivity|].
    split; [exact Len | exact Pub].
  - split; [|split; [|split; [|split; [|split; [|split; [|split]]]]]].
    + right. exists k. rewrite Ec. cbn. rewrite R1. auto.
    + rewrite Ec. cbn. rewrite R1. apply push_error_length.
    + intros F. rewrite Ec. cbn. rewrite R1.
      apply Forall_forall. intros x Ix.
      apply push_error_In in Ix as [Ix| ->]; [|exact Ik].
      rewrite Forall_forall in F. apply F; exact Ix.
    + rewrite Ec. exact S1.
    + rewrite Ec. exact L1.
    + rewrite Ec. exact Y1.
    + exact Len.
    + exact Pub.
Qed.


Lemma design_context_invariant_witness :
  let run :=
    updateDesignContext (fun _ => Returns tt) (fun _ => Returns tt)
      (fun _ => 0%Z) (map ascii_lower) (str "Timing ERROR in module alu")
      {| conversationCount := 3; lastInteraction := 0;
         designContext := initial_context |} in
  length (recentErrors (context run)) <= 5
  /\ Forall (fun k => In k errorKeywords) (recentErrors (context run))
  /\ designContext
       {| conversationCount := 3; lastInteraction := 0;
          designContext := context run |} = context run.
Proof.
  intros run.
  destruct (design_context_invariant (fun _ => Returns tt)
              (fun _ => Returns tt) (fun _ => 0%Z) (map ascii_lower)
              (str "Timing ERROR in module alu")
              {| conversationCount := 3; lastInteraction := 0;
                 designContext := initial_context |})
    as (_ & L & F & _ & _ & _ & _ & P).
  split; [apply L; simpl; lia|]. split; [apply F; constructor|].
  apply (P {| conversationCount := 3; lastInteraction := 0;
              designContext := context run |}).
  reflexivity.
Defined.

(** X15. When the database takes every statement, [updateDesignContext]
    records the first of [error], [warning], [violation], [latch],
    [timing], in this order, that the lower-cased message holds, and no
    other: the recent errors become the last five of the old ones with
    that keyword added, and are unchanged when the message holds none of
    the five.  The statements run are the module insertion, if the
    message names a module, then the insertion of that keyword, each with
    its own clock reading, and [setState] is reached. *)
Theorem first_keyword_recorded (exec : Statement -> outcome unit)
  (setState : State -> outcome unit) (clock : nat -> Z)
  (toLowerCase : jsstring -> jsstring) (message : jsstring) (st : State) :
  (forall s, exists u, exec s = Returns u) ->
  let run := updateDesignContext exec setState clock toLowerCase message st in
  let old := recentErrors (designContext st) in
  let named :=
    match str_match re_module message with
    | Some m => [InsertModule (nth_error (m_groups m) 0) (clock 0)]
    | None => []
    end in
  match first_keyword (toLowerCase message) with
  | Some k =>
      recentErrors (context run) = push_error old k
      /\ (length old <= 5 ->
          recentErrors (context run) = skipn (length old - 4) (old ++ [k]))
      /\ statements run = named ++ [InsertError k (clock (length named))]
  | None =>
      recentErrors (context run) = old /\ statements run = named
  end
  /\ published run
     = Some {| conversationCount := conversationCount st;
               lastInteraction := lastInteraction st;
               designContext := context run |}
  /\ ended run
     = setState {| conversationCount := conversationCount st;
                   lastInteraction := lastInteraction st;
                   designContext := context run |}.
Proof.
  intros OK run old named.
  assert (Loop : forall c done reads,
            let t := track_errors exec setState clock errorKeywords
                       (toLowerCase message) st c done reads in
            match first_keyword (toLowerCase message) with
            | Some k =>
                context t = record_error c k
                /\ statements t = done ++ [InsertError k (clock reads)]
            | None => context t = c /\ statements t = done
            end
            /\ published t
               = Some {| conversationCount := conversationCount st;
                         lastInteraction := lastInteraction st;
                         designContext := context t |}
            /\ ended t
               = setState {| conversationCount := conversationCount st;
                             lastInteraction := lastInteraction st;
                             designContext := context t |}).
  { intros c done reads.
    pose proof (track_errors_first exec setState clock errorKeywords
                  (toLowerCase message) st c done reads) as T.
    unfold first_keyword.
    destruct (find (fun k => includes (toLowerCase message) k) errorKeywords)
      as [k|].
    - destruct T as (_ & _ & T).
      destruct (OK (InsertError k (clock reads))) as (u & X).
      rewrite X in T. cbv zeta. rewrite T. cbn. auto.
    - cbv zeta. rewrite T. cbn. auto. }
  unfold run, named, updateDesignContext. cbv zeta.
  destruct (str_match re_module message) as [m|].
  - destruct (OK (InsertModule (nth_error (m_groups m) 0) (clock 0)))
      as (u & X).
    rewrite X. fold (rename_module (designContext st)
                       (nth_error (m_groups m) 0)).
    specialize (Loop (rename_module (designContext st)
                        (nth_error (m_groups m) 0))
                  [InsertModule (nth_error (m_groups m) 0) (clock 0)] 1).
    cbv zeta in Loop. destruct Loop as (L & P & E).
    split; [|split; [exact P | exact E]].
    destruct (first_keyword (toLowerCase message)) as [k|].
    + destruct L as (-> & ->). cbn [record_error rename_module recentErrors].
      split; [reflexivity|]. split; [apply push_error_last | reflexivity].
    + destruct L as (-> & ->). split; reflexivity.
  - specialize (Loop (designContext st) [] 0).
    cbv zeta in Loop. destruct Loop as (L & P & E).
    split; [|split; [exact P | exact E]].
    destruct (first_keyword (toLowerCase message)) as [k|].
    + destruct L as (-> & ->). cbn [record_error recentErrors].
      split; [reflexivity|]. split; [apply push_error_last | reflexivity].
    + destruct L as (-> & ->). split; reflexivity.
Qed.

Lemma first_keyword_recorded_witness :
  let run :=
    updateDesignContext (fun _ => Returns tt) (fun _ => Returns tt)
      (fun n => Z.of_nat n) (map ascii_lower)
      (str "Timing ERROR in module alu")
      {| conversationCount := 3; lastInteraction := 0;
         designContext := initial_context |} in
  recentErrors (context run) = [str "error"]
  /\ statements run
     = [InsertModule (Some (str "alu")) 0; InsertError (str "error") 1].
Proof.
  intros run.
  destruct (first_keyword_recorded (fun _ => Returns tt)
              (fun _ => Returns tt) (fun n => Z.of_nat n) (map ascii_lower)
              (str "Timing ERROR in module alu")
              {| conversationCount := 3; lastInteraction := 0;
                 designContext := initial_context |})
    as ((R & _ & S) & _); [intros s; exists tt; reflexivity|].
  split; [exact R | exact S].
Defined.

(** ** The module name in a message *)

Lemma rmatch_cls_inv A (p : N -> bool) prev s caps (k : cont A) a :
  rmatch (Cls p) prev s caps k = Some a ->
  exists x t, s = x :: t /\ p x = true /\ k (Some x) t caps = Some a.
Proof.
  cbn [rmatch]. destruct s as [|x t]; [discriminate|].
  destruct (p x) eqn:P; [|discriminate]. intros H. exists x, t; auto.
Qed.

(** A greedy star whose continuation takes every position stops only
    where the class fails. *)
Lemma star_greedy_longest A (p : N -> bool) (s : jsstring) :
  forall prev (k : option N -> jsstring -> option A) a,
    (forall pr s', k pr s' <> None) ->
    star_greedy p prev s k = Some a ->
    exists run rest,
      s = run ++ rest /\ Forall (fun x => p x = true) run
      /\ head_fails p rest /\ k (prev_after prev run) rest = Some a.
Proof.
  induction s as [|x t IH]; intros prev k a T H; simpl in H.
  - exists [], []. simpl. auto.
  - destruct (p x) eqn:P.
    + destruct (star_greedy p (Some x) t k) as [b|] eqn:E.
      * injection H as ->. apply IH in E as (run & rest & -> & F & HF & K);
          [|exact T].
        exists (x :: run), rest. simpl. auto.
      * exfalso. revert E. apply (star_greedy_some _ p [] (Some x) t k);
          [constructor | apply T].
    + exists [], (x :: t). simpl. auto.
Qed.

Lemma rmatch_group_plus_longest A (p : N -> bool) prev s caps (k : cont A) a :
  (forall pr s' c, k pr s' c <> None) ->
  rmatch (Grp (Plus p)) prev s caps k = Some a ->
  exists x run rest,
    s = (x :: run) ++ rest /\ Forall (fun x => p x = true) (x :: run)
    /\ head_fails p rest
    /\ k (prev_after prev (x :: run)) rest (caps ++ [x :: run]) = Some a.
Proof.
  intros T H. unfold Plus in H. cbn [rmatch] in H.
  destruct s as [|x t]; [discriminate|].
  destruct (p x) eqn:P; [|discriminate].
  apply star_greedy_longest in H as (run & rest & -> & F & HF & K);
    [|intros; apply T].
  exists x, run, rest. split; [reflexivity|]. split; [constructor; assumption|].
  split; [exact HF|].
  change (x :: run ++ rest) with ((x :: run) ++ rest) in K.
  rewrite firstn_matched in K. exact K.
Qed.

Lemma either_case_lower (l u x : N) :
  ascii_lower l = l -> ascii_lower u = l ->
  ((x =? l)%N || (x =? u)%N) = true -> ascii_lower x = l.
Proof.
  intros L U H. apply orb_true_iff in H as [H|H]; apply N.eqb_eq in H;
    rewrite H; assumption.
Qed.

Lemma lower_either_case (l u x : N) :
  (97 <= l <= 122)%N -> (u + 32 = l)%N ->
  ascii_lower x = l -> ((x =? l)%N || (x =? u)%N) = true.
Proof.
  intros R U H. unfold ascii_lower in H. apply orb_true_iff.
  destruct ((65 <=? x)%N && (x <=? 90)%N) eqn:C.
  - right. apply N.eqb_eq. lia.
  - left. apply N.eqb_eq. exact H.
Qed.

Lemma module_shape prev s m :
  match_here re_module prev s = Some m ->
  exists M S W post,
    s = M ++ S ++ W ++ post
    /\ map ascii_lower M = str "module"
    /\ S <> [] /\ spaces S
    /\ W <> [] /\ Forall (fun x => is_word x = true) W
    /\ head_fails is_word post
    /\ m_groups m = [W].
Proof.
  unfold match_here, re_module, either_case. intros H.
  rewrite rmatch_seq_cons in H.
  apply rmatch_cls_inv in H as (x1 & t1 & E1 & P1 & H).
  rewrite rmatch_seq_cons in H.
  apply rmatch_cls_inv in H as (x2 & t2 & E2 & P2 & H).
  rewrite rmatch_seq_cons in H.
  apply rmatch_cls_inv in H as (x3 & t3 & E3 & P3 & H).
  rewrite rmatch_seq_cons in H.
  apply rmatch_cls_inv in H as (x4 & t4 & E4 & P4 & H).
  rewrite rmatch_seq_cons in H.
  apply rmatch_cls_inv in H as (x5 & t5 & E5 & P5 & H).
  rewrite rmatch_seq_cons in H.
  apply rmatch_cls_inv in H as (x6 & t6 & E6 & P6 & H).
  rewrite rmatch_seq_cons in H.
  apply rmatch_sound in H as (p7 & s7 & c7 & D & H).
  apply derives_plus in D as (y & S & E7 & FS & ->).
  rewrite rmatch_seq_cons in H.
  apply rmatch_group_plus_longest in H
    as (w & W & post & E8 & FW & HF & H);
    [|intros; rewrite rmatch_seq_nil; discriminate].
  rewrite rmatch_seq_nil in H. injection H as <-.
  exists [x1; x2; x3; x4; x5; x6], (y :: S), (w :: W), post.
  split; [subst; reflexivity|].
  split.
  { cbn [map].
    rewrite (either_case_lower 109 77 x1), (either_case_lower 111 79 x2),
      (either_case_lower 100 68 x3), (either_case_lower 117 85 x4),
      (either_case_lower 108 76 x5), (either_case_lower 101 69 x6);
      first [assumption | reflexivity]. }
  split; [discriminate|]. split; [exact FS|].
  split; [discriminate|]. split; [exact FW|].
  split; [exact HF | reflexivity].
Qed.

Lemma module_match_at (M S W post : jsstring) prev :
  map ascii_lower M = str "module" ->
  S <> [] -> spaces S ->
  W <> [] -> Forall (fun x => is_word x = true) W ->
  head_fails is_word post ->
  match_here re_module prev (M ++ S ++ W ++ post) <> None.
Proof.
  intros EM NS FS NW FW HF.
  destruct M as [|x1 [|x2 [|x3 [|x4 [|x5 [|x6 [|x7 M]]]]]]];
    try discriminate EM.
  injection EM as L1 L2 L3 L4 L5 L6.
  destruct S as [|y S]; [congruence|]. destruct W as [|w W]; [congruence|].
  unfold match_here, re_module, either_case.
  cbn [app]. 
  rewrite rmatch_seq_cons. cbn [rmatch].
  rewrite (lower_either_case 109 77 x1) by (first [lia | assumption]).
  rewrite rmatch_seq_cons. cbn [rmatch].
  rewrite (lower_either_case 111 79 x2) by (first [lia | assumption]).
  rewrite rmatch_seq_cons. cbn [rmatch].
  rewrite (lower_either_case 100 68 x3) by (first [lia | assumption]).
  rewrite rmatch_seq_cons. cbn [rmatch].
  rewrite (lower_either_case 117 85 x4) by (first [lia | assumption]).
  rewrite rmatch_seq_cons. cbn [rmatch].
  rewrite (lower_either_case 108 76 x5) by (first [lia | assumption]).
  rewrite rmatch_seq_cons. cbn [rmatch].
  rewrite (lower_either_case 101 69 x6) by (first [lia | assumption]).
  rewrite rmatch_seq_cons.
  change (y :: S ++ (w :: W) ++ post) with ((y :: S) ++ (w :: W) ++ post).
  match goal with
  | |- ?lhs <> None =>
      assert (X : exists a, lhs = Some a); [|destruct X as (a & ->); discriminate]
  end.
  eexists. unfold ws_plus. apply rmatch_plus_max.
  - exact FS.
  - inversion FW as [|? ? Pw _]; subst. simpl. apply word_not_space. exact Pw.
  - rewrite rmatch_seq_cons. unfold word_plus.
    apply rmatch_group_plus_max; [exact FW | exact HF |].
    rewrite rmatch_seq_nil. reflexivity.
Qed.

(** [message.match(/module\s+(\w+)/i)] finds a match exactly when the
    message names a module, and its first group is such a name. *)
Lemma module_found (message : jsstring) :
  match str_match re_module message with
  | Some m => exists W, nth_error (m_groups m) 0 = Some W
                        /\ module_named message W
  | None => forall W, ~ module_named message W
  end.
Proof.
  destruct (str_match re_module message) as [m|] eqn:E.
  - apply search_sound_at in E as (pre & prev0 & s0 & -> & E).
    apply module_shape in E
      as (M & S & W & post & -> & EM & NS & FS & NW & FW & HF & ->).
    exists W. split; [reflexivity|].
    exists pre, M, S, post. auto 10.
  - intros W (pre & M & S & post & -> & EM & NS & FS & NW & FW & HF).
    revert E. unfold str_match. apply search_complete.
    intros prev0. apply module_match_at; assumption.
Qed.

(** X16. [updateDesignContext] and the module name.  A message names a
    module when it holds the word [module], in any case of its letters,
    then white space, then a run of word characters that is as long as
    can be.  If the message names no module, the current module is left
    as it was and no module is inserted into the database.  If it names
    one, the current module becomes such a name, never an undefined
    value, and the only module insertion run is that of this name, with
    the first clock reading. *)
Theorem module_name_recorded (exec : Statement -> outcome unit)
  (setState : State -> outcome unit) (clock : nat -> Z)
  (toLowerCase : jsstring -> jsstring) (message : jsstring) (st : State) :
  let run := updateDesignContext exec setState clock toLowerCase message st in
  ((forall W, ~ module_named message W)
   /\ currentModule (context run) = currentModule (designContext st)
   /\ forall name t, ~ In (InsertModule name t) (statements run))
  \/ exists W,
       module_named message W
       /\ currentModule (context run) = Some W
       /\ forall name t, In (InsertModule name t) (statements run) ->
                         name = Some W /\ t = clock 0.
Proof.
  intros run.
  destruct (updateDesignContext_cases exec setState clock toLowerCase
              message st) as (c1 & done1 & Head & Tail).
  fold run in Head, Tail.
  assert (Ctx : currentModule (context run) = currentModule c1).
  { destruct Tail as [(_ & -> & _)|[(-> & _)|(k & t & _ & _ & _ & -> & _)]];
      reflexivity. }
  assert (Sts : forall name t, In (InsertModule name t) (statements run) ->
                               In (InsertModule name t) done1).
  { intros name t I.
    destruct Tail as [(_ & _ & S)|[(_ & S & _)|(k & t' & _ & _ & _ & _ & S)]].
    - rewrite S in I; exact I.
    - rewrite S in I; exact I.
    - destruct S as [(S & _)|(S & _)]; rewrite S in I; [exact I|].
      apply in_app_or in I as [I|[I|[]]]; [exact I | discriminate I]. }
  pose proof (module_found message) as Found.
  destruct Head as [(-> & -> & E)|(m & E & -> & Done)]; rewrite E in Found.
  - left. split; [exact Found|]. split; [exact Ctx|].
    intros name t I. exact (Sts name t I).
  - right. destruct Found as (W & G & Named). exists W.
    split; [exact Named|]. rewrite Ctx. cbn [rename_module currentModule].
    split; [exact G|].
    intros name t I. apply Sts in I.
    destruct Done as [(-> & _)|(-> & _)]; [destruct I|].
    destruct I as [I|[]]. injection I as <- <-. auto.
Qed.

Lemma module_name_recorded_witness :
  let run :=
    updateDesignContext (fun _ => Returns tt) (fun _ => Returns tt)
      (fun n => Z.of_nat n) (map ascii_lower)
      (str "Timing ERROR in Module alu_core, line 4")
      {| conversationCount := 3; lastInteraction := 0;
         designContext := initial_context |} in
  currentModule (context run) = Some (str "alu_core")
  /\ forall name t, In (InsertModule name t) (statements run) ->
                    name = Some (str "alu_core") /\ t = 0%Z.
Proof.
  intros run.
  destruct (module_name_recorded (fun _ => Returns tt)
              (fun _ => Returns tt) (fun n => Z.of_nat n) (map ascii_lower)
              (str "Timing ERROR in Module alu_core, line 4")
              {| conversationCount := 3; lastInteraction := 0;
                 designContext := initial_context |})
    as [(_ & C & _)|(W & _ & C & S)].
  - vm_compute in C. discriminate C.
  - fold run in C, S.
    assert (E : Some W = Some (str "alu_core"))
      by (rewrite <- C; vm_compute; reflexivity).
    injection E as ->. split; [exact C | exact S].
Defined.

(** ** The request router *)

Import Server.

Lemma opt_streq_websocket (header : option jsstring) (w : jsstring) :
  opt_streq header (Some w) = true <-> header = Some w.
Proof.
  destruct header as [h|]; simpl.
  - rewrite streq_eq. split; congruence.
  - split; discriminate.
Qed.

Ltac route :=
  repeat split; intros; try discriminate; try tauto;
  try (exfalso; subst;
       intuition (try discriminate; try congruence; try tauto)).

(** X17. The router of the worker, outcome by outcome.  A request is
    handed to the agent as a socket exactly when its path is [/api/chat]
    and its [Upgrade] header is [websocket], and gets status 426 exactly
    when its path is [/api/chat] with any other or no such header, its
    method being ignored in both.  The health answer is given exactly
    for the path [/api/health], whatever the method.  The state of the
    agent is asked for exactly by [GET /api/state], its reset exactly by
    [POST /api/reset].  Status 404 is given exactly to the remaining
    requests whose path starts with [/api/], and the requests passed on
    as static assets are exactly those whose path does not start with
    [/api/]. *)
Theorem routing_table (request : Request) :
  let path := pathname request in
  let api := exists rest, path = str "/api/" ++ rest in
  (fetch request = agent_socket
   <-> path = str "/api/chat" /\ upgrade request = Some (str "websocket"))
  /\ (fetch request = upgrade_required
      <-> path = str "/api/chat" /\ upgrade request <> Some (str "websocket"))
  /\ (fetch request = health <-> path = str "/api/health")
  /\ (fetch request = agent_state
      <-> path = str "/api/state" /\ method request = str "GET")
  /\ (fetch request = agent_reset
      <-> path = str "/api/reset" /\ method request = str "POST")
  /\ (fetch request = not_found
      <-> api /\ path <> str "/api/chat" /\ path <> str "/api/health"
          /\ ~ (path = str "/api/state" /\ method request = str "GET")
          /\ ~ (path = str "/api/reset" /\ method request = str "POST"))
  /\ (fetch request = static_asset <-> ~ api).
Proof.
  destruct request as [path meth up]. cbv zeta. unfold fetch, handleAPIRequest.
  cbn [pathname method upgrade].
  destruct (streq path (str "/api/chat")) eqn:C;
    [apply streq_eq in C | apply streq_neq in C].
  { assert (A : exists rest, path = str "/api/" ++ rest)
      by (exists (str "chat"); exact C).
    subst path.
    destruct (opt_streq up (Some (str "websocket"))) eqn:U.
    - apply opt_streq_websocket in U.
      route.
    - assert (N : up <> Some (str "websocket")).
      { intros E. apply opt_streq_websocket in E. congruence. }
      route. }
  destruct (streq path (str "/")) eqn:R;
    [apply streq_eq in R | apply streq_neq in R].
  { subst path. cbn [orb].
    assert (A : ~ exists rest, str "/" = str "/api/" ++ rest)
      by (intros (rest & E); discriminate E).
    route. }
  destruct (streq path (str "/index.html")) eqn:I;
    [apply streq_eq in I | apply streq_neq in I].
  { subst path. cbn [orb].
    assert (A : ~ exists rest, str "/index.html" = str "/api/" ++ rest)
      by (intros (rest & E); discriminate E).
    route. }
  cbn [orb].
  destruct (starts_with (str "/api/") path) eqn:S.
  - apply starts_with_app in S.
    destruct (streq path (str "/api/health")) eqn:H;
      [apply streq_eq in H | apply streq_neq in H].
    { subst path.
      route. }
    destruct (streq path (str "/api/state")) eqn:T;
      [apply streq_eq in T | apply streq_neq in T];
      destruct (streq meth (str "GET")) eqn:G;
      [apply streq_eq in G | apply streq_neq in G
       | apply streq_eq in G | apply streq_neq in G];
      cbn [andb];
      destruct (streq path (str "/api/reset")) eqn:P;
      [apply streq_eq in P | apply streq_neq in P
       | apply streq_eq in P | apply streq_neq in P
       | apply streq_eq in P | apply streq_neq in P
       | apply streq_eq in P | apply streq_neq in P];
      destruct (streq meth (str "POST")) eqn:Q;
      [apply streq_eq in Q | apply streq_neq in Q
       | apply streq_eq in Q | apply streq_neq in Q
       | apply streq_eq in Q | apply streq_neq in Q
       | apply streq_eq in Q | apply streq_neq in Q
       | apply streq_eq in Q | apply streq_neq in Q
       | apply streq_eq in Q | apply streq_neq in Q
       | apply streq_eq in Q | apply streq_neq in Q
       | apply streq_eq in Q | apply streq_neq in Q];
      cbn [andb];
      route.
  - assert (A : ~ exists rest, path = str "/api/" ++ rest).
    { intros E. apply starts_with_app in E. congruence. }
    assert (H : path <> str "/api/health")
      by (intros ->; apply A; exists (str "health"); reflexivity).
    assert (T : path <> str "/api/state")
      by (intros ->; apply A; exists (str "state"); reflexivity).
    assert (P : path <> str "/api/reset")
      by (intros ->; apply A; exists (str "reset"); reflexivity).
    repeat split; intros; try discriminate; tauto.
Qed.

(** ** Latches in VHDL *)

(** X18. A VHDL source that holds [process] and nowhere [else] gets
    exactly one [latch_inference] warning, the first issue of the result,
    which carries no line; a source that holds [else] anywhere, or that
    does not hold [process], gets none.  Unlike the Verilog rule, this one
    does not look for an [if]. *)
Theorem vhdl_latch_rule (code : jsstring) :
  exists r,
    analyze code vhdl = Returns r
    /\ (includes code (str "process") = true ->
        includes code (str "else") = false ->
        of_kind "latch_inference" (issues r) = [vhdl_latch_issue]
        /\ hd_error (issues r) = Some vhdl_latch_issue)
    /\ (includes code (str "else") = true ->
        of_kind "latch_inference" (issues r) = [])
    /\ (includes code (str "process") = false ->
        of_kind "latch_inference" (issues r) = [])
    /\ severity vhdl_latch_issue = warning
    /\ line vhdl_latch_issue = None.
Proof.
  eexists; split; [reflexivity|]. cbn [issues].
  assert (K : of_kind "latch_inference" (check_vhdl code ++ check_style code)
              = if includes code (str "process")
                   && negb (includes code (str "else"))
                then [vhdl_latch_issue] else []).
  { rewrite of_kind_app.
    rewrite (of_kind_rule "latch_inference" "style" _
               (check_style_kind code)).
    unfold check_vhdl. cbv zeta. rewrite of_kind_app.
    destruct (includes code (str "process") && _);
      destruct (truthy (str_match re_variable code)
                && truthy (str_match re_signal code)); reflexivity. }
  rewrite K. clear K.
  split; [|split; [|split; [|split; reflexivity]]].
  - intros Hp He. unfold check_vhdl. rewrite Hp, He. split; reflexivity.
  - intros He. rewrite He, andb_false_r. reflexivity.
  - intros Hp. rewrite Hp. reflexivity.
Qed.

Lemma vhdl_latch_rule_witness :
  (exists r,
     analyze (str "process (a) begin y <= a; end process;") vhdl = Returns r
     /\ of_kind "latch_inference" (issues r) = [vhdl_latch_issue]
     /\ hd_error (issues r) = Some vhdl_latch_issue)
  /\ (exists r,
        analyze (str "process (a) begin if a then y <= a; else y <= b; end if; end process;")
          vhdl = Returns r
        /\ of_kind "latch_inference" (issues r) = [])
  /\ (exists r,
        analyze (str "y <= a and b;") vhdl = Returns r
        /\ of_kind "latch_inference" (issues r) = []).
Proof.
  split; [|split].
  - destruct (vhdl_latch_rule (str "process (a) begin y <= a; end process;"))
      as (r & E & P & _).
    exists r; split; [exact E | apply P; reflexivity].
  - destruct (vhdl_latch_rule
                (str "process (a) begin if a then y <= a; else y <= b; end if; end process;"))
      as (r & E & _ & P & _).
    exists r; split; [exact E | apply P; reflexivity].
  - destruct (vhdl_latch_rule (str "y <= a and b;")) as (r & E & _ & _ & P & _).
    exists r; split; [exact E | apply P; reflexivity].
Defined.
